(** * ipld-eth-state-snapshot: a shallow embedding of the snapshot service

    The development follows the Go sources:
    - [pkg/types/node_type.go]   : [nodeType], [Node], [CheckKeyType];
    - [pkg/snapshot/publisher.go]: the [publisher] and [PrepareTxForBatch];
    - [pkg/snapshot/service.go]  : [validPath], [resolveNode],
      [createNodeSnapshot], [storageSnapshot], [createSubTrieSnapshot],
      [createSnapshot], [CreateSnapshot], [CreateLatestSnapshot].

    Byte slices are lists of [Z] (each element a [uint8] value), Go's
    [(value, error)] results are an explicit sum with a separate constructor
    for run-time panics, and the stateful parts thread their state
    explicitly. *)

From Stdlib Require Import ZArith List Bool String Lia.
Import ListNotations.

Local Open Scope Z_scope.
Local Set Warnings "-register-all".

(** ** Basic data *)

Definition byte := Z.
Definition bytes := list byte.

Definition bytes_eqb (a b : bytes) : bool :=
  if list_eq_dec Z.eq_dec a b then true else false.

(** What a Go call can produce: a value, a returned [error], or a run-time
    panic (index out of range, failed type assertion). *)
Inductive outcome (A : Type) : Type :=
| Ok (a : A)
| Err (msg : string)
| Panic (msg : string).
Arguments Ok {A} a.
Arguments Err {A} msg.
Arguments Panic {A} msg.

(** The result of [rlp.DecodeBytes] into a [[]interface{}]: every element is
    either a byte string or again a list. *)
Inductive item : Type :=
| IBytes (b : bytes)
| IList (l : list item).

(** ** pkg/types/node_type.go *)

Module Types.

Inductive nodeType : Type := Branch | Extension | Leaf | Removed | Unknown.

Definition nodeType_eqb (a b : nodeType) : bool :=
  match a, b with
  | Branch, Branch | Extension, Extension | Leaf, Leaf
  | Removed, Removed | Unknown, Unknown => true
  | _, _ => false
  end.

(** [type Node struct { NodeType; Path; Key; Value }] *)
Record Node : Type := mkNode {
  NodeType : nodeType;
  Path : bytes;
  Key : bytes;
  Value : bytes
}.

(** [CheckKeyType] returns a pair [(nodeType, error)]; the pair with a nil
    error is [KOk], the pair with a non-nil error is [KErr], and the two
    places where the Go code can panic ([elements[0].([]byte)] on a nested
    list, and [...[0]] on an empty byte string) are [KPanic]. *)
Inductive keyResult : Type :=
| KOk (ty : nodeType)
| KErr (ty : nodeType) (msg : string)
| KPanic (msg : string).

(** [uint8] division [b / 16]. *)
Definition div16 (b : byte) : Z := b / 16.

Definition CheckKeyType (elements : list item) : keyResult :=
  if (2 <? Z.of_nat (List.length elements)) then KOk Branch
  else if (Z.of_nat (List.length elements) <? 2) then
    KErr Unknown "node cannot be less than two elements in length"
  else
    match elements with
    | IBytes (b0 :: _) :: _ =>
        match div16 b0 with
        | 0 => KOk Extension
        | 1 => KOk Extension
        | 2 => KOk Leaf
        | 3 => KOk Leaf
        | _ => KErr Unknown "unknown hex prefix"
        end
    | IBytes [] :: _ => KPanic "index out of range [0] with length 0"
    | IList _ :: _ => KPanic "interface conversion: interface {} is []interface {}, not []uint8"
    | [] => KPanic "index out of range [0] with length 0"
    end.

(** The high nibble of a byte, as the data model defines it: the upper four
    bits. *)
Definition high_nibble (b : byte) : Z := Z.shiftr b 4.

(** The first byte of the first element, when there is one. *)
Definition first_byte (elements : list item) : option byte :=
  match elements with
  | IBytes (b0 :: _) :: _ => Some b0
  | _ => None
  end.

End Types.

Import Types.

(** ** pkg/snapshot/publisher.go *)

Module Pub.

(** The two operations of the SQL layer that [PrepareTxForBatch] uses:
    [tx.Commit()] and [p.db.Beginx()].  Both may fail; a database is any
    type with these operations. *)
Class SqlDB (DB Tx : Type) : Type := {
  Beginx : DB -> outcome Tx * DB;
  Commit : Tx -> DB -> option string * DB
}.

Section Publisher.
Context {DB Tx : Type} `{SqlDB DB Tx}.

(** [type publisher struct { db; currBatchSize; ...Counter }] (the start time
    only feeds the log lines). *)
Record publisher : Type := mkPublisher {
  db : DB;
  currBatchSize : Z;
  stateNodeCounter : Z;
  storageNodeCounter : Z;
  codeNodeCounter : Z
}.

Definition set_db (p : publisher) (d : DB) : publisher :=
  mkPublisher d (currBatchSize p) (stateNodeCounter p)
              (storageNodeCounter p) (codeNodeCounter p).

Definition set_currBatchSize (p : publisher) (n : Z) : publisher :=
  mkPublisher (db p) n (stateNodeCounter p)
              (storageNodeCounter p) (codeNodeCounter p).

(** [NewPublisher]: a zero batch counter and zero node counters. *)
Definition NewPublisher (d : DB) : publisher := mkPublisher d 0 0 0 0.

(** [PrepareTxForBatch(tx, maxBatchSize)] of the publisher; it returns a
    transaction handle and an error. *)
Definition PrepareTxForBatch (p : publisher) (tx : Tx) (maxBatchSize : Z)
  : outcome Tx * publisher :=
  if maxBatchSize <=? currBatchSize p then
    match Commit tx (db p) with
    | (Some e, d1) => (Err e, set_db p d1)
    | (None, d1) =>
        match Beginx d1 with
        | (Ok tx', d2) => (Ok tx', set_currBatchSize (set_db p d2) 0)
        | (Err e, d2) => (Err e, set_db p d2)
        | (Panic e, d2) => (Panic e, set_db p d2)
        end
    end
  else (Ok tx, p).

End Publisher.

Arguments publisher DB : clear implicits.

(** A small database used to run the publisher: it numbers the transactions
    it opens, remembers the open and the committed ones, and refuses to
    commit a transaction that is not open. *)
Record memdb : Type := mkMemdb {
  next_tx : nat;
  open_txs : list nat;
  committed_txs : list nat
}.

Definition memdb_begin (d : memdb) : outcome nat * memdb :=
  (Ok (next_tx d),
   mkMemdb (S (next_tx d)) (next_tx d :: open_txs d) (committed_txs d)).

Definition memdb_commit (tx : nat) (d : memdb) : option string * memdb :=
  if existsb (Nat.eqb tx) (open_txs d) then
    (None, mkMemdb (next_tx d)
                   (filter (fun t => negb (Nat.eqb tx t)) (open_txs d))
                   (tx :: committed_txs d))
  else (Some "sql: transaction has already been committed or rolled back"%string, d).

#[global] Instance memdb_SqlDB : SqlDB memdb nat :=
  {| Beginx := memdb_begin; Commit := memdb_commit |}.

End Pub.

(** ** pkg/snapshot/publisher.go: the publishing methods *)

Module PubRecords.
Import Pub.

(** A row of [eth.state_cids] as [PublishStateNode] inserts it. *)
Record stateRow : Type := mkStateRow {
  st_header_id : Z;
  state_leaf_key : string;
  st_cid : string;
  state_path : bytes;
  st_node_type : nodeType;
  st_diff : bool;
  st_mh_key : string
}.

(** A row of [eth.storage_cids] as [PublishStorageNode] inserts it. *)
Record storageRow : Type := mkStorageRow {
  sg_state_id : Z;
  storage_leaf_key : string;
  sg_cid : string;
  storage_path : bytes;
  sg_node_type : nodeType;
  sg_diff : bool;
  sg_mh_key : string
}.

(** The codecs [ipld.MEthStateTrie] and [ipld.MEthStorageTrie]. *)
Inductive codec : Type := MEthStateTrie | MEthStorageTrie.

(** What the publishing methods call besides [Beginx] and [Commit]:
    [shared.PublishRaw] (it returns the CID and the multihash key, or an
    error), the [INSERT ... RETURNING id] of a state row with its [Scan] (it
    leaves an id and an error), the [Exec] of the insert of a storage row,
    [shared.MultihashKeyFromKeccak256], [shared.PublishDirect],
    [shared.Rollback], and for a header of type [Hdr]: [ipld.NewEthHeader],
    [shared.PublishIPLD] and the insert into [eth.header_cids] with its
    [Scan]. *)
Class SqlStore (DB Tx Hdr HdrNode : Type) : Type := {
  PublishRaw : Tx -> codec -> bytes -> DB -> (string * string + string) * DB;
  InsertStateCID : Tx -> stateRow -> DB -> (Z * option string) * DB;
  ExecStorageCID : Tx -> storageRow -> DB -> option string * DB;
  MultihashKeyFromKeccak256 : bytes -> string + string;
  PublishDirect : Tx -> string -> bytes -> DB -> option string * DB;
  Rollback : Tx -> DB -> DB;
  HashHex : bytes -> string;
  NewEthHeader : Hdr -> HdrNode + string;
  PublishIPLD : Tx -> HdrNode -> DB -> option string * DB;
  InsertHeaderCID : Tx -> Hdr -> HdrNode -> DB -> (Z * option string) * DB
}.

(** Unsigned 64-bit addition, for [atomic.AddUint64] and for [+=] on the
    [uint] batch counter (64 bits wide on the platforms the tool runs on). *)
Definition add64 (a b : Z) : Z := (a + b) mod 2 ^ 64.

Section Records.
Context {DB Tx Hdr HdrNode : Type} `{SqlDB DB Tx} `{SqlStore DB Tx Hdr HdrNode}.
(** [nullHash] of the package, which is declared outside the sources at
    hand. *)
Variable nullHash : bytes.

Definition set_stateNodeCounter (p : publisher DB) (n : Z) : publisher DB :=
  mkPublisher (db p) (currBatchSize p) n (storageNodeCounter p) (codeNodeCounter p).

Definition set_storageNodeCounter (p : publisher DB) (n : Z) : publisher DB :=
  mkPublisher (db p) (currBatchSize p) (stateNodeCounter p) n (codeNodeCounter p).

Definition set_codeNodeCounter (p : publisher DB) (n : Z) : publisher DB :=
  mkPublisher (db p) (currBatchSize p) (stateNodeCounter p) (storageNodeCounter p) n.

(** [if !bytes.Equal(node.Key.Bytes(), nullHash.Bytes()) { key = node.Key.Hex() }],
    with the empty string as the zero value. *)
Definition leafKeyString (node : Node) : string :=
  if negb (bytes_eqb (Key node) nullHash) then HashHex (Key node) else ""%string.

(** [BeginTx]: a new transaction (and the goroutine that logs the counters,
    which changes nothing). *)
Definition BeginTx (p : publisher DB) : outcome Tx * publisher DB :=
  match Beginx (db p) with
  | (Ok tx, d) => (Ok tx, set_db p d)
  | (Err e, d) => (Err e, set_db p d)
  | (Panic e, d) => (Panic e, set_db p d)
  end.

(** [CommitTx]: the final counts are logged and the transaction committed. *)
Definition CommitTx (p : publisher DB) (tx : Tx) : option string * publisher DB :=
  let '(r, d) := Commit tx (db p) in (r, set_db p d).

(** [PublishStateNode(node, headerID, tx)]; it returns the id and the
    error that the [Scan] left. *)
Definition PublishStateNode (p : publisher DB) (node : Node) (headerID : Z) (tx : Tx)
  : (Z * option string) * publisher DB :=
  let stateKey := leafKeyString node in
  match PublishRaw tx MEthStateTrie (Value node) (db p) with
  | (inr e, d1) => ((0, Some e), set_db p d1)
  | (inl (stateCIDStr, mhKey), d1) =>
      let '(r, d2) :=
        InsertStateCID tx (mkStateRow headerID stateKey stateCIDStr (Path node)
                                      (NodeType node) false mhKey) d1 in
      let p1 := set_db p d2 in
      let p2 := set_stateNodeCounter p1 (add64 (stateNodeCounter p1) 1) in
      let p3 := set_currBatchSize p2 (add64 (currBatchSize p2) 2) in
      (r, p3)
  end.

(** [PublishStorageNode(node, stateID, tx)] *)
Definition PublishStorageNode (p : publisher DB) (node : Node) (stateID : Z) (tx : Tx)
  : option string * publisher DB :=
  let storageKey := leafKeyString node in
  match PublishRaw tx MEthStorageTrie (Value node) (db p) with
  | (inr e, d1) => (Some e, set_db p d1)
  | (inl (storageCIDStr, mhKey), d1) =>
      match ExecStorageCID tx (mkStorageRow stateID storageKey storageCIDStr
                                            (Path node) (NodeType node) false mhKey) d1 with
      | (Some e, d2) => (Some e, set_db p d2)
      | (None, d2) =>
          let p1 := set_db p d2 in
          let p2 := set_storageNodeCounter p1 (add64 (storageNodeCounter p1) 1) in
          let p3 := set_currBatchSize p2 (add64 (currBatchSize p2) 2) in
          (None, p3)
      end
  end.

(** [PublishCode(codeHash, codeBytes, tx)]; the two wrapped errors keep
    their constant part. *)
Definition PublishCode (p : publisher DB) (codeHash codeBytes : bytes) (tx : Tx)
  : option string * publisher DB :=
  match MultihashKeyFromKeccak256 codeHash with
  | inr _ => (Some "error deriving multihash key from codehash"%string, p)
  | inl mhKey =>
      match PublishDirect tx mhKey codeBytes (db p) with
      | (Some _, d1) => (Some "error publishing code IPLD"%string, set_db p d1)
      | (None, d1) =>
          let p1 := set_db p d1 in
          let p2 := set_codeNodeCounter p1 (add64 (codeNodeCounter p1) 1) in
          let p3 := set_currBatchSize p2 (add64 (currBatchSize p2) 1) in
          (None, p3)
      end
  end.

(** [PublishHeader(header)], in a transaction of its own.  The deferred
    function rolls the transaction back when the local [err] is set and
    commits it otherwise; the results of the function are not named, so the
    error of that [Commit] goes to the local [err] after the results are
    fixed and is not returned.  The id that goes with a non-nil error is
    left out. *)
Definition PublishHeader (p : publisher DB) (header : Hdr) : outcome Z * publisher DB :=
  match NewEthHeader header with
  | inr e => (Err e, p)
  | inl headerNode =>
      match Beginx (db p) with
      | (Err e, d0) => (Err e, set_db p d0)
      | (Panic e, d0) => (Panic e, set_db p d0)
      | (Ok tx, d0) =>
          match PublishIPLD tx headerNode d0 with
          | (Some e, d1) => (Err e, set_db p (Rollback tx d1))
          | (None, d1) =>
              match InsertHeaderCID tx header headerNode d1 with
              | ((_, Some e), d2) => (Err e, set_db p (Rollback tx d2))
              | ((headerID, None), d2) =>
                  (Ok headerID, set_db p (snd (Commit tx d2)))
              end
          end
      end
  end.

End Records.

End PubRecords.

(** A small store over the database [Pub.memdb]: the writes of a
    transaction fail once it is no longer open, an insert fails on a negative
    foreign key, and headers are numbers. *)
Module MemStore.
Import Pub PubRecords.

Definition isOpen (tx : nat) (d : memdb) : bool := existsb (Nat.eqb tx) (open_txs d).

Definition closed : string := "sql: transaction has already been committed or rolled back".

Definition rollback (tx : nat) (d : memdb) : memdb :=
  mkMemdb (next_tx d) (filter (fun t => negb (Nat.eqb tx t)) (open_txs d))
          (committed_txs d).

#[global] Instance memdb_SqlStore : SqlStore memdb nat Z Z := {|
  PublishRaw := fun tx _ _ d =>
    if isOpen tx d then (inl ("cid", "mh")%string, d) else (inr closed, d);
  InsertStateCID := fun tx row d =>
    if st_header_id row <? 0 then ((0, Some "violates foreign key constraint"%string), d)
    else ((st_header_id row + 1, None), d);
  ExecStorageCID := fun tx row d =>
    if sg_state_id row <? 0 then (Some "violates foreign key constraint"%string, d)
    else (None, d);
  MultihashKeyFromKeccak256 := fun codeHash =>
    if (List.length codeHash =? 32)%nat then inl "mh"%string
    else inr "length greater than length of buffer"%string;
  PublishDirect := fun tx _ _ d =>
    if isOpen tx d then (None, d) else (Some closed, d);
  Rollback := rollback;
  HashHex := fun _ => "0x"%string;
  NewEthHeader := fun header => inl header;
  PublishIPLD := fun tx _ d => if isOpen tx d then (None, d) else (Some closed, d);
  InsertHeaderCID := fun tx header _ d => ((header, None), d)
|}.

(** A store whose [Commit] always fails. *)
Definition failingCommit : SqlDB memdb nat :=
  {| Beginx := memdb_begin;
     Commit := fun tx d => (Some "commit failed"%string, rollback tx d) |}.

End MemStore.

(** ** pkg/snapshot/service.go: the world the service reads *)

Module Snapshot.

(** [types.StateAccount] of go-ethereum. *)
Record StateAccount : Type := mkAccount {
  Nonce : Z;
  Balance : Z;
  Root : bytes;
  CodeHash : bytes
}.

(** The pure functions of go-ethereum that the service calls.  They are not
    part of this repository, so the service is modelled over any
    implementation of them; [Geth.lib] below is the one used to run it. *)
Record EthLib : Type := mkEthLib {
  CompactToHex : bytes -> bytes;          (* trie.CompactToHex *)
  HexToCompact : bytes -> bytes;          (* trie.HexToCompact *)
  BytesToHash : bytes -> bytes;           (* common.BytesToHash *)
  Keccak256 : bytes -> bytes;             (* crypto.Keccak256 *)
  DecodeElements : bytes -> outcome (list item);   (* rlp.DecodeBytes(n, &elements) *)
  DecodeAccount : bytes -> outcome StateAccount;   (* rlp.DecodeBytes(b, &account) *)
  EncodeEmpty : bytes                     (* rlp.EncodeToBytes(&[]byte{}) *)
}.

(** A fully resolved trie as [trie.NodeIterator] presents it: every position
    has the hash the iterator reports ([it.Hash()], the zero hash for value
    nodes and for nodes embedded in their parent), the flag [it.Leaf()] of
    value nodes, and its children in iteration order, each with the nibbles
    that extend the parent's path to the child's path. *)
Inductive trie : Type :=
| TrieNode (hash : bytes) (leaf : bool) (kids : list (bytes * trie)).

Definition thash (t : trie) : bytes := let 'TrieNode h _ _ := t in h.
Definition tleaf (t : trie) : bool := let 'TrieNode _ l _ := t in l.
Definition tkids (t : trie) : list (bytes * trie) := let 'TrieNode _ _ k := t in k.

(** The archive database: [trieDB.Node(hash)], [rawdb.ReadCode] and the
    storage tries [stateDB.OpenTrie(root)] opens ([None] is the empty trie). *)
Record Chain : Type := mkChain {
  TrieDBNode : bytes -> outcome bytes;
  ReadCode : bytes -> bytes;
  OpenStorageTrie : bytes -> outcome (option trie)
}.

Definition Tx := nat.

(** The [Publisher] interface of the service.  Each method takes the state
    of the publisher and returns the new one; [None] is a nil error. *)
Class Publisher (PS : Type) : Type := {
  BeginTx : PS -> outcome Tx * PS;
  PrepareTxForBatch : Tx -> Z -> PS -> outcome Tx * PS;
  PublishStateNode : Node -> string -> Tx -> PS -> option string * PS;
  PublishStorageNode : Node -> string -> bytes -> Tx -> PS -> option string * PS;
  PublishCode : bytes -> bytes -> Tx -> PS -> option string * PS;
  CommitOrRollback : Tx -> option string -> PS -> option string * PS
}.

(** The records the walker has handed to the publisher with success. *)
Inductive record : Type :=
| StateRecord (n : Node) (headerID : string) (tx : Tx)
| StorageRecord (n : Node) (headerID : string) (statePath : bytes) (tx : Tx)
| CodeRecord (codeHash codeBytes : bytes) (tx : Tx).

(** Modelled from the spec: [IsNullHash] of [pkg/types] is not among the
    sources; the walker skips a node silently when the iterator is at the
    zero hash. *)
Definition nullHash : bytes := repeat 0 32.
Definition IsNullHash (h : bytes) : bool := bytes_eqb h nullHash.

(** [bytes.HasPrefix(s, prefix)] *)
Fixpoint HasPrefix (s prefix : bytes) {struct prefix} : bool :=
  match prefix, s with
  | [], _ => true
  | p :: prefix', x :: s' => (x =? p) && HasPrefix s' prefix'
  | _ :: _, [] => false
  end.

(** [func validPath(currentPath []byte, seekingPaths [][]byte) bool] *)
Fixpoint validPath (currentPath : bytes) (seekingPaths : list bytes) : bool :=
  match seekingPaths with
  | [] => false
  | seekingPath :: rest =>
      if HasPrefix seekingPath currentPath then true
      else validPath currentPath rest
  end.

(** ** The walker *)

Section Walker.
Context {PS : Type} `{Publisher PS}.
Variable lib : EthLib.
Variable chain : Chain.

(** [emptyCodeHash] and [emptyContractRoot] of the package. *)
Definition emptyCodeHash : bytes := Keccak256 lib [].
Definition emptyContractRoot : bytes := Keccak256 lib (EncodeEmpty lib).

(** The part of [Service] the walker reads. *)
Record Service : Type := mkService {
  watchingAddresses : bool;
  maxBatchSize : Z
}.

(** The test of both loops, [s.watchingAddresses && !validPath(path, seekingPaths)]:
    the node is ignored when it is not along the paths of interest. *)
Definition ignored (s : Service) (path : bytes) (seekingPaths : list bytes) : bool :=
  watchingAddresses s && negb (validPath path seekingPaths).

(** State of a walk: the publisher and the records published so far. *)
Record wstate : Type := mkW {
  pubst : PS;
  published : list record
}.

Definition M (A : Type) : Type := wstate -> outcome A * wstate.

Definition ret {A} (a : A) : M A := fun w => (Ok a, w).
Definition fail {A} (msg : string) : M A := fun w => (Err msg, w).
Definition panic {A} (msg : string) : M A := fun w => (Panic msg, w).

Definition bind {A B} (m : M A) (k : A -> M B) : M B :=
  fun w => match m w with
           | (Ok a, w') => k a w'
           | (Err e, w') => (Err e, w')
           | (Panic e, w') => (Panic e, w')
           end.

Definition lift {A} (o : outcome A) : M A := fun w => (o, w).

(** A call of a publisher method that returns a value and an error. *)
Definition call {A} (f : PS -> outcome A * PS) : M A :=
  fun w => let '(r, p) := f (pubst w) in (r, mkW p (published w)).

(** A call of a publisher method that returns only an error; on success the
    record [r] counts as published. *)
Definition publish (f : PS -> option string * PS) (r : record) : M unit :=
  fun w => match f (pubst w) with
           | (None, p) => (Ok tt, mkW p (published w ++ [r]))
           | (Some e, p) => (Err e, mkW p (published w))
           end.

Notation "x <- m ;; k" := (bind m (fun x => k))
  (at level 61, m at next level, right associativity).

(** A deferred call: it runs when the function returns or panics, and what it
    returns is dropped. *)
Definition defer {A} (m : M A) (d : PS -> PS) : M A :=
  fun w => let '(r, w') := m w in (r, mkW (d (pubst w')) (published w')).

(** [if err != nil { return fmt.Errorf("<msg> ...", err) }]: an error is
    replaced by one with the message [msg] (the formatted details are left
    out). *)
Definition wrapErr {A} (msg : string) (m : M A) : M A :=
  fun w => match m w with
           | (Err _, w') => (Err msg, w')
           | r => r
           end.

(** [elements[i].([]byte)]: indexing and the type assertion both can panic. *)
Definition asBytes (elements : list item) (i : nat) : outcome bytes :=
  match nth_error elements i with
  | Some (IBytes b) => Ok b
  | Some (IList _) =>
      Panic "interface conversion: interface {} is []interface {}, not []uint8"
  | None => Panic "index out of range"
  end.

(** [b[1:]], which panics on an empty slice. *)
Definition from1 (b : bytes) : outcome bytes :=
  match b with
  | [] => Panic "slice bounds out of range [1:0]"
  | _ :: r => Ok r
  end.

Record nodeResult : Type := mkNodeResult {
  node : Node;
  elements : list item
}.

(** [func resolveNode(nodePath, it, trieDB)], which returns a pointer to a
    [nodeResult] (nil when the position is skipped) and an error; the
    iterator is at the trie position [it]. *)
Definition resolveNode (nodePath : bytes) (it : trie)
  : outcome (option nodeResult) :=
  if tleaf it then Ok None
  else if IsNullHash (thash it) then Ok None
  else
    match TrieDBNode chain (thash it) with
    | Err e => Err e
    | Panic e => Panic e
    | Ok n =>
        match DecodeElements lib n with
        | Err e => Err e
        | Panic e => Panic e
        | Ok elements =>
            match CheckKeyType elements with
            | KErr _ e => Err e
            | KPanic e => Panic e
            | KOk ty => Ok (Some (mkNodeResult (mkNode ty nodePath nullHash n) elements))
            end
        end
    end.

Definition setKey (n : Node) (k : bytes) : Node :=
  mkNode (NodeType n) (Path n) k (Value n).
Definition setValue (n : Node) (v : bytes) : Node :=
  mkNode (NodeType n) (Path n) (Key n) v.

(** The four lines that compute the key of a leaf, the same in
    [createNodeSnapshot] and in [storageSnapshot]:
    [partialPath := trie.CompactToHex(res.elements[0].([]byte))],
    [valueNodePath := append(res.node.Path, partialPath...)],
    [encodedPath := trie.HexToCompact(valueNodePath)],
    [leafKey := encodedPath[1:]], [common.BytesToHash(leafKey)]. *)
Definition leafKeyOf (res : nodeResult) : outcome bytes :=
  match asBytes (elements res) 0 with
  | Err e => Err e
  | Panic e => Panic e
  | Ok e0 =>
      let partialPath := CompactToHex lib e0 in
      let valueNodePath := Path (node res) ++ partialPath in
      let encodedPath := HexToCompact lib valueNodePath in
      match from1 encodedPath with
      | Err e => Err e
      | Panic e => Panic e
      | Ok leafKey => Ok (BytesToHash lib leafKey)
      end
  end.

(** All positions of a trie in the order [it.Next(true)] visits them, each
    with its path from the root of the iteration. *)
Fixpoint preorder (path : bytes) (t : trie) {struct t} : list (bytes * trie) :=
  match t with
  | TrieNode _ _ kids =>
      (path, t) ::
      (fix go (kids : list (bytes * trie)) : list (bytes * trie) :=
         match kids with
         | [] => []
         | (frag, k) :: rest => preorder (path ++ frag) k ++ go rest
         end) kids
  end.

(** One turn of the loop of [storageSnapshot]. *)
Definition storageStep (s : Service) (headerID : string) (statePath : bytes)
           (tx : Tx) (pos : bytes * trie) : M Tx :=
  let '(path, it) := pos in
  res <- lift (resolveNode path it) ;;
  match res with
  | None => ret tx
  | Some res =>
      tx <- call (PrepareTxForBatch tx (maxBatchSize s)) ;;
      nodeData <- lift (TrieDBNode chain (thash it)) ;;
      let res := mkNodeResult (setValue (node res) nodeData) (elements res) in
      match NodeType (node res) with
      | Leaf =>
          key <- lift (leafKeyOf res) ;;
          let n := setKey (node res) key in
          _ <- publish (PublishStorageNode n headerID statePath tx)
                       (StorageRecord n headerID statePath tx) ;;
          ret tx
      | Extension | Branch =>
          let n := setKey (node res) (BytesToHash lib []) in
          _ <- publish (PublishStorageNode n headerID statePath tx)
                       (StorageRecord n headerID statePath tx) ;;
          ret tx
      | _ => fail "unexpected node type"
      end
  end.

Fixpoint storageLoop (s : Service) (headerID : string) (statePath : bytes)
         (tx : Tx) (positions : list (bytes * trie)) : M Tx :=
  match positions with
  | [] => ret tx
  | pos :: rest =>
      tx <- storageStep s headerID statePath tx pos ;;
      storageLoop s headerID statePath tx rest
  end.

(** [func (s *Service) storageSnapshot(sr, headerID, statePath, tx) (Tx, error)] *)
Definition storageSnapshot (s : Service) (sr : bytes) (headerID : string)
           (statePath : bytes) (tx : Tx) : M Tx :=
  if bytes_eqb sr emptyContractRoot then ret tx
  else
    sTrie <- lift (OpenStorageTrie chain sr) ;;
    match sTrie with
    | None => ret tx
    | Some t => storageLoop s headerID statePath tx (preorder [] t)
    end.

(** The block of [createNodeSnapshot] that publishes the code of an account:
    [if !bytes.Equal(account.CodeHash, emptyCodeHash) { ... }]. *)
Definition codeSnapshot (account : StateAccount) (tx : Tx) : M unit :=
  if negb (bytes_eqb (CodeHash account) emptyCodeHash) then
    let codeHash := BytesToHash lib (CodeHash account) in
    let codeBytes := ReadCode chain codeHash in
    if (Z.of_nat (List.length codeBytes) =? 0) then fail "missing code"
    else publish (PublishCode codeHash codeBytes tx)
                 (CodeRecord codeHash codeBytes tx)
  else ret tt.

(** [func (s *Service) createNodeSnapshot(tx, path, it, headerID, seekingPaths) error].
    The messages built with [fmt.Errorf] keep their constant part. *)
Definition createNodeSnapshot (s : Service) (tx : Tx) (path : bytes) (it : trie)
           (headerID : string) (seekingPaths : list bytes) : M unit :=
  res <- lift (resolveNode path it) ;;
  match res with
  | None => ret tt
  | Some res =>
      tx <- call (PrepareTxForBatch tx (maxBatchSize s)) ;;
      match NodeType (node res) with
      | Leaf =>
          e1 <- lift (asBytes (elements res) 1) ;;
          account <- wrapErr "error decoding account for leaf node"
                             (lift (DecodeAccount lib e1)) ;;
          key <- lift (leafKeyOf res) ;;
          let n := setKey (node res) key in
          _ <- publish (PublishStateNode n headerID tx) (StateRecord n headerID tx) ;;
          _ <- codeSnapshot account tx ;;
          _ <- wrapErr "failed building storage snapshot for account"
                       (storageSnapshot s (Root account) headerID (Path n) tx) ;;
          ret tt
      | Extension | Branch =>
          let n := setKey (node res) (BytesToHash lib []) in
          publish (PublishStateNode n headerID tx) (StateRecord n headerID tx)
      | _ => fail "unexpected node type"
      end
  end.

(** [func (s *Service) createSubTrieSnapshot(tx, prefixPath, hash, headerID, seekingPaths) error].
    The sub-trie opened at [hash] is the sub-trie below the position whose
    hash it is; at the zero hash [OpenTrie] gives the empty trie, whose
    iterator yields nothing.  After the first [Next(true)] (the root of the
    sub-trie) the loop takes one [Next(true)] and then [Next(false)]: it
    visits the children of that root, one after the other. *)
Fixpoint createSubTrieSnapshot (s : Service) (tx : Tx) (prefixPath : bytes)
         (root : trie) (headerID : string) (seekingPaths : list bytes)
         {struct root} : M unit :=
  match root with
  | TrieNode hash _ kids =>
      if IsNullHash hash then ret tt
      else
        (fix loop (kids : list (bytes * trie)) : M unit :=
           match kids with
           | [] => ret tt
           | (frag, subTrieIt) :: rest =>
               let nodePath := prefixPath ++ frag in
               if ignored s nodePath seekingPaths
               then loop rest
               else
                 _ <- createNodeSnapshot s tx nodePath subTrieIt headerID seekingPaths ;;
                 _ <- createSubTrieSnapshot s tx nodePath subTrieIt headerID seekingPaths ;;
                 loop rest
           end) kids
  end.

(** The loop of [createSnapshot] and of [createSubTrieSnapshot] over the
    positions of one level. *)
Fixpoint levelLoop (s : Service) (tx : Tx) (prefixPath : bytes)
         (kids : list (bytes * trie)) (headerID : string)
         (seekingPaths : list bytes) : M unit :=
  match kids with
  | [] => ret tt
  | (frag, it) :: rest =>
      let nodePath := prefixPath ++ frag in
      if ignored s nodePath seekingPaths
      then levelLoop s tx prefixPath rest headerID seekingPaths
      else
        _ <- createNodeSnapshot s tx nodePath it headerID seekingPaths ;;
        _ <- createSubTrieSnapshot s tx nodePath it headerID seekingPaths ;;
        levelLoop s tx prefixPath rest headerID seekingPaths
  end.

(** [func (s *Service) createSnapshot(it, headerID, seekingPaths) error] on a
    fresh iterator over the trie [root] ([tree.NodeIterator(nil)], whose path
    is nil): the first [Next(true)] reaches the root, which is processed
    without the path test; its path is empty, so the loop descends once and
    then walks the children of the root.  The deferred function assigns to
    the local [err], which is nil since [BeginTx] succeeded, and the function
    has no named result: what [CommitOrRollback] returns is dropped. *)
Definition createSnapshot (s : Service) (root : trie) (headerID : string)
           (seekingPaths : list bytes) : M unit :=
  tx <- call BeginTx ;;
  defer
    (_ <- createNodeSnapshot s tx [] root headerID seekingPaths ;;
     levelLoop s tx [] (tkids root) headerID seekingPaths)
    (fun p => snd (CommitOrRollback tx None p)).

(** The paths of the state-node records among the published records. *)
Fixpoint statePaths (rs : list record) : list bytes :=
  match rs with
  | [] => []
  | StateRecord n _ _ :: rest => Path n :: statePaths rest
  | _ :: rest => statePaths rest
  end.

End Walker.

Arguments wstate PS : clear implicits.
Arguments M PS A : clear implicits.

(** ** The coordinator: [CreateSnapshot] and [CreateLatestSnapshot] *)

(** What the coordinator reads of a header: [header.Root] and
    [header.Hash().String()]. *)
Record Header : Type := mkHeader {
  HRoot : bytes;
  HHash : string
}.

(** [type SnapshotParams struct { WatchedAddresses; Height; Workers }]; the
    set of addresses is listed in the order the [range] loop meets them. *)
Record SnapshotParams : Type := mkParams {
  WatchedAddresses : list bytes;
  Height : Z;
  Workers : Z
}.

(** The iterators the coordinator handles.  It never looks inside them: it
    builds them, wraps them and hands them to the walkers. *)
Inductive iterator : Type :=
| FullIterator (tree : bytes)                    (* tree.NodeIterator(nil) *)
| SubtrieIterator (tree : bytes) (i : nat) (n : Z)   (* of iter.SubtrieIterators(tree, n) *)
| RestoredIterator (startPath currentPath : bytes)
| TrackedIterator (it : iterator).               (* s.tracker.tracked(it) *)

(** The recovery file: absent, or its records [(start_path, current_path)]. *)
Definition File : Type := option (list (bytes * bytes)).

(** What the coordinator calls outside the walkers: the archive database,
    [PublishHeader] of the publisher, [OpenTrie] (a trie is named by its
    root) and the partitioner. *)
Record World : Type := mkWorld {
  ReadCanonicalHash : Z -> bytes;
  ReadHeader : bytes -> Z -> option Header;
  ReadHeadHeaderHash : bytes;
  ReadHeaderNumber : bytes -> option Z;
  PublishHeader : Header -> option string;
  OpenTrie : bytes -> outcome bytes;
  SubtrieIterators : bytes -> Z -> list iterator;
  keybytesToHex : bytes -> bytes
}.

(** Modelled from the spec: the iterator tracker ([tracker.go]) is not among
    the sources.  [restore] reads the recovery file and returns no iterators
    ([None], Go's nil slice) when there is no file, and otherwise the
    iterators rebuilt from its records or a parse error; it does not write.
    [haltAndDump] is the only operation that writes or removes the file. *)
Record Tracker : Type := mkTracker {
  restore : File -> bytes -> outcome (option (list iterator));
  tracked : iterator -> iterator;
  haltAndDump : list iterator -> File -> option string * File
}.

(** What an execution of the coordinator does, in order. *)
Inductive event : Type :=
| EvPublishHeader (h : Header)
| EvCaptureSignal
| EvRestore
| EvPartition (workers : Z)
| EvSpawn (it : iterator) (headerID : string) (paths : list bytes) (watching : bool)
| EvWalk (it : iterator) (headerID : string) (paths : list bytes) (watching : bool)
| EvHaltAndDump.

Record run : Type := mkRun {
  result : outcome unit;
  events : list event;
  file_after : File
}.

Section Coordinator.
Variable lib : EthLib.
Variable world : World.
Variable tracker : Tracker.
(** What [createSnapshot] returns for an iterator (the walker above, for a
    fresh iterator). *)
Variable walk : iterator -> string -> list bytes -> bool -> outcome unit.

(** The first error among the results of the workers, in the order of the
    iterators (the Go code returns whichever arrives first on the channel). *)
Fixpoint firstError (rs : list (outcome unit)) : outcome unit :=
  match rs with
  | [] => Ok tt
  | Ok _ :: rest => firstError rest
  | r :: _ => r
  end.

(** [createSnapshotAsync]: one goroutine per iterator. *)
Definition createSnapshotAsync (iters : list iterator) (headerID : string)
           (seekingPaths : list bytes) (watching : bool)
  : outcome unit * list event :=
  (firstError (map (fun it => walk it headerID seekingPaths watching) iters),
   map (fun it => EvSpawn it headerID seekingPaths watching) iters).

(** The last statement of [CreateSnapshot]:
    [if len(iters) > 0 { async } else { createSnapshot(iters[0], ...) }]. *)
Definition dispatch (iters : list iterator) (headerID : string)
           (paths : list bytes) (watching : bool)
  : outcome unit * list event :=
  if 0 <? Z.of_nat (List.length iters) then
    createSnapshotAsync iters headerID paths watching
  else
    match nth_error iters 0 with
    | Some it => (walk it headerID paths watching,
                  [EvWalk it headerID paths watching])
    | None => (Panic "index out of range [0] with length 0"%string, [])
    end.

(** The iterators of the run: restored ones, checked against the number of
    workers, or fresh tracked ones. *)
Definition obtainIterators (params : SnapshotParams) (tree : bytes)
           (restored : option (list iterator))
  : outcome (list iterator) * list event :=
  match restored with
  | Some iters =>
      if Workers params <? Z.of_nat (List.length iters) then
        (Err "number of recovered workers is greater than number configured"%string, [])
      else (Ok iters, [])
  | None =>
      if 1 <? Workers params then
        (Ok (map (tracked tracker) (SubtrieIterators world tree (Workers params))),
         [EvPartition (Workers params)])
      else (Ok (map (tracked tracker) [FullIterator tree]), [])
  end.

(** [func (s *Service) CreateSnapshot(params SnapshotParams) error], run
    with the recovery file [file]. *)
Definition CreateSnapshot (params : SnapshotParams) (file : File) : run :=
  let paths := map (fun addr => keybytesToHex world (Keccak256 lib addr))
                   (WatchedAddresses params) in
  let watching := 0 <? Z.of_nat (List.length paths) in
  let hash := ReadCanonicalHash world (Height params) in
  match ReadHeader world hash (Height params) with
  | None => mkRun (Err "unable to read canonical header") [] file
  | Some header =>
      match PublishHeader world header with
      | Some e => mkRun (Err e) [] file
      | None =>
          match OpenTrie world (HRoot header) with
          | Err e => mkRun (Err e) [EvPublishHeader header] file
          | Panic e => mkRun (Panic e) [EvPublishHeader header] file
          | Ok tree =>
              let headerID := HHash header in
              let before := [EvPublishHeader header; EvCaptureSignal; EvRestore] in
              match restore tracker file tree with
              | Err e => mkRun (Err e) before file
              | Panic e => mkRun (Panic e) before file
              | Ok restored =>
                  match obtainIterators params tree restored with
                  | (Err e, evs) => mkRun (Err e) (before ++ evs) file
                  | (Panic e, evs) => mkRun (Panic e) (before ++ evs) file
                  | (Ok iters, evs) =>
                      (* from here on the deferred haltAndDump is registered *)
                      let '(r, walked) := dispatch iters headerID paths watching in
                      let '(_, file') := haltAndDump tracker iters file in
                      mkRun r (before ++ evs ++ walked ++ [EvHaltAndDump]) file'
                  end
              end
          end
      end
  end.

(** [func (s *Service) CreateLatestSnapshot(workers, watchedAddresses) error] *)
Definition CreateLatestSnapshot (workers : Z) (watchedAddresses : list bytes)
           (file : File) : run :=
  let hash := ReadHeadHeaderHash world in
  match ReadHeaderNumber world hash with
  | None => mkRun (Err "unable to read header height for header hash") [] file
  | Some height =>
      CreateSnapshot (mkParams watchedAddresses height workers) file
  end.

End Coordinator.

(** Walker events of a run. *)
Definition isWalkerEvent (e : event) : bool :=
  match e with
  | EvSpawn _ _ _ _ | EvWalk _ _ _ _ => true
  | _ => false
  end.

Definition isSpawn (e : event) : bool :=
  match e with EvSpawn _ _ _ _ => true | _ => false end.

Definition isWalk (e : event) : bool :=
  match e with EvWalk _ _ _ _ => true | _ => false end.

Definition isHalt (e : event) : bool :=
  match e with EvHaltAndDump => true | _ => false end.

End Snapshot.

(** ** The go-ethereum functions the service calls *)

Module Geth.

(** [trie/encoding.go] *)
Fixpoint nibblesOf (str : bytes) : bytes :=
  match str with
  | [] => []
  | b :: rest => b / 16 :: b mod 16 :: nibblesOf rest
  end.

Definition keybytesToHex (str : bytes) : bytes := nibblesOf str ++ [16].

Definition hasTerm (s : bytes) : bool :=
  match rev s with
  | last :: _ => last =? 16
  | [] => false
  end.

Fixpoint decodeNibbles (nibbles : bytes) : bytes :=
  match nibbles with
  | a :: b :: rest => Z.lor ((Z.shiftl a 4) mod 256) b :: decodeNibbles rest
  | _ => []
  end.

Definition hexToCompact (hex : bytes) : bytes :=
  let terminator := if hasTerm hex then 1 else 0 in
  let hex := if hasTerm hex then removelast hex else hex in
  let flag := (Z.shiftl terminator 5) mod 256 in
  if Nat.odd (List.length hex) then
    Z.lor (Z.lor flag (Z.shiftl 1 4)) (hd 0 hex) :: decodeNibbles (tl hex)
  else flag :: decodeNibbles hex.

Definition compactToHex (compact : bytes) : bytes :=
  match compact with
  | [] => compact
  | _ =>
      let base := keybytesToHex compact in
      let base := if hd 0 base <? 2 then removelast base else base in
      let chop := 2 - Z.land (hd 0 base) 1 in
      skipn (Z.to_nat chop) base
  end.

(** [common.BytesToHash]: the last 32 bytes, padded with zeros on the left. *)
Definition BytesToHash (b : bytes) : bytes :=
  let b := skipn (List.length b - 32) b in
  repeat 0 (32 - List.length b) ++ b.

End Geth.

(** ** A small world to run the service on *)

Module Fixture.
Import Snapshot.

(** The two digests the package computes when it is loaded. *)
Definition keccak_of_empty : bytes :=
  [197; 210; 70; 1; 134; 247; 35; 60; 146; 126; 125; 178; 220; 199; 3; 192; 229; 0; 182; 83; 202; 130; 39; 59; 123; 250; 216; 4; 93; 133; 164; 112].
Definition keccak_of_rlp_empty : bytes :=
  [86; 232; 31; 23; 27; 204; 85; 166; 255; 131; 69; 230; 146; 192; 248; 110; 91; 72; 224; 27; 153; 108; 173; 192; 1; 98; 47; 181; 227; 99; 180; 33].

(** A table in place of Keccak-256: it knows the two digests above. *)
Definition keccak_table (b : bytes) : bytes :=
  match b with
  | [] => keccak_of_empty
  | [128] => keccak_of_rlp_empty
  | _ => Geth.BytesToHash b
  end.

(** A toy node encoding: [[17]] is a branch; [2 :: n :: key ++ value] is a
    two-element node whose first element has [n] bytes. *)
Definition decodeElements (n : bytes) : outcome (list item) :=
  match n with
  | 17 :: _ => Ok (repeat (IBytes []) 17)
  | 2 :: k :: rest =>
      Ok [IBytes (firstn (Z.to_nat k) rest); IBytes (skipn (Z.to_nat k) rest)]
  | _ => Err "rlp: expected input list"
  end.

(** A toy account encoding: [[c; r]], where [c = 0] means no code and
    [r = 0] means no storage. *)
Definition decodeAccount (b : bytes) : outcome StateAccount :=
  match b with
  | [c; r] =>
      Ok (mkAccount 0 0
            (if r =? 0 then keccak_of_rlp_empty else Geth.BytesToHash [r])
            (if c =? 0 then keccak_of_empty else Geth.BytesToHash [c]))
  | _ => Err "rlp: input string too short"
  end.

Definition lib : EthLib :=
  mkEthLib Geth.compactToHex Geth.hexToCompact Geth.BytesToHash keccak_table
           decodeElements decodeAccount [128].

Definition h (n : Z) : bytes := Geth.BytesToHash [n].

Definition valueNode : trie := TrieNode nullHash true [].

(** Two accounts under a branch: the one at [1] has neither code nor
    storage, the one at [3] has both. *)
Definition leafA : trie := TrieNode (h 2) false [([2; 16], valueNode)].
Definition leafB : trie := TrieNode (h 3) false [([4; 16], valueNode)].
Definition stateTrie : trie := TrieNode (h 1) false [([1], leafA); ([3], leafB)].

(** A deeper trie: a branch below the branch. *)
Definition inner : trie := TrieNode (h 5) false [([2], leafA); ([7], leafB)].
Definition deepTrie : trie := TrieNode (h 1) false [([1], inner); ([3], leafB)].

Definition storageTrie : trie := TrieNode (h 4) false [([5; 16], valueNode)].

Definition nodeBytes (hash : bytes) : outcome bytes :=
  if bytes_eqb hash (h 1) then Ok [17]
  else if bytes_eqb hash (h 5) then Ok [17]
  else if bytes_eqb hash (h 2) then Ok [2; 1; 50; 0; 0]
  else if bytes_eqb hash (h 3) then Ok [2; 1; 52; 7; 9]
  else if bytes_eqb hash (h 4) then Ok [2; 1; 53; 1]
  else Err "missing trie node".

Definition chain : Chain :=
  mkChain nodeBytes
          (fun codeHash => if bytes_eqb codeHash (h 7) then [96; 0] else [])
          (fun root => if bytes_eqb root (h 9) then Ok (Some storageTrie)
                       else Err "missing trie node").

(** The same chain with the code of the second account lost. *)
Definition chainNoCode : Chain :=
  mkChain nodeBytes (fun _ => []) (OpenStorageTrie chain).

(** The publisher of [publisher.go] over the small database, as the
    [Publisher] of the service: a state or storage node adds 2 to the batch
    counter, a code blob adds 1. *)
Definition pstate : Type := Pub.publisher Pub.memdb.

Definition bump (n : Z) (p : pstate) : pstate :=
  Pub.set_currBatchSize p (Pub.currBatchSize p + n).

#[global] Instance fixture_Publisher : Publisher pstate := {|
  BeginTx := fun p =>
    let '(r, d) := Pub.Beginx (Tx := nat) (Pub.db p) in (r, Pub.set_db p d);
  PrepareTxForBatch := fun tx max p =>
    Pub.PrepareTxForBatch (Tx := nat) p tx max;
  PublishStateNode := fun _ _ _ p => (None, bump 2 p);
  PublishStorageNode := fun _ _ _ _ p => (None, bump 2 p);
  PublishCode := fun _ _ _ p => (None, bump 1 p);
  CommitOrRollback := fun tx err p =>
    match err with
    | Some e => (Some e, p)
    | None =>
        let '(r, d) := Pub.Commit (Tx := nat) tx (Pub.db p) in (r, Pub.set_db p d)
    end
|}.

Definition p0 : pstate := Pub.NewPublisher (Pub.mkMemdb 0 [] []).
Definition w0 : wstate pstate := mkW p0 [].

Definition service (watching : bool) : Service := mkService watching 100.

(** A coordinator world: one header at height 5, which is also the head. *)
Definition header5 : Header := mkHeader (h 1) "0xheader5".

Definition world : World :=
  mkWorld (fun height => h height)
          (fun hash height => if (height =? 5) && bytes_eqb hash (h 5)
                              then Some header5 else None)
          (h 5)
          (fun hash => if bytes_eqb hash (h 5) then Some 5 else None)
          (fun _ => None)
          (fun root => Ok root)
          (fun tree n => map (fun i => SubtrieIterator tree i n)
                             (seq 0 (Z.to_nat n)))
          Geth.keybytesToHex.

(** A tracker that rebuilds one iterator per record of the file. *)
Definition fileTracker : Tracker :=
  mkTracker (fun file _ =>
               match file with
               | None => Ok None
               | Some records =>
                   Ok (Some (map (fun r => TrackedIterator
                                             (RestoredIterator (fst r) (snd r)))
                                 records))
               end)
            TrackedIterator
            (fun _ _ => (None, None)).

(** A tracker whose [restore] returns an empty, non-nil list. *)
Definition emptyTracker : Tracker :=
  mkTracker (fun _ _ => Ok (Some [])) TrackedIterator (fun _ file => (None, file)).

Definition walkOk (it : iterator) (headerID : string) (paths : list bytes)
           (watching : bool) : outcome unit := Ok tt.

(** Publishers of [publisher.go] over the small database: one with a full
    batch and the transaction 0 open, one with a full batch whose
    transaction is already committed, one with an empty batch; and a leaf
    node to publish. *)
Definition fullP : Pub.publisher Pub.memdb :=
  Pub.mkPublisher (Pub.mkMemdb 1 [0%nat] []) 100 7 3 1.
Definition staleP : Pub.publisher Pub.memdb :=
  Pub.mkPublisher (Pub.mkMemdb 1 [] [0%nat]) 100 7 3 1.
Definition freshP : Pub.publisher Pub.memdb :=
  Pub.mkPublisher (Pub.mkMemdb 1 [0%nat] []) 0 7 3 1.
Definition leafNode : Node := mkNode Leaf [1] (Geth.BytesToHash [18]) [2; 1; 50; 0; 0].

(** A walker that fails on the second partition. *)
Definition walkFailSecond (it : iterator) (headerID : string) (paths : list bytes)
           (watching : bool) : outcome unit :=
  match it with
  | TrackedIterator (SubtrieIterator _ 1 _) => Err "missing code"
  | _ => Ok tt
  end.

End Fixture.


(** * What the properties talk about *)

Module Observe.
Import Snapshot.

(** The watched paths [CreateSnapshot] computes from the addresses. *)
Definition watchedPaths (lib : EthLib) (world : World) (watched : list bytes)
  : list bytes :=
  map (fun addr => keybytesToHex world (Keccak256 lib addr)) watched.

(** The walker events of [e], if it is one, carry [paths] and [watching]. *)
Definition carries (paths : list bytes) (watching : bool) (e : event) : Prop :=
  match e with
  | EvSpawn _ _ p w | EvWalk _ _ p w => p = paths /\ w = watching
  | _ => True
  end.


(** A position at which [resolveNode] does not return nil: neither a value
    node nor at the zero hash. *)
Definition resolvable (it : trie) : bool :=
  negb (tleaf it) && negb (IsNullHash (thash it)).

(** [below prefix t P n]: the position [n], at path [P], lies below the
    position [t], whose path is [prefix], and every position between them
    has a hash other than the zero hash (its sub-trie can be opened). *)
Inductive below : bytes -> trie -> bytes -> trie -> Prop :=
| below_kid (prefix : bytes) (t : trie) (frag : bytes) (k : trie) :
    In (frag, k) (tkids t) -> below prefix t (prefix ++ frag) k
| below_deeper (prefix : bytes) (t : trie) (frag : bytes) (k : trie)
               (P : bytes) (n : trie) :
    In (frag, k) (tkids t) -> IsNullHash (thash k) = false ->
    below (prefix ++ frag) k P n -> below prefix t P n.

(** The positions of the state trie that a walk from the root can reach,
    with their paths. *)
Definition reachable (root : trie) (P : bytes) (n : trie) : Prop :=
  (P = [] /\ n = root) \/ below [] root P n.

(** [P] is the path of a state node that can be reached and resolved. *)
Definition stateNodeAt (root : trie) (P : bytes) : Prop :=
  exists n, reachable root P n /\ resolvable n = true.

(** [prefix] is a prefix of [s]. *)
Definition isPrefixOf (prefix s : bytes) : Prop := exists rest, s = prefix ++ rest.

(** The key the data model prescribes for a leaf at [path] whose first
    element is [partial]: [compact[1:]] of
    [hex_to_compact (path ++ compact_to_hex partial)], as a hash. *)
Definition leaf_key (lib : EthLib) (path partial : bytes) : bytes :=
  BytesToHash lib (tl (HexToCompact lib (path ++ CompactToHex lib partial))).

(** A published node, when it is a leaf, has the key of the data model; the
    first element is the one its value decodes to. *)
Definition leafKeyed (lib : EthLib) (n : Node) : Prop :=
  NodeType n = Leaf ->
  exists partial rest,
    DecodeElements lib (Value n) = Ok (IBytes partial :: rest) /\
    Key n = leaf_key lib (Path n) partial.

Definition recordKeyed (lib : EthLib) (r : record) : Prop :=
  match r with
  | StateRecord n _ _ => leafKeyed lib n
  | StorageRecord n _ _ _ => leafKeyed lib n
  | CodeRecord _ _ _ => True
  end.

(** The computation [m] publishes only records that satisfy [Inv]. *)
Definition keeps {PS A : Type} (Inv : record -> Prop) (m : M PS A) : Prop :=
  forall w, Forall Inv (published w) -> Forall Inv (published (snd (m w))).

(** The computation [m] only appends records, all of them in [Q]. *)
Definition adds {PS A : Type} (Q : record -> Prop) (m : M PS A) : Prop :=
  forall w, exists new,
    published (snd (m w)) = published w ++ new /\ Forall Q new.

Definition isStorageRecord (r : record) : Prop :=
  match r with StorageRecord _ _ _ _ => True | _ => False end.

(** A run of [m] that succeeds publishes state nodes at exactly [paths],
    in this order. *)
Definition emits {PS A : Type} (paths : list bytes) (m : M PS A) : Prop :=
  forall w a w', m w = (Ok a, w') ->
                 statePaths (published w') = statePaths (published w) ++ paths.

(** The path of a position, if [createNodeSnapshot] publishes it. *)
Definition nodePaths (path : bytes) (it : trie) : list bytes :=
  if resolvable it then [path] else [].

(** The paths the loops go through below a position, in order: a child is
    dropped with all that lies below it when it is ignored, and nothing is
    found below a position at the zero hash. *)
Fixpoint subPaths (s : Service) (seekingPaths : list bytes) (prefixPath : bytes)
         (root : trie) {struct root} : list bytes :=
  match root with
  | TrieNode hash _ kids =>
      if IsNullHash hash then []
      else
        (fix go (kids : list (bytes * trie)) : list bytes :=
           match kids with
           | [] => []
           | (frag, k) :: rest =>
               let nodePath := prefixPath ++ frag in
               if ignored s nodePath seekingPaths then go rest
               else nodePaths nodePath k
                    ++ subPaths s seekingPaths nodePath k ++ go rest
           end) kids
  end.

Fixpoint levelPaths (s : Service) (seekingPaths : list bytes) (prefixPath : bytes)
         (kids : list (bytes * trie)) : list bytes :=
  match kids with
  | [] => []
  | (frag, k) :: rest =>
      let nodePath := prefixPath ++ frag in
      if ignored s nodePath seekingPaths
      then levelPaths s seekingPaths prefixPath rest
      else nodePaths nodePath k
           ++ subPaths s seekingPaths nodePath k
           ++ levelPaths s seekingPaths prefixPath rest
  end.

Definition isPartition (e : event) : bool :=
  match e with EvPartition _ => true | _ => false end.

(** All results of the list are [Ok]. *)
Definition allOk (rs : list (outcome unit)) : Prop :=
  Forall (fun r => r = Ok tt) rs.

(** The computation [m] only appends records, and the list of the appended
    records is in [Q]. *)
Definition addsList {PS A : Type} (Q : list record -> Prop) (m : M PS A) : Prop :=
  forall w, exists new,
    published (snd (m w)) = published w ++ new /\ Q new.

(** A published node is sound for the archive: its value is stored there
    under some hash, its type is the one [CheckKeyType] gives to the decoded
    value, and a node that is not a leaf has the key [BytesToHash []]. *)
Definition nodeSound (lib : EthLib) (chain : Chain) (n : Node) : Prop :=
  exists hash elements,
    TrieDBNode chain hash = Ok (Value n) /\
    DecodeElements lib (Value n) = Ok elements /\
    CheckKeyType elements = KOk (NodeType n) /\
    (NodeType n = Leaf \/
     ((NodeType n = Branch \/ NodeType n = Extension) /\
      Key n = BytesToHash lib [])).

(** A published record is sound: a node is sound and carries the header of
    the walk; a code blob is what the archive holds under its hash, and is
    not empty. *)
Definition recordSound (lib : EthLib) (chain : Chain) (headerID : string)
           (r : record) : Prop :=
  match r with
  | StateRecord n hid _ => hid = headerID /\ nodeSound lib chain n
  | StorageRecord n hid _ _ => hid = headerID /\ nodeSound lib chain n
  | CodeRecord codeHash codeBytes _ =>
      codeBytes = ReadCode chain codeHash /\ codeBytes <> []
  end.

(** The paths of the storage-node records among the published records. *)
Fixpoint storagePaths (rs : list record) : list bytes :=
  match rs with
  | [] => []
  | StorageRecord n _ _ _ :: rest => Path n :: storagePaths rest
  | _ :: rest => storagePaths rest
  end.

Definition isCodeRecord (r : record) : Prop :=
  match r with CodeRecord _ _ _ => True | _ => False end.

(** A storage record of the account at [statePath], under [headerID]. *)
Definition storageAt (headerID : string) (statePath : bytes) (r : record) : Prop :=
  match r with
  | StorageRecord _ hid sp _ => hid = headerID /\ sp = statePath
  | _ => False
  end.

(** What one call of [createNodeSnapshot] at [path] can append: nothing; or
    the state record of the node at [path], followed (only for a leaf) by at
    most one code blob and then by storage records of the account at
    [path]. *)
Definition nodeBlock (headerID : string) (path : bytes) (new : list record) : Prop :=
  new = [] \/
  exists n tx codes storages,
    new = StateRecord n headerID tx :: codes ++ storages /\
    Path n = path /\
    (List.length codes <= 1)%nat /\ Forall isCodeRecord codes /\
    Forall (storageAt headerID path) storages /\
    (NodeType n <> Leaf -> codes = [] /\ storages = []).

(** A record may follow the records [seen]: a storage record and a code blob
    need the state record of their account, a leaf, among them; for a
    storage record it is the one at its state path. *)
Definition mayFollow (seen : list record) (r : record) : Prop :=
  match r with
  | StateRecord _ _ _ => True
  | StorageRecord _ hid sp _ =>
      exists n tx, In (StateRecord n hid tx) seen /\ Path n = sp /\ NodeType n = Leaf
  | CodeRecord _ _ _ =>
      exists n hid tx, In (StateRecord n hid tx) seen /\ NodeType n = Leaf
  end.

(** Every record of [rs] may follow [seen] and the records of [rs] before
    it. *)
Fixpoint linkedFrom (seen rs : list record) : Prop :=
  match rs with
  | [] => True
  | r :: rest => mayFollow seen r /\ linkedFrom (seen ++ [r]) rest
  end.

(** [under prefix t P n]: the position [n], at path [P], lies below the
    position [t], whose path is [prefix], whatever the hashes in between. *)
Inductive under : bytes -> trie -> bytes -> trie -> Prop :=
| under_kid (prefix : bytes) (t : trie) (frag : bytes) (k : trie) :
    In (frag, k) (tkids t) -> under prefix t (prefix ++ frag) k
| under_deeper (prefix : bytes) (t : trie) (frag : bytes) (k : trie)
               (P : bytes) (n : trie) :
    In (frag, k) (tkids t) -> under (prefix ++ frag) k P n -> under prefix t P n.

(** [P] is the path of a node of the trie [t] that can be resolved. *)
Definition storageNodeAt (t : trie) (P : bytes) : Prop :=
  exists n, ((P = [] /\ n = t) \/ under [] t P n) /\ resolvable n = true.

(** The handle of a state record or of a code blob is one the batch
    rotation returned when it was asked with the handle [tx0]. *)
Definition rotatedFrom {PS : Type} `{Publisher PS} (s : Service) (tx0 : Tx)
           (r : record) : Prop :=
  match r with
  | StateRecord _ _ tx | CodeRecord _ _ tx =>
      exists p p' : PS, PrepareTxForBatch tx0 (maxBatchSize s) p = (Ok tx, p')
  | StorageRecord _ _ _ _ => True
  end.

(** Nibbles and bytes. *)
Definition isNibble (x : Z) : Prop := 0 <= x < 16.
Definition isByte (x : Z) : Prop := 0 <= x < 256.

(** The sixteen nibbles. *)
Definition nibbleRange : list Z := map Z.of_nat (seq 0 16).



(** The nodes of the state records, and of the storage records, among the
    published records. *)
Fixpoint stateNodesOf (rs : list record) : list Node :=
  match rs with
  | [] => []
  | StateRecord n _ _ :: rest => n :: stateNodesOf rest
  | _ :: rest => stateNodesOf rest
  end.

Fixpoint storageNodesOf (rs : list record) : list Node :=
  match rs with
  | [] => []
  | StorageRecord n _ _ _ :: rest => n :: storageNodesOf rest
  | _ :: rest => storageNodesOf rest
  end.

(** A run of [m] that succeeds publishes, seen through [proj], exactly
    [ns], in this order. *)
Definition emitsBy {PS A : Type} (proj : list record -> list Node) (ns : list Node)
           (m : M PS A) : Prop :=
  forall w a w', m w = (Ok a, w') -> proj (published w') = proj (published w) ++ ns.

(** The node the data model prescribes for the position [it] at [path]: for
    a leaf, the key is [leaf_key] of the path and of the first element; for
    a branch or an extension it is [BytesToHash []]; the value is what the
    archive holds under the hash of the position.  Nothing for a position
    that does not resolve. *)
Definition nodeFor (lib : EthLib) (chain : Chain) (path : bytes) (it : trie)
  : list Node :=
  match resolveNode lib chain path it with
  | Ok (Some res) =>
      match NodeType (node res), elements res with
      | Leaf, IBytes partial :: _ =>
          [mkNode Leaf path (leaf_key lib path partial) (Value (node res))]
      | Branch, _ => [mkNode Branch path (BytesToHash lib []) (Value (node res))]
      | Extension, _ => [mkNode Extension path (BytesToHash lib []) (Value (node res))]
      | _, _ => []
      end
  | _ => []
  end.

(** The nodes of the positions the loops go through, in order (compare
    [subPaths] and [levelPaths]). *)
Fixpoint subNodes (lib : EthLib) (chain : Chain) (s : Service)
         (seekingPaths : list bytes) (prefixPath : bytes) (root : trie)
         {struct root} : list Node :=
  match root with
  | TrieNode hash _ kids =>
      if IsNullHash hash then []
      else
        (fix go (kids : list (bytes * trie)) : list Node :=
           match kids with
           | [] => []
           | (frag, k) :: rest =>
               let nodePath := prefixPath ++ frag in
               if ignored s nodePath seekingPaths then go rest
               else nodeFor lib chain nodePath k
                    ++ subNodes lib chain s seekingPaths nodePath k ++ go rest
           end) kids
  end.

Fixpoint levelNodes (lib : EthLib) (chain : Chain) (s : Service)
         (seekingPaths : list bytes) (prefixPath : bytes)
         (kids : list (bytes * trie)) : list Node :=
  match kids with
  | [] => []
  | (frag, k) :: rest =>
      let nodePath := prefixPath ++ frag in
      if ignored s nodePath seekingPaths
      then levelNodes lib chain s seekingPaths prefixPath rest
      else nodeFor lib chain nodePath k
           ++ subNodes lib chain s seekingPaths nodePath k
           ++ levelNodes lib chain s seekingPaths prefixPath rest
  end.

(** The position [it] at [P] is one the walk from [root] goes through: the
    root, or a position below it, reached through hashes other than the zero
    hash, that the filter does not ignore. *)
Definition walked (s : Service) (seekingPaths : list bytes) (root : trie)
           (P : bytes) (it : trie) : Prop :=
  (P = [] /\ it = root) \/
  (below [] root P it /\ ignored s P seekingPaths = false).

(** The position [it] is a leaf of the data model, with first element
    [partial] and raw value [value]: it can be resolved, the archive holds
    [value] under its hash, [value] decodes to two elements, and the high
    nibble of the first byte of the first one, [partial], is 2 or 3. *)
Definition leafAt (lib : EthLib) (chain : Chain) (it : trie)
           (partial value : bytes) : Prop :=
  resolvable it = true /\
  TrieDBNode chain (thash it) = Ok value /\
  exists b0 second,
    DecodeElements lib value = Ok [IBytes partial; second] /\
    first_byte [IBytes partial] = Some b0 /\
    (high_nibble b0 = 2 \/ high_nibble b0 = 3).

(** A run of [m], whether it succeeds or not, publishes, seen through
    [proj], a prefix of [ns]. *)
Definition emitsWithin {PS A : Type} (proj : list record -> list Node)
           (ns : list Node) (m : M PS A) : Prop :=
  forall w, exists done rest,
    proj (published (snd (m w))) = proj (published w) ++ done /\
    ns = done ++ rest.

(** The watched paths carry the terminator: so do the paths
    [keybytesToHex] makes, which end in 16. *)
Definition terminated (seekingPaths : list bytes) : Prop :=
  forall wp, In wp seekingPaths -> In 16 wp.

(** The paths of the positions of [root] that can be resolved are made of
    nibbles: so it is in a trie of go-ethereum, where only the step to a
    value node adds the terminator. *)
Definition nibblePaths (root : trie) : Prop :=
  forall P, stateNodeAt root P -> Forall isNibble P.

Definition isNibbleb (x : Z) : bool := (0 <=? x) && (x <? 16).

(** A test for [nibblePaths]: every child is a value node without children,
    or is reached by nibbles and passes the test. *)
Fixpoint nibbleTrie (t : trie) {struct t} : bool :=
  match t with
  | TrieNode _ _ kids =>
      (fix go (kids : list (bytes * trie)) : bool :=
         match kids with
         | [] => true
         | (frag, k) :: rest =>
             ((tleaf k && match tkids k with [] => true | _ => false end)
              || (forallb isNibbleb frag && nibbleTrie k))
             && go rest
         end) kids
  end.

(** The node of the data model for a leaf at [P]. *)
Definition leafNodeOf (lib : EthLib) (P partial value : bytes) : Node :=
  mkNode Leaf P (leaf_key lib P partial) value.

End Observe.

Import Observe.

(** * Properties *)

Import Snapshot.

(** ** Basic facts *)

Lemma bytes_eqb_eq (a b : bytes) : bytes_eqb a b = true <-> a = b.
Proof.
  unfold bytes_eqb. destruct (list_eq_dec Z.eq_dec a b); split; congruence.
Qed.

Lemma bytes_eqb_refl (a : bytes) : bytes_eqb a a = true.
Proof. apply bytes_eqb_eq. reflexivity. Qed.

Lemma bytes_eqb_neq (a b : bytes) : bytes_eqb a b = false <-> a <> b.
Proof.
  unfold bytes_eqb. destruct (list_eq_dec Z.eq_dec a b); split; congruence.
Qed.

(** ** Classification *)

Lemma div16_high_nibble (b : byte) : div16 b = high_nibble b.
Proof.
  unfold div16, high_nibble. rewrite Z.shiftr_div_pow2 by lia. reflexivity.
Qed.

Lemma CheckKeyType_long (elements : list item) :
  (2 < List.length elements)%nat -> CheckKeyType elements = KOk Branch.
Proof.
  intros H. unfold CheckKeyType.
  destruct (2 <? Z.of_nat (List.length elements)) eqn:E; [reflexivity|].
  apply Z.ltb_ge in E. lia.
Qed.

Lemma CheckKeyType_short (elements : list item) :
  (List.length elements < 2)%nat ->
  CheckKeyType elements =
  KErr Unknown "node cannot be less than two elements in length".
Proof.
  intros H. unfold CheckKeyType.
  destruct (2 <? Z.of_nat (List.length elements)) eqn:E.
  - apply Z.ltb_lt in E. lia.
  - destruct (Z.of_nat (List.length elements) <? 2) eqn:E2; [reflexivity|].
    apply Z.ltb_ge in E2. lia.
Qed.

Lemma CheckKeyType_two (elements : list item) (b0 : byte) :
  List.length elements = 2%nat -> first_byte elements = Some b0 ->
  CheckKeyType elements =
  match high_nibble b0 with
  | 0 | 1 => KOk Extension
  | 2 | 3 => KOk Leaf
  | _ => KErr Unknown "unknown hex prefix"
  end.
Proof.
  intros Hlen Hfb. unfold CheckKeyType. rewrite Hlen. simpl.
  destruct elements as [|[[|b rest]|l] tl]; simpl in Hfb; try discriminate.
  injection Hfb as ->. rewrite div16_high_nibble. reflexivity.
Qed.

(** C2. [CheckKeyType] classifies a decoded element list: more than two
    elements give [Branch]; exactly two elements give [Extension] when the
    high nibble of the first byte is 0 or 1 and [Leaf] when it is 2 or 3;
    fewer than two elements, or a high nibble above 3, give the [Unknown]
    type together with an error. *)
Theorem C2_classify (elements : list item) :
  ((2 < List.length elements)%nat -> CheckKeyType elements = KOk Branch) /\
  (forall b0, List.length elements = 2%nat -> first_byte elements = Some b0 ->
     ((high_nibble b0 = 0 \/ high_nibble b0 = 1) ->
        CheckKeyType elements = KOk Extension) /\
     ((high_nibble b0 = 2 \/ high_nibble b0 = 3) ->
        CheckKeyType elements = KOk Leaf) /\
     (3 < high_nibble b0 ->
        exists msg, CheckKeyType elements = KErr Unknown msg)) /\
  ((List.length elements < 2)%nat ->
     exists msg, CheckKeyType elements = KErr Unknown msg).
Proof.
  split; [apply CheckKeyType_long|]. split.
  - intros b0 Hlen Hfb.
    rewrite (CheckKeyType_two _ _ Hlen Hfb).
    repeat split.
    + intros [-> | ->]; reflexivity.
    + intros [-> | ->]; reflexivity.
    + intros H. exists "unknown hex prefix"%string.
      destruct (high_nibble b0) as [|p|p]; try lia.
      destruct p as [[|[]|]|[|[]|]|]; try lia; reflexivity.
  - intros H. eexists. apply CheckKeyType_short, H.
Qed.

Lemma C2_classify_witness :
  CheckKeyType [IBytes [50]; IBytes [0; 0]] = KOk Leaf /\
  CheckKeyType [IBytes [17; 35]; IBytes [1]] = KOk Extension /\
  (exists msg, CheckKeyType [IBytes [64]; IBytes [1]] = KErr Unknown msg) /\
  (exists msg, CheckKeyType [IBytes [50]] = KErr Unknown msg) /\
  CheckKeyType (repeat (IBytes []) 17) = KOk Branch.
Proof.
  split; [|split; [|split; [|split]]].
  - apply (proj1 (proj2 (C2_classify [IBytes [50]; IBytes [0; 0]])) 50);
      [reflexivity | reflexivity | right; reflexivity].
  - apply (proj1 (proj2 (C2_classify [IBytes [17; 35]; IBytes [1]])) 17);
      [reflexivity | reflexivity | right; reflexivity].
  - apply (proj1 (proj2 (C2_classify [IBytes [64]; IBytes [1]])) 64);
      [reflexivity | reflexivity | vm_compute; reflexivity].
  - apply (proj2 (proj2 (C2_classify [IBytes [50]]))). simpl. lia.
  - apply (proj1 (C2_classify (repeat (IBytes []) 17))). simpl. lia.
Defined.

(** ** The batch rotation of the publisher *)

Section PrepareTx.
Context {DB Tx : Type} `{Pub.SqlDB DB Tx}.

Lemma PrepareTxForBatch_below (p : Pub.publisher DB) (tx : Tx) (maxBatchSize : Z) :
  Pub.currBatchSize p < maxBatchSize ->
  Pub.PrepareTxForBatch p tx maxBatchSize = (Ok tx, p).
Proof.
  intros Hlt. unfold Pub.PrepareTxForBatch.
  destruct (maxBatchSize <=? Pub.currBatchSize p) eqn:E; [|reflexivity].
  apply Z.leb_le in E. lia.
Qed.

Lemma PrepareTxForBatch_rotate (p : Pub.publisher DB) (tx tx' : Tx)
      (maxBatchSize : Z) (d1 d2 : DB) :
  maxBatchSize <= Pub.currBatchSize p ->
  Pub.Commit tx (Pub.db p) = (None, d1) ->
  Pub.Beginx d1 = (Ok tx', d2) ->
  Pub.PrepareTxForBatch p tx maxBatchSize =
  (Ok tx', Pub.mkPublisher d2 0 (Pub.stateNodeCounter p)
                           (Pub.storageNodeCounter p) (Pub.codeNodeCounter p)).
Proof.
  intros Hle Hc Hb. unfold Pub.PrepareTxForBatch.
  apply Z.leb_le in Hle. rewrite Hle, Hc, Hb. reflexivity.
Qed.

(** When the commit or the opening of the new transaction fails, the error
    is returned and the batch counter keeps its value. *)
Lemma PrepareTxForBatch_commit_error (p : Pub.publisher DB) (tx : Tx)
      (maxBatchSize : Z) (e : string) (d1 : DB) :
  maxBatchSize <= Pub.currBatchSize p ->
  Pub.Commit tx (Pub.db p) = (Some e, d1) ->
  Pub.PrepareTxForBatch p tx maxBatchSize = (Err e, Pub.set_db p d1).
Proof.
  intros Hle Hc. unfold Pub.PrepareTxForBatch.
  apply Z.leb_le in Hle. rewrite Hle, Hc. reflexivity.
Qed.

(** C5. [PrepareTxForBatch]: when the batch counter has reached
    [maxBatchSize], the transaction is committed, a new one is opened on the
    database the commit left, the batch counter is reset to 0 and the new
    handle is returned; below the threshold the handle comes back as it was
    and the publisher, its batch counter included, is unchanged. *)
Theorem C5_prepare_tx_for_batch (p : Pub.publisher DB) (tx : Tx) (maxBatchSize : Z) :
  (maxBatchSize <= Pub.currBatchSize p ->
   forall d1 tx' d2,
     Pub.Commit tx (Pub.db p) = (None, d1) ->
     Pub.Beginx d1 = (Ok tx', d2) ->
     exists p',
       Pub.PrepareTxForBatch p tx maxBatchSize = (Ok tx', p') /\
       Pub.db p' = d2 /\ Pub.currBatchSize p' = 0) /\
  (Pub.currBatchSize p < maxBatchSize ->
   Pub.PrepareTxForBatch p tx maxBatchSize = (Ok tx, p)).
Proof.
  split.
  - intros Hle d1 tx' d2 Hc Hb.
    eexists. split; [apply (PrepareTxForBatch_rotate _ _ _ _ _ _ Hle Hc Hb)|].
    split; reflexivity.
  - apply PrepareTxForBatch_below.
Qed.

End PrepareTx.

Lemma C5_prepare_tx_for_batch_witness :
  (exists p',
     Pub.PrepareTxForBatch (Pub.mkPublisher (Pub.mkMemdb 1 [0%nat] []) 100 0 0 0)
                           0%nat 100 = (Ok 1%nat, p') /\
     Pub.db p' = Pub.mkMemdb 2 [1%nat] [0%nat] /\ Pub.currBatchSize p' = 0) /\
  Pub.PrepareTxForBatch (Pub.mkPublisher (Pub.mkMemdb 1 [0%nat] []) 98 0 0 0)
                        0%nat 100 =
  (Ok 0%nat, Pub.mkPublisher (Pub.mkMemdb 1 [0%nat] []) 98 0 0 0).
Proof.
  split.
  - apply (proj1 (C5_prepare_tx_for_batch
                    (Pub.mkPublisher (Pub.mkMemdb 1 [0%nat] []) 100 0 0 0)
                    0%nat 100)
                 ltac:(simpl; lia) (Pub.mkMemdb 1 [] [0%nat]));
      reflexivity.
  - apply (proj2 (C5_prepare_tx_for_batch
                    (Pub.mkPublisher (Pub.mkMemdb 1 [0%nat] []) 98 0 0 0)
                    0%nat 100)).
    simpl. lia.
Defined.

(** ** The path filter *)

Lemma HasPrefix_app (s prefix : bytes) :
  HasPrefix s prefix = true <-> exists rest, s = prefix ++ rest.
Proof.
  revert s. induction prefix as [|p prefix IH]; intros s; simpl.
  - split; [intros _; exists s; reflexivity | reflexivity].
  - destruct s as [|x s].
    + split; [discriminate | intros [rest Hr]; discriminate].
    + rewrite andb_true_iff, Z.eqb_eq, IH. split.
      * intros [-> [rest ->]]. exists rest. reflexivity.
      * intros [rest Hr]. injection Hr as -> ->. split; [reflexivity|].
        exists rest. reflexivity.
Qed.

Lemma validPath_exists (currentPath : bytes) (seekingPaths : list bytes) :
  validPath currentPath seekingPaths = true <->
  exists seekingPath,
    In seekingPath seekingPaths /\ HasPrefix seekingPath currentPath = true.
Proof.
  induction seekingPaths as [|w rest IH]; simpl.
  - split; [discriminate | intros [w [[] _]]].
  - destruct (HasPrefix w currentPath) eqn:E.
    + split; [intros _; exists w; auto | reflexivity].
    + rewrite IH. split.
      * intros [w' [Hin Hp]]. exists w'. auto.
      * intros [w' [[<- | Hin] Hp]]; [congruence | exists w'; auto].
Qed.

Lemma validPath_nil (currentPath : bytes) : validPath currentPath [] = false.
Proof. reflexivity. Qed.

(** C7. [validPath currentPath seekingPaths] is true exactly when one of the
    watched paths has [currentPath] as a prefix; and a walker whose watched
    set is empty ([watchingAddresses] is [len(paths) > 0]) ignores no path,
    although [validPath] is false on the empty list. *)
Theorem C7_valid_path (currentPath : bytes) (seekingPaths : list bytes) :
  (seekingPaths <> [] ->
   (validPath currentPath seekingPaths = true <->
    exists seekingPath rest,
      In seekingPath seekingPaths /\ seekingPath = currentPath ++ rest)) /\
  (forall s : Service,
     watchingAddresses s = (0 <? Z.of_nat (List.length seekingPaths)) ->
     seekingPaths = [] ->
     ignored s currentPath seekingPaths = false).
Proof.
  split.
  - intros _. rewrite validPath_exists. split.
    + intros [w [Hin Hp]]. apply HasPrefix_app in Hp. destruct Hp as [rest ->].
      exists (currentPath ++ rest), rest. auto.
    + intros [w [rest [Hin ->]]]. exists (currentPath ++ rest). split; [assumption|].
      apply HasPrefix_app. exists rest. reflexivity.
  - intros s Hw ->. unfold ignored. rewrite Hw. reflexivity.
Qed.

Lemma C7_valid_path_witness :
  (validPath [1; 2] [[3; 4; 16]; [1; 2; 5; 16]] = true <->
   exists seekingPath rest,
     In seekingPath [[3; 4; 16]; [1; 2; 5; 16]] /\ seekingPath = [1; 2] ++ rest) /\
  ignored (mkService false 100) [1; 2] [] = false.
Proof.
  split.
  - apply (proj1 (C7_valid_path [1; 2] [[3; 4; 16]; [1; 2; 5; 16]])). discriminate.
  - apply (proj2 (C7_valid_path [1; 2] []) (mkService false 100));
      reflexivity.
Defined.

(** ** The coordinator *)

Section CoordinatorFacts.
Variable lib : EthLib.
Variable world : World.
Variable tracker : Tracker.
Variable walk : iterator -> string -> list bytes -> bool -> outcome unit.

Lemma dispatch_nonempty (iters : list iterator) (headerID : string)
      (paths : list bytes) (watching : bool) :
  iters <> [] ->
  dispatch walk iters headerID paths watching =
  createSnapshotAsync walk iters headerID paths watching.
Proof.
  intros Hne. unfold dispatch. destruct iters as [|it rest]; [congruence|].
  reflexivity.
Qed.

Lemma dispatch_empty (headerID : string) (paths : list bytes) (watching : bool) :
  dispatch walk [] headerID paths watching =
  (Panic "index out of range [0] with length 0"%string, []).
Proof. reflexivity. Qed.

Lemma dispatch_carries (iters : list iterator) (headerID : string)
      (paths : list bytes) (watching : bool) :
  Forall (carries paths watching)
         (snd (dispatch walk iters headerID paths watching)).
Proof.
  unfold dispatch. destruct iters as [|it rest]; simpl.
  - constructor.
  - constructor; [split; reflexivity|].
    induction rest as [|it' rest IH]; simpl; constructor; auto.
    split; reflexivity.
Qed.

Lemma obtainIterators_carries (params : SnapshotParams) (tree : bytes)
      (restored : option (list iterator)) (paths : list bytes) (watching : bool) :
  Forall (carries paths watching)
         (snd (obtainIterators world tracker params tree restored)).
Proof.
  unfold obtainIterators. destruct restored as [iters|].
  - destruct (Workers params <? Z.of_nat (List.length iters)); constructor.
  - destruct (1 <? Workers params); repeat constructor.
Qed.

Lemma CreateSnapshot_carries (params : SnapshotParams) (file : File) :
  Forall (carries (watchedPaths lib world (WatchedAddresses params))
                  (0 <? Z.of_nat (List.length (watchedPaths lib world (WatchedAddresses params)))))
         (events (CreateSnapshot lib world tracker walk params file)).
Proof.
  unfold CreateSnapshot. fold (watchedPaths lib world (WatchedAddresses params)).
  set (paths := watchedPaths lib world (WatchedAddresses params)).
  set (watching := 0 <? Z.of_nat (List.length paths)).
  destruct (ReadHeader world _ _) as [header|]; [|constructor].
  destruct (PublishHeader world header); [constructor|].
  destruct (OpenTrie world (HRoot header)) as [tree|e|e];
    try (repeat constructor).
  destruct (restore tracker file tree) as [restored|e|e];
    try (repeat constructor).
  pose proof (obtainIterators_carries params tree restored paths watching) as Hevs.
  destruct (obtainIterators world tracker params tree restored) as [[iters|e|e] evs];
    simpl in Hevs; simpl events;
    try (repeat constructor; assumption).
  pose proof (dispatch_carries iters (HHash header) paths watching) as Hd.
  destruct (dispatch walk iters (HHash header) paths watching) as [r walked].
  destruct (haltAndDump tracker iters file) as [o file']. simpl in *.
  repeat constructor.
  apply Forall_app; split; [assumption|].
  apply Forall_app; split; [assumption|]. repeat constructor.
Qed.

(** C9. [CreateLatestSnapshot] passes its watched addresses on: at the
    height of the head it is [CreateSnapshot] with these addresses in the
    parameters, and every walker it starts receives the paths computed from
    them, with the filter switched on exactly when there is a watched
    address. *)
Theorem C9_latest_honors_watched (workers : Z) (watched : list bytes)
        (file : File) (height : Z) :
  ReadHeaderNumber world (ReadHeadHeaderHash world) = Some height ->
  CreateLatestSnapshot lib world tracker walk workers watched file =
  CreateSnapshot lib world tracker walk (mkParams watched height workers) file /\
  Forall (carries (watchedPaths lib world watched) (0 <? Z.of_nat (List.length watched)))
         (events (CreateLatestSnapshot lib world tracker walk workers watched file)).
Proof.
  intros Hh. unfold CreateLatestSnapshot. rewrite Hh. split; [reflexivity|].
  replace (List.length watched) with (List.length (watchedPaths lib world watched))
    by apply length_map.
  apply (CreateSnapshot_carries (mkParams watched height workers)).
Qed.

(** C8. When the recovery file gives more iterators than there are workers,
    [CreateSnapshot] returns the configuration error; no walker has been
    started, [haltAndDump] has not run, and the recovery file is as it was. *)
Theorem C8_restore_fault (params : SnapshotParams) (file : File)
        (header : Header) (tree : bytes) (iters : list iterator) :
  ReadHeader world (ReadCanonicalHash world (Height params)) (Height params)
  = Some header ->
  PublishHeader world header = None ->
  OpenTrie world (HRoot header) = Ok tree ->
  restore tracker file tree = Ok (Some iters) ->
  Workers params < Z.of_nat (List.length iters) ->
  let r := CreateSnapshot lib world tracker walk params file in
  result r = Err "number of recovered workers is greater than number configured" /\
  existsb isWalkerEvent (events r) = false /\
  existsb isHalt (events r) = false /\
  file_after r = file.
Proof.
  intros Hh Hp Ht Hr Hlt. unfold CreateSnapshot.
  rewrite Hh, Hp, Ht, Hr. unfold obtainIterators.
  apply Z.ltb_lt in Hlt. rewrite Hlt. simpl. repeat split; reflexivity.
Qed.

(** C10. When [restore] returns an empty list that is not nil,
    [CreateSnapshot] takes the branch that is not asynchronous and panics on
    [iters[0]] (no walker runs; the deferred [haltAndDump] does); and that
    branch is taken only for an empty list: every non-empty list goes to
    [createSnapshotAsync]. *)
Theorem C10_empty_restore_faults (params : SnapshotParams) (file : File)
        (header : Header) (tree : bytes) :
  ReadHeader world (ReadCanonicalHash world (Height params)) (Height params)
  = Some header ->
  PublishHeader world header = None ->
  OpenTrie world (HRoot header) = Ok tree ->
  restore tracker file tree = Ok (Some []) ->
  0 <= Workers params ->
  let r := CreateSnapshot lib world tracker walk params file in
  (result r = Panic "index out of range [0] with length 0" /\
   existsb isWalkerEvent (events r) = false /\
   existsb isHalt (events r) = true) /\
  (forall iters headerID paths watching,
     iters <> [] ->
     dispatch walk iters headerID paths watching =
     createSnapshotAsync walk iters headerID paths watching).
Proof.
  intros Hh Hp Ht Hr Hw. split.
  - unfold CreateSnapshot. rewrite Hh, Hp, Ht, Hr. unfold obtainIterators.
    simpl List.length. simpl Z.of_nat.
    destruct (Workers params <? 0) eqn:E; [apply Z.ltb_lt in E; lia|].
    rewrite dispatch_empty.
    destruct (haltAndDump tracker [] file) as [o file']. simpl.
    repeat split; reflexivity.
  - intros iters headerID paths watching Hne. apply dispatch_nonempty, Hne.
Qed.

(** With no recovery file and at most one worker there is exactly one
    iterator, and it is handed to [createSnapshotAsync]: a worker is spawned
    for it and [createSnapshot] is not called in the current thread. *)
Lemma single_iterator_is_spawned (params : SnapshotParams) (file : File)
      (header : Header) (tree : bytes) :
  ReadHeader world (ReadCanonicalHash world (Height params)) (Height params)
  = Some header ->
  PublishHeader world header = None ->
  OpenTrie world (HRoot header) = Ok tree ->
  restore tracker file tree = Ok None ->
  Workers params <= 1 ->
  let r := CreateSnapshot lib world tracker walk params file in
  filter isWalkerEvent (events r) =
  [EvSpawn (tracked tracker (FullIterator tree)) (HHash header)
           (watchedPaths lib world (WatchedAddresses params))
           (0 <? Z.of_nat (List.length (watchedPaths lib world (WatchedAddresses params))))].
Proof.
  intros Hh Hp Ht Hr Hw. unfold CreateSnapshot.
  rewrite Hh, Hp, Ht, Hr. unfold obtainIterators.
  destruct (1 <? Workers params) eqn:E; [apply Z.ltb_lt in E; lia|].
  simpl map at 2. unfold dispatch. simpl List.length.
  simpl Z.of_nat. simpl (0 <? 1). cbv iota.
  unfold createSnapshotAsync.
  destruct (haltAndDump tracker _ file) as [o file']. simpl. reflexivity.
Qed.

End CoordinatorFacts.

Lemma C9_latest_honors_watched_witness :
  CreateLatestSnapshot Fixture.lib Fixture.world Fixture.fileTracker
                       Fixture.walkOk 1 [[170]] None =
  CreateSnapshot Fixture.lib Fixture.world Fixture.fileTracker Fixture.walkOk
                 (mkParams [[170]] 5 1) None /\
  Forall (carries (watchedPaths Fixture.lib Fixture.world [[170]])
                  (0 <? Z.of_nat (List.length [[170]])))
         (events (CreateLatestSnapshot Fixture.lib Fixture.world
                    Fixture.fileTracker Fixture.walkOk 1 [[170]] None)).
Proof.
  apply (C9_latest_honors_watched Fixture.lib Fixture.world Fixture.fileTracker
           Fixture.walkOk 1 [[170]] None 5).
  reflexivity.
Defined.

Lemma C8_restore_fault_witness :
  let file := Some [([], [1]); ([8], [9]); ([12], [13])] in
  let r := CreateSnapshot Fixture.lib Fixture.world Fixture.fileTracker
                          Fixture.walkOk (mkParams [] 5 2) file in
  result r = Err "number of recovered workers is greater than number configured" /\
  existsb isWalkerEvent (events r) = false /\
  existsb isHalt (events r) = false /\
  file_after r = file.
Proof.
  apply (C8_restore_fault Fixture.lib Fixture.world Fixture.fileTracker
           Fixture.walkOk (mkParams [] 5 2)
           (Some [([], [1]); ([8], [9]); ([12], [13])])
           Fixture.header5 (Fixture.h 1)
           (map (fun r => TrackedIterator (RestoredIterator (fst r) (snd r)))
                [([], [1]); ([8], [9]); ([12], [13])]));
    try reflexivity.
Defined.

Lemma C10_empty_restore_faults_witness :
  let r := CreateSnapshot Fixture.lib Fixture.world Fixture.emptyTracker
                          Fixture.walkOk (mkParams [] 5 2) None in
  (result r = Panic "index out of range [0] with length 0" /\
   existsb isWalkerEvent (events r) = false /\
   existsb isHalt (events r) = true) /\
  (forall iters headerID paths watching,
     iters <> [] ->
     dispatch Fixture.walkOk iters headerID paths watching =
     createSnapshotAsync Fixture.walkOk iters headerID paths watching).
Proof.
  apply (C10_empty_restore_faults Fixture.lib Fixture.world Fixture.emptyTracker
           Fixture.walkOk (mkParams [] 5 2) None Fixture.header5 (Fixture.h 1));
    try reflexivity.
  simpl. lia.
Defined.

(** C3. With one worker and no recovery file there is exactly one iterator.
    The specification runs the single walker in the current thread, and the
    else branch [createSnapshot(iters[0], ...)] is written for that; but the
    test [len(iters) > 0] sends the single iterator to
    [createSnapshotAsync]: the run spawns one worker and makes no direct
    call of [createSnapshot]. *)
Theorem C3_single_iterator_spawns_worker :
  let r := CreateSnapshot Fixture.lib Fixture.world Fixture.fileTracker
                          Fixture.walkOk (mkParams [] 5 1) None in
  result r = Ok tt /\
  filter isWalkerEvent (events r) =
  [EvSpawn (TrackedIterator (FullIterator (Fixture.h 1))) "0xheader5" [] false] /\
  existsb isWalk (events r) = false.
Proof.
  vm_compute. repeat split; reflexivity.
Qed.

(** ** The walker: how the monad composes *)

Section WalkerFacts.
Context {PS : Type} `{Publisher PS}.
Variable lib : EthLib.
Variable chain : Chain.

Lemma bind_ok {A B} (m : M PS A) (k : A -> M PS B) (w w' : wstate PS) (b : B) :
  bind m k w = (Ok b, w') ->
  exists a w1, m w = (Ok a, w1) /\ k a w1 = (Ok b, w').
Proof.
  unfold bind. destruct (m w) as [[a|e|e] w1]; intros E; try discriminate.
  exists a, w1. split; [reflexivity | exact E].
Qed.

Lemma lift_ok {A} (o : outcome A) (w w' : wstate PS) (a : A) :
  lift o w = (Ok a, w') -> o = Ok a /\ w' = w.
Proof. unfold lift. intros E. injection E as -> ->. split; reflexivity. Qed.

Lemma call_published {A} (f : PS -> outcome A * PS) (w : wstate PS) :
  published (snd (call f w)) = published w.
Proof. unfold call. destruct (f (pubst w)) as [r p]. reflexivity. Qed.

Lemma publish_ok (f : PS -> option string * PS) (r : record) (w w' : wstate PS) (u : unit) :
  publish f r w = (Ok u, w') -> published w' = published w ++ [r].
Proof.
  unfold publish. destruct (f (pubst w)) as [[e|] p]; intros E; try discriminate.
  injection E as _ <-. reflexivity.
Qed.

Lemma publish_published (f : PS -> option string * PS) (r : record) (w : wstate PS) :
  published (snd (publish f r w)) = published w ++ [r] \/
  (published (snd (publish f r w)) = published w /\
   exists e, fst (publish f r w) = Err e).
Proof.
  unfold publish. destruct (f (pubst w)) as [[e|] p]; simpl.
  - right. split; [reflexivity | exists e; reflexivity].
  - left. reflexivity.
Qed.

(** What [resolveNode] returns when it returns a node. *)
Lemma resolveNode_some (path : bytes) (it : trie) (res : nodeResult) :
  resolveNode lib chain path it = Ok (Some res) ->
  resolvable it = true /\
  exists n ty,
    TrieDBNode chain (thash it) = Ok n /\
    DecodeElements lib n = Ok (elements res) /\
    CheckKeyType (elements res) = KOk ty /\
    node res = mkNode ty path nullHash n.
Proof.
  unfold resolveNode, resolvable.
  destruct (tleaf it); [discriminate|].
  destruct (IsNullHash (thash it)); [discriminate|].
  destruct (TrieDBNode chain (thash it)) as [n|e|e] eqn:En; try discriminate.
  destruct (DecodeElements lib n) as [els|e|e] eqn:Ed; try discriminate.
  destruct (CheckKeyType els) as [ty|ty e|e] eqn:Ek; try discriminate.
  intros E. injection E as <-. simpl. split; [reflexivity|].
  exists n, ty. repeat split; auto.
Qed.

Lemma resolveNode_none (path : bytes) (it : trie) :
  resolveNode lib chain path it = Ok None -> resolvable it = false.
Proof.
  unfold resolveNode, resolvable.
  destruct (tleaf it); [reflexivity|].
  destruct (IsNullHash (thash it)); [reflexivity|].
  destruct (TrieDBNode chain (thash it)) as [n|e|e]; try discriminate.
  destruct (DecodeElements lib n) as [els|e|e]; try discriminate.
  destruct (CheckKeyType els) as [ty|ty e|e]; discriminate.
Qed.

(** [CheckKeyType] succeeds only with the three node types. *)
Lemma CheckKeyType_ok (els : list item) (ty : nodeType) :
  CheckKeyType els = KOk ty -> ty = Branch \/ ty = Extension \/ ty = Leaf.
Proof.
  unfold CheckKeyType.
  destruct (2 <? Z.of_nat (List.length els)); [intros E; injection E; auto|].
  destruct (Z.of_nat (List.length els) <? 2); [discriminate|].
  destruct els as [|[[|b0 r]|l] tl]; try discriminate.
  destruct (div16 b0) as [|p|p]; try discriminate.
  - intros E; injection E; auto.
  - destruct p as [[|[]|]|[|[]|]|]; try discriminate; intros E; injection E; auto.
Qed.

(** The key [leafKeyOf] computes is the key of the data model. *)
Lemma leafKeyOf_ok (res : nodeResult) (key : bytes) :
  leafKeyOf lib res = Ok key ->
  exists partial rest,
    elements res = IBytes partial :: rest /\
    key = leaf_key lib (Path (node res)) partial.
Proof.
  unfold leafKeyOf, asBytes. intros E.
  destruct (elements res) as [|[partial|l] rest] eqn:Ee; simpl in E;
    try discriminate.
  destruct (HexToCompact lib (Path (node res) ++ CompactToHex lib partial))
    as [|c leafKey] eqn:Eh; simpl in E; try discriminate.
  injection E as <-. exists partial, rest. split; [reflexivity|].
  unfold leaf_key. rewrite Eh. reflexivity.
Qed.

End WalkerFacts.

(** ** Every published leaf has the key of the data model *)

Lemma trie_induction (P : trie -> Prop) :
  (forall hash leaf kids,
     Forall (fun fk => P (snd fk)) kids -> P (TrieNode hash leaf kids)) ->
  forall t, P t.
Proof.
  intros Hstep. fix IH 1. intros [hash leaf kids]. apply Hstep.
  induction kids as [|[frag k] rest IHrest]; constructor.
  - apply IH.
  - exact IHrest.
Qed.

Section Keeps.
Context {PS : Type} `{Publisher PS}.
Variable lib : EthLib.
Variable chain : Chain.
Variable Inv : record -> Prop.

Lemma keeps_ret {A} (a : A) : keeps (PS := PS) Inv (ret a).
Proof. intros w Hw. exact Hw. Qed.

Lemma keeps_fail {A} (msg : string) : keeps (PS := PS) (A := A) Inv (fail msg).
Proof. intros w Hw. exact Hw. Qed.

Lemma keeps_lift {A} (o : outcome A) : keeps (PS := PS) Inv (lift o).
Proof. intros w Hw. exact Hw. Qed.

Lemma keeps_call {A} (f : PS -> outcome A * PS) : keeps Inv (call f).
Proof. intros w Hw. rewrite call_published. exact Hw. Qed.

Lemma keeps_publish (f : PS -> option string * PS) (r : record) :
  Inv r -> keeps Inv (publish f r).
Proof.
  intros Hr w Hw. unfold publish. destruct (f (pubst w)) as [[e|] p]; simpl.
  - exact Hw.
  - apply Forall_app. split; [exact Hw | constructor; [exact Hr | constructor]].
Qed.

Lemma keeps_bind {A B} (m : M PS A) (k : A -> M PS B) :
  keeps Inv m -> (forall a, keeps Inv (k a)) -> keeps Inv (bind m k).
Proof.
  intros Hm Hk w Hw. unfold bind. specialize (Hm w Hw).
  destruct (m w) as [[a|e|e] w1]; simpl in *; try exact Hm.
  apply Hk, Hm.
Qed.

(** After a pure step the continuation knows what the step returned. *)
Lemma keeps_bind_lift {A B} (o : outcome A) (k : A -> M PS B) :
  (forall a, o = Ok a -> keeps Inv (k a)) -> keeps Inv (bind (lift o) k).
Proof.
  intros Hk w Hw. unfold bind, lift. destruct o as [a|e|e]; simpl; try exact Hw.
  apply (Hk a eq_refl), Hw.
Qed.

Lemma keeps_wrapErr {A} (msg : string) (m : M PS A) :
  keeps Inv m -> keeps Inv (wrapErr msg m).
Proof.
  intros Hm w Hw. unfold wrapErr. specialize (Hm w Hw).
  destruct (m w) as [[a|e|e] w1]; exact Hm.
Qed.

Lemma keeps_defer {A} (m : M PS A) (d : PS -> PS) :
  keeps Inv m -> keeps Inv (defer m d).
Proof.
  intros Hm w Hw. unfold defer. specialize (Hm w Hw).
  destruct (m w) as [r w1]. exact Hm.
Qed.

End Keeps.

Section KeyedWalk.
Context {PS : Type} `{Publisher PS}.
Variable lib : EthLib.
Variable chain : Chain.

Lemma keyed_not_leaf (n : Node) : NodeType n <> Leaf -> leafKeyed lib n.
Proof. intros Hn Hl. contradiction. Qed.

Lemma keyed_storageStep (s : Service) (headerID : string) (statePath : bytes)
      (tx : Tx) (pos : bytes * trie) :
  keeps (recordKeyed lib) (storageStep lib chain s headerID statePath tx pos).
Proof.
  destruct pos as [path it]. unfold storageStep.
  apply keeps_bind_lift. intros [res|] Hres; [|apply keeps_ret].
  apply resolveNode_some in Hres.
  destruct Hres as [_ (n & ty & Hn & Hd & Hk & Hnode)].
  apply keeps_bind; [apply keeps_call|]. intros tx'.
  apply keeps_bind_lift. intros nodeData Hnd.
  assert (nodeData = n) as -> by congruence.
  cbn [node elements]. rewrite Hnode. cbn [setValue NodeType Path Key Value].
  destruct ty; try apply keeps_fail.
  - apply keeps_bind; [|intros; apply keeps_ret].
    apply keeps_publish. apply keyed_not_leaf. discriminate.
  - apply keeps_bind; [|intros; apply keeps_ret].
    apply keeps_publish. apply keyed_not_leaf. discriminate.
  - apply keeps_bind_lift. intros key Hkey.
    apply leafKeyOf_ok in Hkey. destruct Hkey as (partial & rest & He & ->).
    cbn [node elements Path] in *.
    apply keeps_bind; [|intros; apply keeps_ret].
    apply keeps_publish. intros _. exists partial, rest.
    simpl. split; [congruence | reflexivity].
Qed.

Lemma keyed_storageLoop (s : Service) (headerID : string) (statePath : bytes)
      (positions : list (bytes * trie)) (tx : Tx) :
  keeps (recordKeyed lib) (storageLoop lib chain s headerID statePath tx positions).
Proof.
  revert tx. induction positions as [|pos rest IH]; intros tx; simpl.
  - apply keeps_ret.
  - apply keeps_bind; [apply keyed_storageStep | intros tx'; apply IH].
Qed.

Lemma keyed_storageSnapshot (s : Service) (sr : bytes) (headerID : string)
      (statePath : bytes) (tx : Tx) :
  keeps (recordKeyed lib) (storageSnapshot lib chain s sr headerID statePath tx).
Proof.
  unfold storageSnapshot.
  destruct (bytes_eqb sr (emptyContractRoot lib)); [apply keeps_ret|].
  apply keeps_bind_lift. intros [t|] _; [apply keyed_storageLoop | apply keeps_ret].
Qed.

Lemma keyed_createNodeSnapshot (s : Service) (tx : Tx) (path : bytes) (it : trie)
      (headerID : string) (seekingPaths : list bytes) :
  keeps (recordKeyed lib)
        (createNodeSnapshot lib chain s tx path it headerID seekingPaths).
Proof.
  unfold createNodeSnapshot.
  apply keeps_bind_lift. intros [res|] Hres; [|apply keeps_ret].
  apply resolveNode_some in Hres.
  destruct Hres as [_ (n & ty & Hn & Hd & Hk & Hnode)].
  apply keeps_bind; [apply keeps_call|]. intros tx'.
  rewrite Hnode. cbn [NodeType].
  destruct ty; try apply keeps_fail.
  - apply keeps_publish. apply keyed_not_leaf. discriminate.
  - apply keeps_publish. apply keyed_not_leaf. discriminate.
  - apply keeps_bind_lift. intros e1 He1.
    apply keeps_bind; [apply keeps_wrapErr, keeps_lift|]. intros account.
    apply keeps_bind_lift. intros key Hkey.
    apply leafKeyOf_ok in Hkey. destruct Hkey as (partial & rest & He & ->).
    rewrite Hnode. cbn [Path].
    apply keeps_bind.
    { apply keeps_publish. intros _. exists partial, rest.
      simpl. split; [congruence | reflexivity]. }
    intros _. apply keeps_bind.
    { unfold codeSnapshot.
      destruct (negb (bytes_eqb (CodeHash account) (emptyCodeHash lib)));
        [|apply keeps_ret].
      destruct (Z.of_nat (List.length _) =? 0); [apply keeps_fail|].
      apply keeps_publish. exact I. }
    intros _. apply keeps_bind; [|intros; apply keeps_ret].
    apply keeps_wrapErr, keyed_storageSnapshot.
Qed.

End KeyedWalk.

(** ** The recursion of the walker *)

Section WalkLevels.
Context {PS : Type} `{Publisher PS}.
Variable lib : EthLib.
Variable chain : Chain.

(** [createSubTrieSnapshot] runs the loop of one level over the children of
    the root of the sub-trie, unless the hash is the zero hash. *)
Lemma createSubTrieSnapshot_eq (s : Service) (tx : Tx) (prefixPath : bytes)
      (root : trie) (headerID : string) (seekingPaths : list bytes) :
  createSubTrieSnapshot lib chain s tx prefixPath root headerID seekingPaths =
  if IsNullHash (thash root) then ret tt
  else levelLoop lib chain s tx prefixPath (tkids root) headerID seekingPaths.
Proof.
  destruct root as [hash leaf kids]. simpl.
  destruct (IsNullHash hash); [reflexivity|].
  induction kids as [|[frag k] rest IH]; [reflexivity|].
  simpl. rewrite IH. reflexivity.
Qed.

Lemma keyed_levels (s : Service) (tx : Tx) (headerID : string)
      (seekingPaths : list bytes) (root : trie) :
  forall prefixPath,
    keeps (recordKeyed lib)
          (createSubTrieSnapshot lib chain s tx prefixPath root headerID seekingPaths).
Proof.
  induction root as [hash leaf kids IH] using trie_induction.
  intros prefixPath. rewrite createSubTrieSnapshot_eq. simpl.
  destruct (IsNullHash hash); [apply keeps_ret|].
  induction kids as [|[frag k] rest IHrest]; simpl; [apply keeps_ret|].
  inversion IH as [|? ? Hk Hrest]; subst.
  destruct (ignored s (prefixPath ++ frag) seekingPaths); [apply IHrest, Hrest|].
  apply keeps_bind; [apply keyed_createNodeSnapshot|]. intros _.
  apply keeps_bind; [apply Hk|]. intros _. apply IHrest, Hrest.
Qed.

Lemma keyed_levelLoop (s : Service) (tx : Tx) (headerID : string)
      (seekingPaths : list bytes) (prefixPath : bytes) (kids : list (bytes * trie)) :
  keeps (recordKeyed lib)
        (levelLoop lib chain s tx prefixPath kids headerID seekingPaths).
Proof.
  induction kids as [|[frag k] rest IH]; simpl; [apply keeps_ret|].
  destruct (ignored s (prefixPath ++ frag) seekingPaths); [apply IH|].
  apply keeps_bind; [apply keyed_createNodeSnapshot|]. intros _.
  apply keeps_bind; [apply keyed_levels|]. intros _. apply IH.
Qed.

Lemma keyed_createSnapshot (s : Service) (root : trie) (headerID : string)
      (seekingPaths : list bytes) :
  keeps (recordKeyed lib) (createSnapshot lib chain s root headerID seekingPaths).
Proof.
  unfold createSnapshot.
  apply keeps_bind; [apply keeps_call|]. intros tx.
  apply keeps_defer, keeps_bind; [apply keyed_createNodeSnapshot|].
  intros _. apply keyed_levelLoop.
Qed.

End WalkLevels.

Lemma BytesToHash_length (b : bytes) : List.length (Geth.BytesToHash b) = 32%nat.
Proof.
  unfold Geth.BytesToHash. rewrite length_app, repeat_length, !length_skipn. lia.
Qed.

(** The walk of the small world: the leaf at [1] with partial path [2] gets
    the key [0x12], the leaf at [3] with partial path [4] the key [0x34]. *)
Example leaf_keys_of_the_small_world :
  map (fun r => match r with
                | StateRecord n _ _ => (Path n, skipn 31 (Key n))
                | StorageRecord n _ _ _ => (Path n, skipn 31 (Key n))
                | CodeRecord _ _ _ => ([], [])
                end)
      (published (snd (createSnapshot Fixture.lib Fixture.chain
                         (Fixture.service false) Fixture.stateTrie "hid" []
                         Fixture.w0)))
  = [([], [0]); ([1], [18]); ([3], [52]); ([], []); ([], [0])].
Proof. vm_compute. reflexivity. Qed.

(** ** The storage walk publishes storage records only *)

Section Adds.
Context {PS : Type} `{Publisher PS}.
Variable lib : EthLib.
Variable chain : Chain.
Variable Q : record -> Prop.

Lemma adds_nothing {A} (m : M PS A) :
  (forall w, published (snd (m w)) = published w) -> adds Q m.
Proof.
  intros Hm w. exists []. rewrite app_nil_r. split; [apply Hm | constructor].
Qed.

Lemma adds_ret {A} (a : A) : adds (PS := PS) Q (ret a).
Proof. apply adds_nothing. reflexivity. Qed.

Lemma adds_fail {A} (msg : string) : adds (PS := PS) (A := A) Q (fail msg).
Proof. apply adds_nothing. reflexivity. Qed.

Lemma adds_lift {A} (o : outcome A) : adds (PS := PS) Q (lift o).
Proof. apply adds_nothing. reflexivity. Qed.

Lemma adds_call {A} (f : PS -> outcome A * PS) : adds Q (call f).
Proof. apply adds_nothing. apply call_published. Qed.

Lemma adds_publish (f : PS -> option string * PS) (r : record) :
  Q r -> adds Q (publish f r).
Proof.
  intros Hr w. unfold publish. destruct (f (pubst w)) as [[e|] p]; simpl.
  - exists []. rewrite app_nil_r. split; [reflexivity | constructor].
  - exists [r]. split; [reflexivity | constructor; [exact Hr | constructor]].
Qed.

Lemma adds_bind {A B} (m : M PS A) (k : A -> M PS B) :
  adds Q m -> (forall a, adds Q (k a)) -> adds Q (bind m k).
Proof.
  intros Hm Hk w. unfold bind. destruct (Hm w) as (n1 & E1 & Q1).
  destruct (m w) as [[a|e|e] w1]; simpl in *;
    try (exists n1; split; assumption).
  destruct (Hk a w1) as (n2 & E2 & Q2).
  exists (n1 ++ n2). rewrite E2, E1, app_assoc. split; [reflexivity|].
  apply Forall_app. split; assumption.
Qed.

Lemma adds_wrapErr {A} (msg : string) (m : M PS A) :
  adds Q m -> adds Q (wrapErr msg m).
Proof.
  intros Hm w. unfold wrapErr. destruct (Hm w) as (n1 & E1 & Q1).
  exists n1. destruct (m w) as [[a|e|e] w1]; split; assumption.
Qed.

End Adds.

Section StorageWalk.
Context {PS : Type} `{Publisher PS}.
Variable lib : EthLib.
Variable chain : Chain.

Lemma storageStep_adds (s : Service) (headerID : string) (statePath : bytes)
      (tx : Tx) (pos : bytes * trie) :
  adds isStorageRecord (storageStep lib chain s headerID statePath tx pos).
Proof.
  destruct pos as [path it]. unfold storageStep.
  apply adds_bind; [apply adds_lift|]. intros [res|]; [|apply adds_ret].
  apply adds_bind; [apply adds_call|]. intros tx'.
  apply adds_bind; [apply adds_lift|]. intros nodeData. cbn [node elements].
  destruct (NodeType (setValue (node res) nodeData)); try apply adds_fail.
  - apply adds_bind; [apply adds_publish; exact I | intros; apply adds_ret].
  - apply adds_bind; [apply adds_publish; exact I | intros; apply adds_ret].
  - apply adds_bind; [apply adds_lift|]. intros key.
    apply adds_bind; [apply adds_publish; exact I | intros; apply adds_ret].
Qed.

Lemma storageLoop_adds (s : Service) (headerID : string) (statePath : bytes)
      (positions : list (bytes * trie)) (tx : Tx) :
  adds isStorageRecord (storageLoop lib chain s headerID statePath tx positions).
Proof.
  revert tx. induction positions as [|pos rest IH]; intros tx; simpl.
  - apply adds_ret.
  - apply adds_bind; [apply storageStep_adds | intros tx'; apply IH].
Qed.

Lemma storageSnapshot_adds (s : Service) (sr : bytes) (headerID : string)
      (statePath : bytes) (tx : Tx) :
  adds isStorageRecord (storageSnapshot lib chain s sr headerID statePath tx).
Proof.
  unfold storageSnapshot.
  destruct (bytes_eqb sr (emptyContractRoot lib)); [apply adds_ret|].
  apply adds_bind; [apply adds_lift|].
  intros [t|]; [apply storageLoop_adds | apply adds_ret].
Qed.

End StorageWalk.


Lemma statePaths_app (a b : list record) :
  statePaths (a ++ b) = statePaths a ++ statePaths b.
Proof.
  induction a as [|[n hid tx|n hid sp tx|ch cb tx] a IH]; simpl;
    rewrite ?IH; reflexivity.
Qed.


Lemma statePaths_storage (new : list record) :
  Forall isStorageRecord new -> statePaths new = [].
Proof.
  induction 1 as [|[n hid tx|n hid sp tx|ch cb tx] new Hr _ IH]; simpl;
    try contradiction; auto.
Qed.

(** ** The code of an account leaf *)

Section CodeOfLeaf.
Context {PS : Type} `{Publisher PS}.
Variable lib : EthLib.
Variable chain : Chain.





End CodeOfLeaf.

Section CodeOfLeafClaim.
Context {PS : Type} `{Publisher PS}.
Variable lib : EthLib.
Variable chain : Chain.



End CodeOfLeafClaim.


(** ** Where a successful walk publishes state nodes *)

Section Emits.
Context {PS : Type} `{Publisher PS}.
Variable lib : EthLib.
Variable chain : Chain.

Lemma emits_ret {A} (a : A) : emits (PS := PS) [] (ret a).
Proof.
  intros w a' w' E. injection E as _ <-. rewrite app_nil_r. reflexivity.
Qed.

Lemma emits_fail {A} (paths : list bytes) (msg : string) :
  emits (PS := PS) (A := A) paths (fail msg).
Proof. intros w a w' E. discriminate. Qed.

Lemma emits_call {A} (f : PS -> outcome A * PS) : emits [] (call f).
Proof.
  intros w a w' E. pose proof (call_published f w) as Hc. rewrite E in Hc.
  simpl in Hc. rewrite Hc, app_nil_r. reflexivity.
Qed.

Lemma emits_bind {A B} (p1 p2 : list bytes) (m : M PS A) (k : A -> M PS B) :
  emits p1 m -> (forall a, emits p2 (k a)) -> emits (p1 ++ p2) (bind m k).
Proof.
  intros Hm Hk w b w' E. apply bind_ok in E. destruct E as (a & w1 & E1 & E2).
  rewrite (Hk a w1 b w' E2), (Hm w a w1 E1), app_assoc. reflexivity.
Qed.

Lemma emits_bind_lift {A B} (paths : list bytes) (o : outcome A) (k : A -> M PS B) :
  (forall a, o = Ok a -> emits paths (k a)) -> emits paths (bind (lift o) k).
Proof.
  intros Hk w b w' E. apply bind_ok in E. destruct E as (a & w1 & E1 & E2).
  apply lift_ok in E1. destruct E1 as [-> ->]. exact (Hk a eq_refl w b w' E2).
Qed.

Lemma emits_wrapErr {A} (paths : list bytes) (msg : string) (m : M PS A) :
  emits paths m -> emits paths (wrapErr msg m).
Proof.
  intros Hm w a w' E. unfold wrapErr in E.
  destruct (m w) as [[a1|e|e] w1] eqn:Em; try discriminate.
  injection E as <- <-. exact (Hm w a1 w1 Em).
Qed.

Lemma emits_defer {A} (paths : list bytes) (m : M PS A) (d : PS -> PS) :
  emits paths m -> emits paths (defer m d).
Proof.
  intros Hm w a w' E. unfold defer in E.
  destruct (m w) as [r w1] eqn:Em. injection E as -> <-. exact (Hm w a w1 Em).
Qed.

Lemma emits_publish_state (f : PS -> option string * PS) (n : Node)
      (headerID : string) (tx : Tx) (path : bytes) :
  Path n = path -> emits [path] (publish f (StateRecord n headerID tx)).
Proof.
  intros <- w a w' E. apply publish_ok in E. rewrite E, statePaths_app.
  reflexivity.
Qed.

Lemma emits_publish_code (f : PS -> option string * PS) (codeHash codeBytes : bytes)
      (tx : Tx) :
  emits [] (publish f (CodeRecord codeHash codeBytes tx)).
Proof.
  intros w a w' E. apply publish_ok in E. rewrite E, statePaths_app. reflexivity.
Qed.

Lemma emits_adds_storage {A} (m : M PS A) : adds isStorageRecord m -> emits [] m.
Proof.
  intros Hm w a w' E. destruct (Hm w) as (new & En & Hnew). rewrite E in En.
  simpl in En. rewrite En, statePaths_app, (statePaths_storage new Hnew).
  reflexivity.
Qed.

Lemma emits_codeSnapshot (account : StateAccount) (tx : Tx) :
  emits [] (codeSnapshot lib chain account tx).
Proof.
  unfold codeSnapshot.
  destruct (negb (bytes_eqb (CodeHash account) (emptyCodeHash lib)));
    [|apply emits_ret].
  destruct (Z.of_nat (List.length _) =? 0);
    [apply emits_fail | apply emits_publish_code].
Qed.

Lemma emits_createNodeSnapshot (s : Service) (tx : Tx) (path : bytes) (it : trie)
      (headerID : string) (seekingPaths : list bytes) :
  emits (nodePaths path it)
        (createNodeSnapshot lib chain s tx path it headerID seekingPaths).
Proof.
  unfold createNodeSnapshot, nodePaths.
  apply emits_bind_lift. intros [res|] Hres.
  - apply resolveNode_some in Hres.
    destruct Hres as [-> (n & ty & Hn & Hd & Hk & Hnode)].
    apply (emits_bind [] [path]); [apply emits_call|]. intros tx'.
    rewrite Hnode. cbn [NodeType].
    destruct ty; try apply emits_fail.
    + apply emits_publish_state. reflexivity.
    + apply emits_publish_state. reflexivity.
    + apply emits_bind_lift. intros e1 _.
      apply (emits_bind [] [path]);
        [apply emits_wrapErr; intros w a w' E; apply lift_ok in E;
         destruct E as [_ ->]; rewrite app_nil_r; reflexivity|].
      intros account. apply emits_bind_lift. intros key _.
      apply (emits_bind [path] []);
        [apply emits_publish_state; reflexivity|].
      intros _. apply (emits_bind [] []); [apply emits_codeSnapshot|].
      intros _. apply (emits_bind [] []); [|intros; apply emits_ret].
      apply emits_wrapErr, emits_adds_storage, storageSnapshot_adds.
  - apply resolveNode_none in Hres. rewrite Hres. apply emits_ret.
Qed.

End Emits.

Section EmitsLevels.
Context {PS : Type} `{Publisher PS}.
Variable lib : EthLib.
Variable chain : Chain.

Lemma subPaths_eq (s : Service) (seekingPaths : list bytes) (prefixPath : bytes)
      (root : trie) :
  subPaths s seekingPaths prefixPath root =
  if IsNullHash (thash root) then []
  else levelPaths s seekingPaths prefixPath (tkids root).
Proof.
  destruct root as [hash leaf kids]. simpl.
  destruct (IsNullHash hash); [reflexivity|].
  induction kids as [|[frag k] rest IH]; [reflexivity|].
  simpl. rewrite IH. reflexivity.
Qed.

Lemma emits_levels (s : Service) (tx : Tx) (headerID : string)
      (seekingPaths : list bytes) (root : trie) :
  forall prefixPath,
    emits (subPaths s seekingPaths prefixPath root)
          (createSubTrieSnapshot lib chain s tx prefixPath root headerID seekingPaths).
Proof.
  induction root as [hash leaf kids IH] using trie_induction.
  intros prefixPath. rewrite createSubTrieSnapshot_eq, subPaths_eq. simpl.
  destruct (IsNullHash hash); [apply emits_ret|].
  induction kids as [|[frag k] rest IHrest]; simpl; [apply emits_ret|].
  inversion IH as [|? ? Hk Hrest]; subst.
  destruct (ignored s (prefixPath ++ frag) seekingPaths); [apply IHrest, Hrest|].
  apply emits_bind; [apply emits_createNodeSnapshot|]. intros _.
  apply emits_bind; [apply Hk|]. intros _. apply IHrest, Hrest.
Qed.

Lemma emits_levelLoop (s : Service) (tx : Tx) (headerID : string)
      (seekingPaths : list bytes) (prefixPath : bytes) (kids : list (bytes * trie)) :
  emits (levelPaths s seekingPaths prefixPath kids)
        (levelLoop lib chain s tx prefixPath kids headerID seekingPaths).
Proof.
  induction kids as [|[frag k] rest IH]; simpl; [apply emits_ret|].
  destruct (ignored s (prefixPath ++ frag) seekingPaths); [apply IH|].
  apply emits_bind; [apply emits_createNodeSnapshot|]. intros _.
  apply emits_bind; [apply emits_levels|]. intros _. apply IH.
Qed.

Lemma emits_createSnapshot (s : Service) (root : trie) (headerID : string)
      (seekingPaths : list bytes) :
  emits (nodePaths [] root ++ levelPaths s seekingPaths [] (tkids root))
        (createSnapshot lib chain s root headerID seekingPaths).
Proof.
  unfold createSnapshot.
  apply (emits_bind [] _); [apply emits_call|]. intros tx.
  apply emits_defer, emits_bind; [apply emits_createNodeSnapshot|].
  intros _. apply emits_levelLoop.
Qed.

End EmitsLevels.

(** ** Which paths the loops go through *)

Lemma isPrefixOf_refl (p : bytes) : isPrefixOf p p.
Proof. exists []. symmetry. apply app_nil_r. Qed.

Lemma isPrefixOf_trans (a b c : bytes) :
  isPrefixOf a b -> isPrefixOf b c -> isPrefixOf a c.
Proof.
  intros [r1 ->] [r2 ->]. exists (r1 ++ r2). symmetry. apply app_assoc.
Qed.

Lemma isPrefixOf_app (a b : bytes) : isPrefixOf a (a ++ b).
Proof. exists b. reflexivity. Qed.

Lemma validPath_prefix (p q : bytes) (seekingPaths : list bytes) :
  isPrefixOf p q -> validPath q seekingPaths = true ->
  validPath p seekingPaths = true.
Proof.
  intros Hpq Hq. apply validPath_exists in Hq. destruct Hq as (wp & Hin & Hq).
  apply validPath_exists. exists wp. split; [assumption|].
  apply HasPrefix_app. apply HasPrefix_app in Hq.
  exact (isPrefixOf_trans _ _ _ Hpq Hq).
Qed.

(** A path that is not ignored has no ignored prefix. *)
Lemma ignored_prefix (s : Service) (p q : bytes) (seekingPaths : list bytes) :
  isPrefixOf p q -> ignored s q seekingPaths = false ->
  ignored s p seekingPaths = false.
Proof.
  unfold ignored. intros Hpq Hq. destruct (watchingAddresses s); [|reflexivity].
  simpl in *. apply negb_false_iff in Hq. apply negb_false_iff.
  exact (validPath_prefix _ _ _ Hpq Hq).
Qed.

Lemma below_prefix (prefix : bytes) (t : trie) (P : bytes) (n : trie) :
  below prefix t P n -> isPrefixOf prefix P.
Proof.
  induction 1 as [prefix t frag k Hin | prefix t frag k P n Hin Hnz Hb IH].
  - apply isPrefixOf_app.
  - exact (isPrefixOf_trans _ _ _ (isPrefixOf_app prefix frag) IH).
Qed.

Lemma In_nodePaths (P path : bytes) (it : trie) :
  In P (nodePaths path it) <-> P = path /\ resolvable it = true.
Proof.
  unfold nodePaths. destruct (resolvable it); simpl.
  - split; [intros [<- | []]; auto | intros [-> _]; auto].
  - split; [intros [] | intros [_ E]; discriminate].
Qed.

Lemma In_levelPaths (s : Service) (seekingPaths : list bytes) (prefixPath : bytes)
      (kids : list (bytes * trie)) (P : bytes) :
  In P (levelPaths s seekingPaths prefixPath kids) <->
  exists frag k,
    In (frag, k) kids /\
    ignored s (prefixPath ++ frag) seekingPaths = false /\
    (In P (nodePaths (prefixPath ++ frag) k) \/
     In P (subPaths s seekingPaths (prefixPath ++ frag) k)).
Proof.
  induction kids as [|[frag k] rest IH]; simpl.
  - split; [intros [] | intros (frag & k & [] & _)].
  - destruct (ignored s (prefixPath ++ frag) seekingPaths) eqn:Eig.
    + rewrite IH. split.
      * intros (f & k' & Hin & Hrest). exists f, k'. auto.
      * intros (f & k' & [E | Hin] & Hig & Hrest).
        -- injection E as <- <-. congruence.
        -- exists f, k'. auto.
    + rewrite !in_app_iff, IH. split.
      * intros [Hn | [Hs | (f & k' & Hin & Hrest)]].
        -- exists frag, k. auto.
        -- exists frag, k. auto.
        -- exists f, k'. auto.
      * intros (f & k' & [E | Hin] & Hig & Hrest).
        -- injection E as <- <-. destruct Hrest; auto.
        -- right. right. exists f, k'. auto.
Qed.

Lemma below_In_levelPaths (s : Service) (seekingPaths : list bytes)
      (prefixPath : bytes) (t : trie) (P : bytes) (n : trie) :
  below prefixPath t P n -> resolvable n = true ->
  ignored s P seekingPaths = false ->
  In P (levelPaths s seekingPaths prefixPath (tkids t)).
Proof.
  induction 1 as [prefix t frag k Hk | prefix t frag k P n Hk Hnz Hb IH];
    intros Hr Hig; apply In_levelPaths; exists frag, k.
  - split; [exact Hk|]. split; [exact Hig|]. left. apply In_nodePaths. auto.
  - split; [exact Hk|]. split.
    + exact (ignored_prefix s _ _ _ (below_prefix _ _ _ _ Hb) Hig).
    + right. rewrite subPaths_eq, Hnz. exact (IH Hr Hig).
Qed.

(** The loop below a position reaches exactly the state nodes below it that
    are not ignored. *)
Lemma In_levelPaths_below (s : Service) (seekingPaths : list bytes) (t : trie) :
  forall prefixPath P,
    In P (levelPaths s seekingPaths prefixPath (tkids t)) <->
    exists n, below prefixPath t P n /\ resolvable n = true /\
              ignored s P seekingPaths = false.
Proof.
  induction t as [hash leaf kids IH] using trie_induction.
  intros prefixPath P. split.
  - simpl tkids. intros Hin. apply In_levelPaths in Hin.
    destruct Hin as (frag & k & Hk & Hig & [Hn | Hs]).
    + apply In_nodePaths in Hn. destruct Hn as [-> Hr].
      exists k. split; [apply below_kid; exact Hk | auto].
    + rewrite subPaths_eq in Hs.
      destruct (IsNullHash (thash k)) eqn:Enull; [destruct Hs|].
      rewrite Forall_forall in IH. apply (IH (frag, k) Hk) in Hs.
      destruct Hs as (n & Hb & Hr & Hign).
      exists n. split; [|auto].
      exact (below_deeper prefixPath (TrieNode hash leaf kids) frag k P n
                          Hk Enull Hb).
  - intros (n & Hb & Hr & Hig). exact (below_In_levelPaths s _ _ _ _ _ Hb Hr Hig).
Qed.

(** ** The watched-address restriction *)

Lemma ignored_false_iff (s : Service) (seekingPaths : list bytes) (P : bytes) :
  watchingAddresses s = (0 <? Z.of_nat (List.length seekingPaths)) ->
  ignored s P seekingPaths = false <->
  (seekingPaths = [] \/ exists wp, In wp seekingPaths /\ isPrefixOf P wp).
Proof.
  intros Hw. unfold ignored. rewrite Hw.
  destruct seekingPaths as [|w0 rest].
  - simpl. split; auto.
  - replace (0 <? Z.of_nat (List.length (w0 :: rest))) with true
      by (symmetry; apply Z.ltb_lt; simpl List.length; lia).
    rewrite andb_true_l, negb_false_iff, validPath_exists. split.
    + intros (wp & Hin & Hp). right. exists wp. split; [assumption|].
      apply HasPrefix_app, Hp.
    + intros [E | (wp & Hin & Hp)]; [discriminate|].
      exists wp. split; [assumption|]. apply HasPrefix_app, Hp.
Qed.

Section Restriction.
Context {PS : Type} `{Publisher PS}.
Variable lib : EthLib.
Variable chain : Chain.

(** The paths a successful walk goes through are the paths of the state
    nodes that can be reached and resolved and that some watched path
    extends; all of them with an empty watched set. *)
Lemma In_walk_paths (s : Service) (root : trie) (seekingPaths : list bytes)
      (P : bytes) :
  watchingAddresses s = (0 <? Z.of_nat (List.length seekingPaths)) ->
  In P (nodePaths [] root ++ levelPaths s seekingPaths [] (tkids root)) <->
  stateNodeAt root P /\
  (seekingPaths = [] \/ exists wp, In wp seekingPaths /\ isPrefixOf P wp).
Proof.
  intros Hw. rewrite in_app_iff, In_nodePaths, In_levelPaths_below.
  rewrite <- (ignored_false_iff s seekingPaths P Hw). split.
  - intros [[-> Hr] | (n & Hb & Hr & Hig)].
    + split; [exists root; split; [left; auto | exact Hr]|].
      apply (ignored_false_iff s seekingPaths [] Hw).
      destruct seekingPaths as [|w0 rest]; [left; reflexivity|].
      right. exists w0. split; [left; reflexivity | exists w0; reflexivity].
    + split; [exists n; split; [right; exact Hb | exact Hr] | exact Hig].
  - intros [(n & [[-> ->] | Hb] & Hr) Hig].
    + left. auto.
    + right. exists n. auto.
Qed.

End Restriction.

(** * Further properties of the publisher *)

Section PublisherFacts.
Import PubRecords.
Context {DB Tx Hdr HdrNode : Type} `{Pub.SqlDB DB Tx} `{SqlStore DB Tx Hdr HdrNode}.
Variable nullHash : bytes.

(** X1. After a successful [PrepareTxForBatch] with a positive threshold the
    batch counter is below the threshold: either it already was, or the
    batch was committed and the counter reset. *)
Theorem prepare_bounds_batch (p p' : Pub.publisher DB) (tx tx' : Tx)
        (maxBatchSize : Z) :
  0 < maxBatchSize ->
  Pub.PrepareTxForBatch p tx maxBatchSize = (Ok tx', p') ->
  Pub.currBatchSize p' < maxBatchSize /\
  Pub.stateNodeCounter p' = Pub.stateNodeCounter p /\
  Pub.storageNodeCounter p' = Pub.storageNodeCounter p /\
  Pub.codeNodeCounter p' = Pub.codeNodeCounter p.
Proof.
  intros Hpos. unfold Pub.PrepareTxForBatch.
  destruct (maxBatchSize <=? Pub.currBatchSize p) eqn:E.
  - destruct (Pub.Commit tx (Pub.db p)) as [[e|] d1]; [discriminate|].
    destruct (Pub.Beginx d1) as [[t|e|e] d2]; try discriminate.
    intros Heq. injection Heq as _ <-. simpl. repeat split. exact Hpos.
  - intros Heq. injection Heq as _ <-. apply Z.leb_gt in E. auto.
Qed.

(** X2. When [PrepareTxForBatch] fails, the batch was full and the batch
    counter keeps its value, also when the old transaction was already
    committed and only the opening of the new one failed: the next call
    commits again. *)
Theorem prepare_failure_keeps_counter (p p' : Pub.publisher DB) (tx : Tx)
        (maxBatchSize : Z) (r : outcome Tx) :
  Pub.PrepareTxForBatch p tx maxBatchSize = (r, p') ->
  (forall tx', r <> Ok tx') ->
  maxBatchSize <= Pub.currBatchSize p /\
  Pub.currBatchSize p' = Pub.currBatchSize p /\
  (fst (Pub.Commit tx (Pub.db p)) = None ->
   Pub.db p' = snd (Pub.Beginx (snd (Pub.Commit tx (Pub.db p))))).
Proof.
  unfold Pub.PrepareTxForBatch.
  destruct (maxBatchSize <=? Pub.currBatchSize p) eqn:E.
  - apply Z.leb_le in E.
    destruct (Pub.Commit tx (Pub.db p)) as [[e|] d1]; simpl.
    + intros Heq _. injection Heq as _ <-. simpl. repeat split; auto.
      discriminate.
    + destruct (Pub.Beginx d1) as [[t|e|e] d2]; intros Heq Hr;
        injection Heq as <- <-; simpl;
        [exfalso; exact (Hr t eq_refl) | auto ..].
  - intros Heq Hr. injection Heq as <- _. exfalso. exact (Hr tx eq_refl).
Qed.

(** X3. A publishing method that returns a nil error has counted the
    record: a state or storage node adds one to its node counter and two to
    the batch counter, a code blob one to each (all modulo 2^64), and the
    other counters are untouched. *)
Theorem publish_success_is_counted (p : Pub.publisher DB) (node : Node)
        (id : Z) (codeHash codeBytes : bytes) (tx : Tx) :
  (forall stateID p',
     PublishStateNode nullHash p node id tx = ((stateID, None), p') ->
     Pub.stateNodeCounter p' = add64 (Pub.stateNodeCounter p) 1 /\
     Pub.currBatchSize p' = add64 (Pub.currBatchSize p) 2 /\
     Pub.storageNodeCounter p' = Pub.storageNodeCounter p /\
     Pub.codeNodeCounter p' = Pub.codeNodeCounter p) /\
  (forall p',
     PublishStorageNode nullHash p node id tx = (None, p') ->
     Pub.storageNodeCounter p' = add64 (Pub.storageNodeCounter p) 1 /\
     Pub.currBatchSize p' = add64 (Pub.currBatchSize p) 2 /\
     Pub.stateNodeCounter p' = Pub.stateNodeCounter p /\
     Pub.codeNodeCounter p' = Pub.codeNodeCounter p) /\
  (forall p',
     PublishCode p codeHash codeBytes tx = (None, p') ->
     Pub.codeNodeCounter p' = add64 (Pub.codeNodeCounter p) 1 /\
     Pub.currBatchSize p' = add64 (Pub.currBatchSize p) 1 /\
     Pub.stateNodeCounter p' = Pub.stateNodeCounter p /\
     Pub.storageNodeCounter p' = Pub.storageNodeCounter p).
Proof.
  split; [|split].
  - intros stateID p'. unfold PublishStateNode.
    destruct (PublishRaw tx MEthStateTrie (Value node) (Pub.db p))
      as [[[cid mh]|e] d1]; [|discriminate].
    destruct (InsertStateCID tx _ d1) as [r d2].
    intros Heq. injection Heq as _ <-. simpl. auto.
  - intros p'. unfold PublishStorageNode.
    destruct (PublishRaw tx MEthStorageTrie (Value node) (Pub.db p))
      as [[[cid mh]|e] d1]; [|discriminate].
    destruct (ExecStorageCID tx _ d1) as [[e|] d2]; [discriminate|].
    intros Heq. injection Heq as <-. simpl. auto.
  - intros p'. unfold PublishCode.
    destruct (MultihashKeyFromKeccak256 codeHash) as [mh|e]; [|discriminate].
    destruct (PublishDirect tx mh codeBytes (Pub.db p)) as [[e|] d1];
      [discriminate|].
    intros Heq. injection Heq as <-. simpl. auto.
Qed.

(** X4. The two node methods differ on a failed insert.  [PublishStateNode]
    increments its counters after the insert whatever it returned, so a
    state node whose row was refused is counted and its error returned;
    [PublishStorageNode] returns before the increments, and a refused
    storage row is not counted.  Neither counts when [PublishRaw] fails. *)
Theorem failed_insert_accounting (p : Pub.publisher DB) (node : Node) (id : Z)
        (tx : Tx) :
  (forall cid mh d1 stateID e d2,
     PublishRaw tx MEthStateTrie (Value node) (Pub.db p) = (inl (cid, mh), d1) ->
     InsertStateCID tx (mkStateRow id (leafKeyString nullHash node) cid (Path node)
                                   (NodeType node) false mh) d1
     = ((stateID, Some e), d2) ->
     exists p',
       PublishStateNode nullHash p node id tx = ((stateID, Some e), p') /\
       Pub.stateNodeCounter p' = add64 (Pub.stateNodeCounter p) 1 /\
       Pub.currBatchSize p' = add64 (Pub.currBatchSize p) 2) /\
  (forall e p',
     PublishStorageNode nullHash p node id tx = (Some e, p') ->
     Pub.storageNodeCounter p' = Pub.storageNodeCounter p /\
     Pub.currBatchSize p' = Pub.currBatchSize p) /\
  (forall e d1 c,
     PublishRaw tx c (Value node) (Pub.db p) = (inr e, d1) ->
     PublishStateNode nullHash p node id tx = ((0, Some e), Pub.set_db p d1) \/
     PublishStorageNode nullHash p node id tx = (Some e, Pub.set_db p d1)).
Proof.
  split; [|split].
  - intros cid mh d1 stateID e d2 Hraw Hins. unfold PublishStateNode.
    rewrite Hraw, Hins. eexists. split; [reflexivity|]. simpl. auto.
  - intros e p'. unfold PublishStorageNode.
    destruct (PublishRaw tx MEthStorageTrie (Value node) (Pub.db p))
      as [[[cid mh]|e1] d1].
    + destruct (ExecStorageCID tx _ d1) as [[e2|] d2]; [|discriminate].
      intros Heq. injection Heq as _ <-. simpl. auto.
    + intros Heq. injection Heq as _ <-. simpl. auto.
  - intros e d1 [|] Hraw.
    + left. unfold PublishStateNode. rewrite Hraw. reflexivity.
    + right. unfold PublishStorageNode. rewrite Hraw. reflexivity.
Qed.

End PublisherFacts.

Section PublisherBatches.
Import PubRecords.
Context {DB Tx Hdr HdrNode : Type} `{Pub.SqlDB DB Tx} `{SqlStore DB Tx Hdr HdrNode}.
Variable nullHash : bytes.

(** X5. Between two rotations a batch takes at most the threshold plus two
    writes: after a successful [PrepareTxForBatch], publishing one state node
    and then one code blob (what [createNodeSnapshot] does before the
    storage walk asks for the next rotation) leaves the batch counter at most
    [maxBatchSize + 2]. *)
Theorem batch_after_node_and_code (p p1 : Pub.publisher DB) (tx tx' : Tx)
        (maxBatchSize : Z) (node : Node) (id : Z) (codeHash codeBytes : bytes) :
  0 < maxBatchSize -> maxBatchSize + 2 < 2 ^ 64 ->
  0 <= Pub.currBatchSize p ->
  Pub.PrepareTxForBatch p tx maxBatchSize = (Ok tx', p1) ->
  let p2 := snd (PublishStateNode nullHash p1 node id tx') in
  let p3 := snd (PublishCode p2 codeHash codeBytes tx') in
  0 <= Pub.currBatchSize p3 <= maxBatchSize + 2.
Proof.
  intros Hpos Hmax Hp Hprep.
  assert (0 <= Pub.currBatchSize p1 < maxBatchSize) as H1.
  { revert Hprep. unfold Pub.PrepareTxForBatch.
    destruct (maxBatchSize <=? Pub.currBatchSize p) eqn:E.
    - destruct (Pub.Commit tx (Pub.db p)) as [[e|] d1]; [discriminate|].
      destruct (Pub.Beginx d1) as [[t|e|e] d2]; try discriminate.
      intros Heq. injection Heq as _ <-. simpl. lia.
    - intros Heq. injection Heq as _ <-. apply Z.leb_gt in E. lia. }
  intros p2 p3.
  assert (0 <= Pub.currBatchSize p2 <= maxBatchSize + 1) as H2.
  { subst p2. unfold PublishStateNode.
    destruct (PublishRaw tx' MEthStateTrie (Value node) (Pub.db p1))
      as [[[cid mh]|e] d1]; simpl; [|lia].
    destruct (InsertStateCID tx' _ d1) as [r d2]. simpl. unfold add64.
    rewrite Z.mod_small by lia. lia. }
  subst p3. unfold PublishCode.
  destruct (MultihashKeyFromKeccak256 codeHash) as [mh|e]; simpl; [|lia].
  destruct (PublishDirect tx' mh codeBytes (Pub.db p2)) as [[e|] d1]; simpl;
    [lia|].
  unfold add64. rewrite Z.mod_small by lia. lia.
Qed.

(** X6. [PublishHeader] ends its transaction itself: when [PublishIPLD] or
    the insert fails the transaction is rolled back and the error returned;
    otherwise it is committed and the id returned, also when that [Commit]
    fails, whose error is dropped.  In every case the publisher that comes
    back is the one that went in with only its database changed: the batch
    counter and the three node counters are never touched. *)
Theorem PublishHeader_transaction (p : Pub.publisher DB) (header : Hdr)
        (headerNode : HdrNode) (tx : Tx) (d0 : DB) :
  NewEthHeader header = inl headerNode ->
  Pub.Beginx (Pub.db p) = (Ok tx, d0) ->
  let ipld := PublishIPLD tx headerNode d0 in
  let ins := InsertHeaderCID tx header headerNode (snd ipld) in
  let out := PublishHeader p header in
  (Pub.currBatchSize (snd out) = Pub.currBatchSize p /\
   Pub.stateNodeCounter (snd out) = Pub.stateNodeCounter p /\
   Pub.storageNodeCounter (snd out) = Pub.storageNodeCounter p /\
   Pub.codeNodeCounter (snd out) = Pub.codeNodeCounter p) /\
  (forall e, fst ipld = Some e ->
             out = (Err e, Pub.set_db p (Rollback tx (snd ipld)))) /\
  (forall e, fst ipld = None -> snd (fst ins) = Some e ->
             out = (Err e, Pub.set_db p (Rollback tx (snd ins)))) /\
  (fst ipld = None -> snd (fst ins) = None ->
   out = (Ok (fst (fst ins)), Pub.set_db p (snd (Pub.Commit tx (snd ins))))).
Proof.
  intros Hn Hb. cbv zeta. unfold PublishHeader. rewrite Hn, Hb.
  destruct (PublishIPLD tx headerNode d0) as [[e0|] d1]; simpl.
  - split; [repeat split|].
    split; [intros e E; injection E as <-; reflexivity|].
    split; [intros e E; discriminate | intros E; discriminate].
  - destruct (InsertHeaderCID tx header headerNode d1) as [[hid [e1|]] d2]; simpl.
    + split; [repeat split|]. split; [intros e E; discriminate|].
      split; [intros e _ E; injection E as <-; reflexivity|].
      intros _ E; discriminate.
    + split; [repeat split|]. split; [intros e E; discriminate|].
      split; [intros e _ E; discriminate | intros _ _; reflexivity].
Qed.

End PublisherBatches.

Lemma prepare_bounds_batch_witness :
  Pub.currBatchSize (Pub.mkPublisher (Pub.mkMemdb 2 [1%nat] [0%nat]) 0 7 3 1) < 100 /\
  7 = Pub.stateNodeCounter Fixture.fullP /\ 3 = Pub.storageNodeCounter Fixture.fullP /\
  1 = Pub.codeNodeCounter Fixture.fullP.
Proof.
  apply (prepare_bounds_batch Fixture.fullP
           (Pub.mkPublisher (Pub.mkMemdb 2 [1%nat] [0%nat]) 0 7 3 1) 0%nat 1%nat 100);
    [lia | reflexivity].
Defined.

Lemma prepare_failure_keeps_counter_witness :
  100 <= Pub.currBatchSize Fixture.staleP /\
  Pub.currBatchSize Fixture.staleP = Pub.currBatchSize Fixture.staleP /\
  (fst (Pub.Commit 0%nat (Pub.db Fixture.staleP)) = None ->
   Pub.db Fixture.staleP = snd (Pub.Beginx (Tx := nat) (snd (Pub.Commit 0%nat (Pub.db Fixture.staleP))))).
Proof.
  apply (prepare_failure_keeps_counter Fixture.staleP Fixture.staleP 0%nat 100
           (Err "sql: transaction has already been committed or rolled back"));
    [reflexivity | discriminate].
Defined.

Lemma publish_success_is_counted_witness :
  Pub.currBatchSize (snd (PubRecords.PublishStateNode Snapshot.nullHash Fixture.freshP Fixture.leafNode 5 0%nat)) = 2 /\
  Pub.currBatchSize (snd (PubRecords.PublishStorageNode Snapshot.nullHash Fixture.freshP Fixture.leafNode 5 0%nat)) = 2 /\
  Pub.currBatchSize (snd (PubRecords.PublishCode Fixture.freshP (repeat 0 32) [96; 0] 0%nat)) = 1.
Proof.
  pose proof (publish_success_is_counted Snapshot.nullHash Fixture.freshP Fixture.leafNode 5
                (repeat 0 32) [96; 0] 0%nat) as (Hst & Hsg & Hcode).
  split; [|split].
  - exact (proj1 (proj2 (Hst 6 _ eq_refl))).
  - exact (proj1 (proj2 (Hsg _ eq_refl))).
  - exact (proj1 (proj2 (Hcode _ eq_refl))).
Defined.

Lemma failed_insert_accounting_witness :
  (exists p',
     PubRecords.PublishStateNode Snapshot.nullHash Fixture.freshP Fixture.leafNode (-1) 0%nat
     = ((0, Some "violates foreign key constraint"%string), p') /\
     Pub.stateNodeCounter p' = PubRecords.add64 7 1 /\ Pub.currBatchSize p' = PubRecords.add64 0 2) /\
  Pub.storageNodeCounter (snd (PubRecords.PublishStorageNode Snapshot.nullHash Fixture.freshP Fixture.leafNode (-1) 0%nat))
  = 3.
Proof.
  pose proof (failed_insert_accounting Snapshot.nullHash Fixture.freshP Fixture.leafNode (-1) 0%nat)
    as (Hst & Hsg & _).
  split.
  - exact (Hst "cid"%string "mh"%string (Pub.db Fixture.freshP) 0
               "violates foreign key constraint"%string (Pub.db Fixture.freshP)
               eq_refl eq_refl).
  - exact (proj1 (Hsg "violates foreign key constraint"%string _ eq_refl)).
Defined.

Lemma batch_after_node_and_code_witness :
  0 <= Pub.currBatchSize
         (snd (PubRecords.PublishCode
                 (snd (PubRecords.PublishStateNode Snapshot.nullHash
                         (Pub.mkPublisher (Pub.mkMemdb 2 [1%nat] [0%nat]) 0 7 3 1)
                         Fixture.leafNode 5 1%nat))
                 (repeat 0 32) [96; 0] 1%nat))
  <= 100 + 2.
Proof.
  apply (batch_after_node_and_code Snapshot.nullHash Fixture.fullP
           (Pub.mkPublisher (Pub.mkMemdb 2 [1%nat] [0%nat]) 0 7 3 1)
           0%nat 1%nat 100 Fixture.leafNode 5 (repeat 0 32) [96; 0]);
    [lia | lia | simpl; lia | reflexivity].
Defined.

(** With a database whose [Commit] fails, [PubRecords.PublishHeader] still returns the
    id and a nil error. *)
Lemma PublishHeader_transaction_witness :
  PubRecords.PublishHeader (H := MemStore.failingCommit) Fixture.freshP 12
  = (Ok 12, Pub.set_db Fixture.freshP (Pub.mkMemdb 2 [0%nat] [])) /\
  Pub.Commit (SqlDB := MemStore.failingCommit) 1%nat (Pub.mkMemdb 2 [1%nat; 0%nat] [])
  = (Some "commit failed"%string, Pub.mkMemdb 2 [0%nat] []).
Proof.
  split; [|reflexivity].
  pose proof (PublishHeader_transaction (H := MemStore.failingCommit)
                Fixture.freshP 12 12 1%nat (Pub.mkMemdb 2 [1%nat; 0%nat] [])
                eq_refl eq_refl) as (_ & _ & _ & Hok).
  exact (Hok eq_refl eq_refl).
Defined.


(** * Further properties of the coordinator *)

Lemma existsb_filter_nil {A} (f : A -> bool) (l : list A) :
  filter f l = [] -> existsb f l = false.
Proof.
  induction l as [|a l IH]; simpl; [reflexivity|].
  destruct (f a); [discriminate | exact IH].
Qed.

Section CoordinatorMore.
Variable lib : EthLib.
Variable world : World.
Variable tracker : Tracker.
Variable walk : iterator -> string -> list bytes -> bool -> outcome unit.

Lemma spawn_events (iters : list iterator) (headerID : string)
      (paths : list bytes) (watching : bool) :
  existsb isHalt (map (fun it => EvSpawn it headerID paths watching) iters) = false /\
  filter isWalkerEvent (map (fun it => EvSpawn it headerID paths watching) iters) =
  map (fun it => EvSpawn it headerID paths watching) iters.
Proof.
  induction iters as [|a l [IH1 IH2]]; simpl.
  - split; reflexivity.
  - rewrite IH1, IH2. split; reflexivity.
Qed.

Lemma dispatch_events_walker (iters : list iterator) (headerID : string)
      (paths : list bytes) (watching : bool) :
  existsb isHalt (snd (dispatch walk iters headerID paths watching)) = false /\
  filter isWalkerEvent (snd (dispatch walk iters headerID paths watching)) =
  map (fun it => EvSpawn it headerID paths watching) iters.
Proof.
  destruct iters as [|it rest]; [split; reflexivity|].
  rewrite dispatch_nonempty by discriminate.
  unfold createSnapshotAsync. cbn [snd]. apply spawn_events.
Qed.



End CoordinatorMore.

Section CoordinatorRuns.
Variable lib : EthLib.
Variable world : World.
Variable tracker : Tracker.
Variable walk : iterator -> string -> list bytes -> bool -> outcome unit.

Lemma firstError_ok (rs : list (outcome unit)) :
  firstError rs = Ok tt <-> allOk rs.
Proof.
  unfold allOk. induction rs as [|[[]|e|e] rs IH]; simpl.
  - split; [constructor | reflexivity].
  - rewrite IH. split; [intros Hrs; constructor; auto | intros Hrs; inversion Hrs; auto].
  - split; [discriminate | intros Hrs; inversion Hrs; discriminate].
  - split; [discriminate | intros Hrs; inversion Hrs; discriminate].
Qed.

Lemma firstError_in (rs : list (outcome unit)) :
  firstError rs <> Ok tt -> In (firstError rs) rs.
Proof.
  induction rs as [|[[]|e|e] rs IH]; simpl; intros Hne.
  - congruence.
  - right. apply IH, Hne.
  - left. reflexivity.
  - left. reflexivity.
Qed.

Lemma dispatch_no_partition (iters : list iterator) (headerID : string)
      (paths : list bytes) (watching : bool) :
  filter isPartition (snd (dispatch walk iters headerID paths watching)) = [].
Proof.
  destruct iters as [|it rest]; [reflexivity|].
  rewrite dispatch_nonempty by discriminate.
  unfold createSnapshotAsync. cbn [snd].
  induction (it :: rest) as [|a l IH]; simpl; [reflexivity | exact IH].
Qed.

(** The run up to the point where the iterators are obtained. *)
Lemma CreateSnapshot_dispatched (params : SnapshotParams) (file : File)
      (header : Header) (tree : bytes) (restored : option (list iterator))
      (iters : list iterator) (evs : list event) :
  ReadHeader world (ReadCanonicalHash world (Height params)) (Height params)
  = Some header ->
  PublishHeader world header = None ->
  OpenTrie world (HRoot header) = Ok tree ->
  restore tracker file tree = Ok restored ->
  obtainIterators world tracker params tree restored = (Ok iters, evs) ->
  let paths := watchedPaths lib world (WatchedAddresses params) in
  let watching := 0 <? Z.of_nat (List.length paths) in
  let d := dispatch walk iters (HHash header) paths watching in
  CreateSnapshot lib world tracker walk params file =
  mkRun (fst d)
        ([EvPublishHeader header; EvCaptureSignal; EvRestore] ++ evs ++ snd d
         ++ [EvHaltAndDump])
        (snd (haltAndDump tracker iters file)).
Proof.
  intros Hh Hp Ht Hr Ho. cbv zeta. unfold CreateSnapshot.
  rewrite Hh, Hp, Ht, Hr, Ho. unfold watchedPaths.
  destruct (dispatch walk iters (HHash header) _ _) as [res walked].
  destruct (haltAndDump tracker iters file) as [o file']. reflexivity.
Qed.

(** X8. Without a recovery file and with more than one worker, the partitioner
    is called with the number of workers, and every iterator it returns is
    wrapped by the tracker and given to a worker of its own, in order; with
    at most one worker the partitioner is not called. *)
Theorem fresh_run_partitions (params : SnapshotParams) (file : File)
        (header : Header) (tree : bytes) :
  ReadHeader world (ReadCanonicalHash world (Height params)) (Height params)
  = Some header ->
  PublishHeader world header = None ->
  OpenTrie world (HRoot header) = Ok tree ->
  restore tracker file tree = Ok None ->
  let r := CreateSnapshot lib world tracker walk params file in
  let paths := watchedPaths lib world (WatchedAddresses params) in
  (1 < Workers params ->
   filter isPartition (events r) = [EvPartition (Workers params)] /\
   filter isWalkerEvent (events r) =
   map (fun it => EvSpawn (tracked tracker it) (HHash header) paths
                          (0 <? Z.of_nat (List.length paths)))
       (SubtrieIterators world tree (Workers params))) /\
  (Workers params <= 1 -> filter isPartition (events r) = []).
Proof.
  intros Hh Hp Ht Hr. cbv zeta. split.
  - intros Hw.
    assert (obtainIterators world tracker params tree None =
            (Ok (map (tracked tracker) (SubtrieIterators world tree (Workers params))),
             [EvPartition (Workers params)])) as Ho.
    { unfold obtainIterators. apply Z.ltb_lt in Hw. rewrite Hw. reflexivity. }
    rewrite (CreateSnapshot_dispatched params file header tree None _ _
               Hh Hp Ht Hr Ho).
    cbn [events]. rewrite !filter_app, dispatch_no_partition.
    destruct (dispatch_events_walker walk
                (map (tracked tracker) (SubtrieIterators world tree (Workers params)))
                (HHash header) (watchedPaths lib world (WatchedAddresses params))
                (0 <? Z.of_nat (List.length
                   (watchedPaths lib world (WatchedAddresses params)))))
      as [_ Hsp].
    rewrite Hsp, map_map. simpl. rewrite app_nil_r. split; reflexivity.
  - intros Hw.
    assert (obtainIterators world tracker params tree None =
            (Ok (map (tracked tracker) [FullIterator tree]), [])) as Ho.
    { unfold obtainIterators.
      destruct (1 <? Workers params) eqn:E; [apply Z.ltb_lt in E; lia|].
      reflexivity. }
    rewrite (CreateSnapshot_dispatched params file header tree None _ _
               Hh Hp Ht Hr Ho).
    reflexivity.
Qed.

(** X9. Restored iterators that do not outnumber the workers are resumed as they
    are: each one goes to a worker of its own, in the order of the recovery
    file, without being wrapped again, and the partitioner is not called. *)
Theorem restored_iterators_resume (params : SnapshotParams) (file : File)
        (header : Header) (tree : bytes) (iters : list iterator) :
  ReadHeader world (ReadCanonicalHash world (Height params)) (Height params)
  = Some header ->
  PublishHeader world header = None ->
  OpenTrie world (HRoot header) = Ok tree ->
  restore tracker file tree = Ok (Some iters) ->
  Z.of_nat (List.length iters) <= Workers params ->
  let r := CreateSnapshot lib world tracker walk params file in
  let paths := watchedPaths lib world (WatchedAddresses params) in
  filter isWalkerEvent (events r) =
  map (fun it => EvSpawn it (HHash header) paths (0 <? Z.of_nat (List.length paths)))
      iters /\
  filter isPartition (events r) = [].
Proof.
  intros Hh Hp Ht Hr Hw. cbv zeta.
  assert (obtainIterators world tracker params tree (Some iters) = (Ok iters, []))
    as Ho.
  { unfold obtainIterators.
    destruct (Workers params <? Z.of_nat (List.length iters)) eqn:E;
      [apply Z.ltb_lt in E; lia | reflexivity]. }
  rewrite (CreateSnapshot_dispatched params file header tree (Some iters) _ _
             Hh Hp Ht Hr Ho).
  cbn [events]. rewrite !filter_app, dispatch_no_partition.
  destruct (dispatch_events_walker walk iters (HHash header)
              (watchedPaths lib world (WatchedAddresses params))
              (0 <? Z.of_nat (List.length
                 (watchedPaths lib world (WatchedAddresses params)))))
    as [_ Hsp].
  rewrite Hsp. simpl. rewrite app_nil_r. split; reflexivity.
Qed.

(** X10. A run that has obtained at least one iterator returns nil exactly when
    every walker does; and what it returns otherwise is what one of the
    walkers returned. *)
Theorem run_result_is_the_walkers (params : SnapshotParams) (file : File)
        (header : Header) (tree : bytes) (restored : option (list iterator))
        (iters : list iterator) (evs : list event) :
  ReadHeader world (ReadCanonicalHash world (Height params)) (Height params)
  = Some header ->
  PublishHeader world header = None ->
  OpenTrie world (HRoot header) = Ok tree ->
  restore tracker file tree = Ok restored ->
  obtainIterators world tracker params tree restored = (Ok iters, evs) ->
  iters <> [] ->
  let r := CreateSnapshot lib world tracker walk params file in
  let paths := watchedPaths lib world (WatchedAddresses params) in
  let results :=
    map (fun it => walk it (HHash header) paths (0 <? Z.of_nat (List.length paths)))
        iters in
  (result r = Ok tt <-> allOk results) /\
  (result r <> Ok tt -> In (result r) results).
Proof.
  intros Hh Hp Ht Hr Ho Hne. cbv zeta.
  rewrite (CreateSnapshot_dispatched params file header tree restored iters evs
             Hh Hp Ht Hr Ho).
  cbn [result]. rewrite (dispatch_nonempty walk iters _ _ _ Hne).
  unfold createSnapshotAsync. cbn [fst].
  split; [apply firstError_ok | apply firstError_in].
Qed.

End CoordinatorRuns.


Lemma fresh_run_partitions_witness :
  let r := CreateSnapshot Fixture.lib Fixture.world Fixture.fileTracker
                          Fixture.walkOk (mkParams [] 5 3) None in
  filter isPartition (events r) = [EvPartition 3] /\
  filter isWalkerEvent (events r) =
  map (fun it => EvSpawn (TrackedIterator it) "0xheader5" [] false)
      [SubtrieIterator (Fixture.h 1) 0 3; SubtrieIterator (Fixture.h 1) 1 3;
       SubtrieIterator (Fixture.h 1) 2 3].
Proof.
  apply (proj1 (fresh_run_partitions Fixture.lib Fixture.world Fixture.fileTracker
                  Fixture.walkOk (mkParams [] 5 3) None Fixture.header5
                  (Fixture.h 1) eq_refl eq_refl eq_refl eq_refl)).
  simpl. lia.
Defined.

Lemma restored_iterators_resume_witness :
  let r := CreateSnapshot Fixture.lib Fixture.world Fixture.fileTracker
                          Fixture.walkOk (mkParams [] 5 4)
                          (Some [([], [1]); ([8], [9])]) in
  filter isWalkerEvent (events r) =
  [EvSpawn (TrackedIterator (RestoredIterator [] [1])) "0xheader5" [] false;
   EvSpawn (TrackedIterator (RestoredIterator [8] [9])) "0xheader5" [] false] /\
  filter isPartition (events r) = [].
Proof.
  apply (restored_iterators_resume Fixture.lib Fixture.world Fixture.fileTracker
           Fixture.walkOk (mkParams [] 5 4) (Some [([], [1]); ([8], [9])])
           Fixture.header5 (Fixture.h 1)
           [TrackedIterator (RestoredIterator [] [1]);
            TrackedIterator (RestoredIterator [8] [9])]
           eq_refl eq_refl eq_refl eq_refl).
  simpl. lia.
Defined.

Lemma run_result_is_the_walkers_witness :
  let r := CreateSnapshot Fixture.lib Fixture.world Fixture.fileTracker
                          Fixture.walkFailSecond (mkParams [] 5 3) None in
  In (result r) [Ok tt; Err "missing code"; Ok tt].
Proof.
  refine (proj2 (run_result_is_the_walkers Fixture.lib Fixture.world
                  Fixture.fileTracker Fixture.walkFailSecond (mkParams [] 5 3) None
                  Fixture.header5 (Fixture.h 1) None
                  (map TrackedIterator
                       [SubtrieIterator (Fixture.h 1) 0 3;
                        SubtrieIterator (Fixture.h 1) 1 3;
                        SubtrieIterator (Fixture.h 1) 2 3])
                  [EvPartition 3]
                  eq_refl eq_refl eq_refl eq_refl eq_refl ltac:(discriminate)) _).
  vm_compute. discriminate.
Defined.

(** * Further properties of the walker *)

Section AddsList.
Context {PS : Type} `{Publisher PS}.
Variable lib : EthLib.
Variable chain : Chain.
Variable Q : list record -> Prop.
Hypothesis Q_nil : Q [].
Hypothesis Q_app : forall a b, Q a -> Q b -> Q (a ++ b).

Lemma addsList_nothing {A} (m : M PS A) :
  (forall w, published (snd (m w)) = published w) -> addsList Q m.
Proof.
  intros Hm w. exists []. rewrite app_nil_r. split; [apply Hm | exact Q_nil].
Qed.

Lemma addsList_bind {A B} (m : M PS A) (k : A -> M PS B) :
  addsList Q m -> (forall a, addsList Q (k a)) -> addsList Q (bind m k).
Proof.
  intros Hm Hk w. unfold bind. destruct (Hm w) as (n1 & E1 & Q1).
  destruct (m w) as [[a|e|e] w1]; simpl in *;
    try (exists n1; split; assumption).
  destruct (Hk a w1) as (n2 & E2 & Q2).
  exists (n1 ++ n2). rewrite E2, E1, app_assoc. split; [reflexivity|].
  apply Q_app; assumption.
Qed.

Lemma addsList_defer {A} (m : M PS A) (d : PS -> PS) :
  addsList Q m -> addsList Q (defer m d).
Proof.
  intros Hm w. unfold defer. destruct (Hm w) as (n1 & E1 & Q1).
  exists n1. destruct (m w) as [r w1]. split; assumption.
Qed.

Section Traversal.
Variable s : Service.
Variable headerID : string.
Variable seekingPaths : list bytes.
Hypothesis node_adds :
  forall tx path it,
    addsList Q (createNodeSnapshot lib chain s tx path it headerID seekingPaths).

Lemma addsList_levels (tx : Tx) (root : trie) :
  forall prefixPath,
    addsList Q (createSubTrieSnapshot lib chain s tx prefixPath root headerID
                                      seekingPaths).
Proof.
  induction root as [hash leaf kids IH] using trie_induction.
  intros prefixPath. rewrite createSubTrieSnapshot_eq. simpl.
  destruct (IsNullHash hash); [apply addsList_nothing; reflexivity|].
  induction kids as [|[frag k] rest IHrest]; simpl;
    [apply addsList_nothing; reflexivity|].
  inversion IH as [|? ? Hk Hrest]; subst.
  destruct (ignored s (prefixPath ++ frag) seekingPaths); [apply IHrest, Hrest|].
  apply addsList_bind; [apply node_adds|]. intros _.
  apply addsList_bind; [apply Hk|]. intros _. apply IHrest, Hrest.
Qed.

Lemma addsList_levelLoop (tx : Tx) (prefixPath : bytes) (kids : list (bytes * trie)) :
  addsList Q (levelLoop lib chain s tx prefixPath kids headerID seekingPaths).
Proof.
  induction kids as [|[frag k] rest IH]; simpl;
    [apply addsList_nothing; reflexivity|].
  destruct (ignored s (prefixPath ++ frag) seekingPaths); [apply IH|].
  apply addsList_bind; [apply node_adds|]. intros _.
  apply addsList_bind; [apply addsList_levels|]. intros _. apply IH.
Qed.

Lemma addsList_createSnapshot (root : trie) :
  addsList Q (createSnapshot lib chain s root headerID seekingPaths).
Proof.
  unfold createSnapshot.
  apply addsList_bind; [apply addsList_nothing, call_published|]. intros tx.
  apply addsList_defer, addsList_bind; [apply node_adds|].
  intros _. apply addsList_levelLoop.
Qed.

End Traversal.

End AddsList.

Section SoundRecords.
Context {PS : Type} `{Publisher PS}.
Variable lib : EthLib.
Variable chain : Chain.

Lemma adds_bind_lift {A B} (Q : record -> Prop) (o : outcome A) (k : A -> M PS B) :
  (forall a, o = Ok a -> adds Q (k a)) -> adds Q (bind (lift o) k).
Proof.
  intros Hk w. unfold bind, lift. destruct o as [a|e|e];
    try (exists []; rewrite app_nil_r; split; [reflexivity | constructor]).
  apply (Hk a eq_refl).
Qed.

Lemma resolved_node_sound (path : bytes) (it : trie) (res : nodeResult)
      (key : bytes) :
  resolveNode lib chain path it = Ok (Some res) ->
  (NodeType (node res) = Leaf \/ key = BytesToHash lib []) ->
  nodeSound lib chain (setKey (node res) key).
Proof.
  intros Hres Hkey. apply resolveNode_some in Hres.
  destruct Hres as [_ (n & ty & Hn & Hd & Hk & Hnode)].
  rewrite Hnode in *. simpl in *. exists (thash it), (elements res). simpl.
  repeat split; auto.
  destruct Hkey as [-> | ->]; [left; reflexivity|].
  destruct (CheckKeyType_ok _ _ Hk) as [-> | [-> | ->]]; auto.
Qed.

Lemma sound_storageStep (s : Service) (headerID : string) (statePath : bytes)
      (tx : Tx) (pos : bytes * trie) :
  adds (recordSound lib chain headerID)
       (storageStep lib chain s headerID statePath tx pos).
Proof.
  destruct pos as [path it]. unfold storageStep.
  apply adds_bind_lift. intros [res|] Hres; [|apply adds_ret].
  apply adds_bind; [apply adds_call|]. intros tx'.
  apply adds_bind_lift. intros nodeData Hnd.
  assert (setValue (node res) nodeData = node res) as Hv.
  { destruct (resolveNode_some lib chain _ _ _ Hres)
      as [_ (n & ty & Hn & _ & _ & Hnode)].
    rewrite Hnode. unfold setValue. simpl. congruence. }
  cbn [node elements]. rewrite Hv.
  destruct (NodeType (node res)) eqn:Ety; try apply adds_fail.
  - apply adds_bind; [|intros; apply adds_ret]. apply adds_publish.
    split; [reflexivity|]. apply (resolved_node_sound path it); auto.
  - apply adds_bind; [|intros; apply adds_ret]. apply adds_publish.
    split; [reflexivity|]. apply (resolved_node_sound path it); auto.
  - apply adds_bind; [apply adds_lift|]. intros key.
    apply adds_bind; [|intros; apply adds_ret]. apply adds_publish.
    split; [reflexivity|]. apply (resolved_node_sound path it); auto.
Qed.

Lemma sound_storageSnapshot (s : Service) (sr : bytes) (headerID : string)
      (statePath : bytes) (tx : Tx) :
  adds (recordSound lib chain headerID)
       (storageSnapshot lib chain s sr headerID statePath tx).
Proof.
  unfold storageSnapshot.
  destruct (bytes_eqb sr (emptyContractRoot lib)); [apply adds_ret|].
  apply adds_bind; [apply adds_lift|]. intros [t|]; [|apply adds_ret].
  generalize (preorder [] t). intros positions. revert tx.
  induction positions as [|pos rest IH]; intros tx; simpl; [apply adds_ret|].
  apply adds_bind; [apply sound_storageStep | intros tx'; apply IH].
Qed.

Lemma sound_codeSnapshot (headerID : string) (account : StateAccount) (tx : Tx) :
  adds (recordSound lib chain headerID) (codeSnapshot lib chain account tx).
Proof.
  unfold codeSnapshot.
  destruct (negb (bytes_eqb (CodeHash account) (emptyCodeHash lib)));
    [|apply adds_ret].
  cbv zeta.
  destruct (ReadCode chain (BytesToHash lib (CodeHash account))) as [|b r] eqn:Ec;
    [apply adds_fail|].
  simpl (Z.of_nat _ =? 0). cbv iota. apply adds_publish.
  simpl. split; [symmetry; exact Ec | discriminate].
Qed.

Lemma sound_createNodeSnapshot (s : Service) (tx : Tx) (path : bytes) (it : trie)
      (headerID : string) (seekingPaths : list bytes) :
  adds (recordSound lib chain headerID)
       (createNodeSnapshot lib chain s tx path it headerID seekingPaths).
Proof.
  unfold createNodeSnapshot.
  apply adds_bind_lift. intros [res|] Hres; [|apply adds_ret].
  apply adds_bind; [apply adds_call|]. intros tx'.
  destruct (NodeType (node res)) eqn:Ety; try apply adds_fail.
  - apply adds_publish. split; [reflexivity|].
    apply (resolved_node_sound path it); auto.
  - apply adds_publish. split; [reflexivity|].
    apply (resolved_node_sound path it); auto.
  - apply adds_bind; [apply adds_lift|]. intros e1.
    apply adds_bind; [apply adds_wrapErr, adds_lift|]. intros account.
    apply adds_bind; [apply adds_lift|]. intros key.
    apply adds_bind.
    { apply adds_publish. split; [reflexivity|].
      apply (resolved_node_sound path it); auto. }
    intros _. apply adds_bind; [apply sound_codeSnapshot|].
    intros _. apply adds_bind; [|intros; apply adds_ret].
    apply adds_wrapErr, sound_storageSnapshot.
Qed.

(** X11. Every record a walk publishes is sound for the archive: a state or
    storage node carries the header of the walk, the bytes stored in the
    archive under a hash, the type [CheckKeyType] gives to what these bytes
    decode to (so never [Removed] or [Unknown]), and, when it is not a leaf,
    the key [BytesToHash []]; a code blob is what [ReadCode] returns for its
    hash and is never empty.  This holds for the records of a walk that
    fails, too. *)
Theorem walk_publishes_sound_records (s : Service) (root : trie)
        (headerID : string) (seekingPaths : list bytes) (w : wstate PS) :
  exists new,
    published (snd (createSnapshot lib chain s root headerID seekingPaths w))
    = published w ++ new /\
    Forall (recordSound lib chain headerID) new.
Proof.
  apply (addsList_createSnapshot lib chain
           (Forall (recordSound lib chain headerID))
           (Forall_nil _)
           (fun a b Ha Hb => proj2 (Forall_app _ a b) (conj Ha Hb))
           s headerID seekingPaths).
  intros tx path it. apply sound_createNodeSnapshot.
Qed.

End SoundRecords.

Section NodeBlocks.
Context {PS : Type} `{Publisher PS}.
Variable lib : EthLib.
Variable chain : Chain.

Lemma storageSnapshot_at (s : Service) (sr : bytes) (headerID : string)
      (statePath : bytes) (tx : Tx) :
  adds (storageAt headerID statePath)
       (storageSnapshot lib chain s sr headerID statePath tx).
Proof.
  unfold storageSnapshot.
  destruct (bytes_eqb sr (emptyContractRoot lib)); [apply adds_ret|].
  apply adds_bind; [apply adds_lift|]. intros [t|]; [|apply adds_ret].
  generalize (preorder [] t). intros positions. revert tx.
  induction positions as [|[path it] rest IH]; intros tx; simpl; [apply adds_ret|].
  apply adds_bind; [|intros tx'; apply IH].
  unfold storageStep.
  apply adds_bind; [apply adds_lift|]. intros [res|]; [|apply adds_ret].
  apply adds_bind; [apply adds_call|]. intros tx'.
  apply adds_bind; [apply adds_lift|]. intros nodeData. cbn [node elements].
  match goal with
  | |- context [match NodeType ?n with _ => _ end] => destruct (NodeType n)
  end; try apply adds_fail.
  - apply adds_bind; [apply adds_publish; split; reflexivity | intros; apply adds_ret].
  - apply adds_bind; [apply adds_publish; split; reflexivity | intros; apply adds_ret].
  - apply adds_bind; [apply adds_lift|]. intros key.
    apply adds_bind; [apply adds_publish; split; reflexivity | intros; apply adds_ret].
Qed.

Lemma codeSnapshot_block (account : StateAccount) (tx : Tx) (w : wstate PS) :
  exists codes,
    published (snd (codeSnapshot lib chain account tx w)) = published w ++ codes /\
    (List.length codes <= 1)%nat /\ Forall isCodeRecord codes /\
    (forall e, fst (codeSnapshot lib chain account tx w) <> Ok e -> codes = []).
Proof.
  unfold codeSnapshot.
  destruct (negb (bytes_eqb (CodeHash account) (emptyCodeHash lib)));
    [|exists []; rewrite app_nil_r; simpl; repeat split; auto].
  cbv zeta. destruct (Z.of_nat (List.length _) =? 0);
    [exists []; rewrite app_nil_r; simpl; repeat split; auto|].
  unfold publish. destruct (PublishCode _ _ tx (pubst w)) as [[e|] p]; simpl.
  - exists []. rewrite app_nil_r. simpl. repeat split; auto.
  - eexists [_]. split; [reflexivity|]. split; [simpl; lia|].
    split; [constructor; [exact I | constructor]|].
    intros e Hne. exfalso. apply Hne. destruct e. reflexivity.
Qed.

(** What one call of [createNodeSnapshot] appends. *)
Lemma createNodeSnapshot_block (s : Service) (tx : Tx) (path : bytes) (it : trie)
      (headerID : string) (seekingPaths : list bytes) :
  addsList (nodeBlock headerID path)
           (createNodeSnapshot lib chain s tx path it headerID seekingPaths).
Proof.
  intros w.
  assert (forall (r : outcome unit) (w1 : wstate PS),
            published w1 = published w ->
            exists new, published (snd (r, w1)) = published w ++ new /\
                        nodeBlock headerID path new) as nothing.
  { intros r w1 E. exists []. rewrite app_nil_r. split; [exact E | left; reflexivity]. }
  assert (forall (r : outcome unit) (w1 : wstate PS) n tx',
            Path n = path -> NodeType n <> Leaf \/ True ->
            published w1 = published w ++ [StateRecord n headerID tx'] ->
            (NodeType n <> Leaf) ->
            exists new, published (snd (r, w1)) = published w ++ new /\
                        nodeBlock headerID path new) as single.
  { intros r w1 n tx' Hp _ E Hty. exists [StateRecord n headerID tx'].
    split; [exact E|]. right. exists n, tx', [], [].
    split; [reflexivity|]. split; [exact Hp|]. split; [simpl; lia|].
    split; [constructor|]. split; [constructor|]. intros _. split; reflexivity. }
  unfold createNodeSnapshot. unfold bind at 1. unfold lift at 1.
  destruct (resolveNode lib chain path it) as [[res|]|e|e] eqn:Hres;
    try (apply nothing; reflexivity).
  destruct (resolveNode_some lib chain _ _ _ Hres)
    as [_ (nb & ty & Hn & Hd & Hk & Hnode)].
  unfold bind at 1. unfold call.
  destruct (PrepareTxForBatch tx (maxBatchSize s) (pubst w)) as [[tx'|e|e] p1];
    try (apply nothing; reflexivity).
  destruct (NodeType (node res)) eqn:Ety; try (apply nothing; reflexivity).
  - unfold publish. cbn [pubst published].
    destruct (PublishStateNode _ headerID tx' p1) as [[e|] p2];
      [apply nothing; reflexivity|].
    apply (single _ _ (setKey (node res) (BytesToHash lib [])) tx');
      [rewrite Hnode; reflexivity | auto | reflexivity |].
    simpl. rewrite Ety. discriminate.
  - unfold publish. cbn [pubst published].
    destruct (PublishStateNode _ headerID tx' p1) as [[e|] p2];
      [apply nothing; reflexivity|].
    apply (single _ _ (setKey (node res) (BytesToHash lib [])) tx');
      [rewrite Hnode; reflexivity | auto | reflexivity |].
    simpl. rewrite Ety. discriminate.
  - unfold bind at 1. unfold lift at 1.
    destruct (asBytes (elements res) 1) as [e1|e|e];
      try (apply nothing; reflexivity).
    unfold bind at 1. unfold wrapErr at 1. unfold lift at 1.
    destruct (DecodeAccount lib e1) as [account|e|e];
      try (apply nothing; reflexivity).
    unfold bind at 1. unfold lift at 1.
    destruct (leafKeyOf lib res) as [key|e|e]; try (apply nothing; reflexivity).
    unfold bind at 1. unfold publish at 1. cbn [pubst published].
    destruct (PublishStateNode (setKey (node res) key) headerID tx' p1)
      as [[e|] p2]; [apply nothing; reflexivity|].
    set (n := setKey (node res) key).
    assert (Path n = path) as Hpath by (subst n; rewrite Hnode; reflexivity).
    rewrite Hpath.
    set (w2 := mkW p2 (published w ++ [StateRecord n headerID tx'])).
    destruct (codeSnapshot_block account tx' w2) as (codes & Ec & Hlen & Hcodes & Hfail).
    assert (adds (storageAt headerID path)
              (bind (wrapErr "failed building storage snapshot for account"
                       (storageSnapshot lib chain s (Root account) headerID path tx'))
                    (fun _ => ret (PS := PS) tt))) as Htail.
    { apply adds_bind; [apply adds_wrapErr, storageSnapshot_at|].
      intros; apply adds_ret. }
    unfold bind at 1.
    destruct (codeSnapshot lib chain account tx' w2) as [[u|e|e] w3];
      cbn [snd fst] in Ec, Hfail.
    + destruct (Htail w3) as (storages & Es & Hst).
      exists (StateRecord n headerID tx' :: codes ++ storages).
      split.
      * rewrite Es, Ec. subst w2. cbn [published].
        rewrite <- !app_assoc. reflexivity.
      * right. exists n, tx', codes, storages.
        split; [reflexivity|]. split; [exact Hpath|]. split; [exact Hlen|].
        split; [exact Hcodes|]. split; [exact Hst|].
        intros Hty. exfalso. apply Hty. subst n. simpl. exact Ety.
    + exists (StateRecord n headerID tx' :: codes ++ []).
      split.
      * cbn [snd]. rewrite Ec. subst w2. cbn [published].
        rewrite app_nil_r, <- !app_assoc. reflexivity.
      * right. exists n, tx', codes, [].
        split; [reflexivity|]. split; [exact Hpath|]. split; [exact Hlen|].
        split; [exact Hcodes|]. split; [constructor|].
        intros Hty. exfalso. apply Hty. subst n. simpl. exact Ety.
    + exists (StateRecord n headerID tx' :: codes ++ []).
      split.
      * cbn [snd]. rewrite Ec. subst w2. cbn [published].
        rewrite app_nil_r, <- !app_assoc. reflexivity.
      * right. exists n, tx', codes, [].
        split; [reflexivity|]. split; [exact Hpath|]. split; [exact Hlen|].
        split; [exact Hcodes|]. split; [constructor|].
        intros Hty. exfalso. apply Hty. subst n. simpl. exact Ety.
Qed.

End NodeBlocks.

(** ** Storage records and code blobs follow the state record of their account *)

Lemma mayFollow_incl (seen seen' : list record) (r : record) :
  incl seen seen' -> mayFollow seen r -> mayFollow seen' r.
Proof.
  intros Hi. destruct r as [n hid tx|n hid sp tx|ch cb tx]; simpl; auto.
  - intros (n0 & tx0 & Hin & Hp & Hl). exists n0, tx0. auto.
  - intros (n0 & hid0 & tx0 & Hin & Hl). exists n0, hid0, tx0. auto.
Qed.

Lemma linkedFrom_incl (rs seen seen' : list record) :
  incl seen seen' -> linkedFrom seen rs -> linkedFrom seen' rs.
Proof.
  revert seen seen'. induction rs as [|r rs IH]; intros seen seen' Hi; simpl; auto.
  intros [Hr Hrs]. split; [exact (mayFollow_incl _ _ _ Hi Hr)|].
  apply (IH (seen ++ [r])); [|exact Hrs].
  apply incl_app; [apply incl_appl, Hi | apply incl_appr, incl_refl].
Qed.

Lemma linkedFrom_app (a b seen : list record) :
  linkedFrom seen (a ++ b) <-> linkedFrom seen a /\ linkedFrom (seen ++ a) b.
Proof.
  revert seen. induction a as [|r a IH]; intros seen; simpl.
  - rewrite app_nil_r. tauto.
  - rewrite IH, <- app_assoc. simpl. tauto.
Qed.

Lemma linkedFrom_all (rs seen : list record) :
  Forall (mayFollow seen) rs -> linkedFrom seen rs.
Proof.
  revert seen. induction rs as [|r rs IH]; intros seen Hall; simpl; auto.
  inversion Hall as [|? ? Hr Hrs]; subst. split; [exact Hr|].
  apply IH. apply Forall_impl with (P := mayFollow seen); [|exact Hrs].
  intros r'. apply mayFollow_incl, incl_appl, incl_refl.
Qed.

Lemma linkedFrom_split (new pre post seen : list record) (r : record) :
  linkedFrom seen new -> new = pre ++ r :: post -> mayFollow (seen ++ pre) r.
Proof.
  intros Hl ->. apply linkedFrom_app in Hl. destruct Hl as [_ [Hr _]]. exact Hr.
Qed.

Lemma nodeBlock_linked (headerID : string) (path : bytes) (new : list record) :
  nodeBlock headerID path new -> linkedFrom [] new.
Proof.
  intros [-> | (n & tx & codes & storages & -> & Hp & _ & Hc & Hs & Hty)];
    [exact I|].
  simpl. split; [exact I|].
  assert (NodeType n = Leaf \/ NodeType n <> Leaf) as [Hl | Hn]
      by (destruct (NodeType n); auto; right; discriminate).
  - apply linkedFrom_all, Forall_app. split.
    + apply Forall_impl with (P := isCodeRecord); [|exact Hc].
      intros [n0 h0 t0|n0 h0 s0 t0|ch cb t0]; simpl; try contradiction.
      intros _. exists n, headerID, tx. split; [left; reflexivity | exact Hl].
    + apply Forall_impl with (P := storageAt headerID path); [|exact Hs].
      intros [n0 h0 t0|n0 h0 s0 t0|ch cb t0]; simpl; try contradiction.
      intros [-> ->]. exists n, tx. split; [left; reflexivity | auto].
  - destruct (Hty Hn) as [-> ->]. exact I.
Qed.

Section LinkedWalk.
Context {PS : Type} `{Publisher PS}.
Variable lib : EthLib.
Variable chain : Chain.

(** X12. In the records a walk publishes, a storage record comes after the
    state record of its account: a leaf published earlier in the same walk
    under the same header, whose path is the state path of the storage
    record; and a code blob comes after the state record of a leaf.  This
    holds for the records of a walk that fails, too. *)
Theorem walk_links_storage_to_leaf (s : Service) (root : trie) (headerID : string)
        (seekingPaths : list bytes) (w : wstate PS) :
  exists new,
    published (snd (createSnapshot lib chain s root headerID seekingPaths w))
    = published w ++ new /\
    forall pre r post, new = pre ++ r :: post -> mayFollow pre r.
Proof.
  destruct (addsList_createSnapshot lib chain (linkedFrom []) I
              (fun a b Ha Hb =>
                 proj2 (linkedFrom_app a b [])
                       (conj Ha (linkedFrom_incl b [] ([] ++ a)
                                   (incl_nil_l _) Hb)))
              s headerID seekingPaths
              (fun tx path it w0 =>
                 match createNodeSnapshot_block lib chain s tx path it headerID
                                                seekingPaths w0 with
                 | ex_intro _ new (conj E Hb) =>
                     ex_intro _ new (conj E (nodeBlock_linked headerID path new Hb))
                 end)
              root w) as (new & E & Hl).
  exists new. split; [exact E|].
  intros pre r post Hsplit. exact (linkedFrom_split new pre post [] r Hl Hsplit).
Qed.

End LinkedWalk.

(** ** The storage walk is complete *)

Lemma storagePaths_app (a b : list record) :
  storagePaths (a ++ b) = storagePaths a ++ storagePaths b.
Proof.
  induction a as [|[n hid tx|n hid sp tx|ch cb tx] a IH]; simpl;
    rewrite ?IH; reflexivity.
Qed.

Lemma preorder_head (prefix : bytes) (t : trie) :
  In (prefix, t) (preorder prefix t).
Proof. destruct t as [hash leaf kids]. left. reflexivity. Qed.

Lemma preorder_kid (prefix : bytes) (t : trie) (frag : bytes) (k : trie)
      (x : bytes * trie) :
  In (frag, k) (tkids t) -> In x (preorder (prefix ++ frag) k) ->
  In x (preorder prefix t).
Proof.
  destruct t as [hash leaf kids]. simpl. intros Hin Hx. right.
  induction kids as [|[f0 k0] rest IH]; [destruct Hin|].
  apply in_or_app. destruct Hin as [E | Hin].
  - injection E as -> ->. left. exact Hx.
  - right. exact (IH Hin).
Qed.

Lemma under_In_preorder (prefix : bytes) (t : trie) (P : bytes) (n : trie) :
  under prefix t P n -> In (P, n) (preorder prefix t).
Proof.
  induction 1 as [prefix t frag k Hk | prefix t frag k P n Hk Hu IH].
  - exact (preorder_kid prefix t frag k _ Hk (preorder_head _ k)).
  - exact (preorder_kid prefix t frag k _ Hk IH).
Qed.

Lemma In_preorder (t : trie) :
  forall prefix P n,
    In (P, n) (preorder prefix t) <-> (P = prefix /\ n = t) \/ under prefix t P n.
Proof.
  induction t as [hash leaf kids IH] using trie_induction.
  intros prefix P n. split.
  - simpl. intros [E | Hin]; [injection E as <- <-; left; auto|]. right.
    assert (forall l, incl l kids ->
              In (P, n)
                 ((fix go (kids : list (bytes * trie)) : list (bytes * trie) :=
                     match kids with
                     | [] => []
                     | (frag, k) :: rest => preorder (prefix ++ frag) k ++ go rest
                     end) l) ->
              under prefix (TrieNode hash leaf kids) P n) as Hgo.
    { induction l as [|[frag k] rest IHl]; intros Hincl Hl; [destruct Hl|].
      apply in_app_or in Hl. destruct Hl as [Hk | Hrest].
      - assert (In (frag, k) kids) as Hfk by (apply Hincl; left; reflexivity).
        rewrite Forall_forall in IH. apply (IH (frag, k) Hfk) in Hk.
        destruct Hk as [[-> ->] | Hu].
        + apply under_kid. exact Hfk.
        + exact (under_deeper prefix (TrieNode hash leaf kids) frag k P n Hfk Hu).
      - apply IHl; [|exact Hrest]. intros x Hx. apply Hincl. right. exact Hx. }
    exact (Hgo kids (incl_refl _) Hin).
  - intros [[-> ->] | Hu]; [apply preorder_head | apply under_In_preorder, Hu].
Qed.

Section StorageComplete.
Context {PS : Type} `{Publisher PS}.
Variable lib : EthLib.
Variable chain : Chain.

Lemma storageStep_paths (s : Service) (headerID : string) (statePath : bytes)
      (tx tx' : Tx) (path : bytes) (it : trie) (w w' : wstate PS) :
  storageStep lib chain s headerID statePath tx (path, it) w = (Ok tx', w') ->
  storagePaths (published w') = storagePaths (published w) ++ nodePaths path it.
Proof.
  unfold storageStep, nodePaths. intros E.
  apply bind_ok in E. destruct E as ([res|] & w1 & E1 & E).
  - apply lift_ok in E1. destruct E1 as [Hres ->].
    destruct (resolveNode_some lib chain _ _ _ Hres)
      as [-> (n & ty & Hn & Hd & Hk & Hnode)].
    apply bind_ok in E. destruct E as (tx1 & w2 & E2 & E).
    pose proof (call_published (PrepareTxForBatch tx (maxBatchSize s)) w) as Hc.
    rewrite E2 in Hc. simpl in Hc.
    apply bind_ok in E. destruct E as (nodeData & w3 & E3 & E).
    apply lift_ok in E3. destruct E3 as [_ ->]. cbn [node elements] in E.
    assert (forall key,
              publish (PublishStorageNode
                         (setKey (setValue (node res) nodeData) key)
                         headerID statePath tx1)
                      (StorageRecord (setKey (setValue (node res) nodeData) key)
                                     headerID statePath tx1) w2 = (Ok tt, w') ->
              storagePaths (published w') = storagePaths (published w) ++ [path])
      as Hpub.
    { intros key Ep. apply publish_ok in Ep.
      rewrite Ep, storagePaths_app, Hc. simpl. rewrite Hnode. reflexivity. }
    destruct (NodeType (setValue (node res) nodeData)); try discriminate.
    + apply bind_ok in E. destruct E as ([] & w4 & E4 & E).
      injection E as _ <-. exact (Hpub _ E4).
    + apply bind_ok in E. destruct E as ([] & w4 & E4 & E).
      injection E as _ <-. exact (Hpub _ E4).
    + apply bind_ok in E. destruct E as (key & w4 & E4 & E).
      apply lift_ok in E4. destruct E4 as [_ ->].
      apply bind_ok in E. destruct E as ([] & w5 & E5 & E).
      injection E as _ <-. exact (Hpub _ E5).
  - apply lift_ok in E1. destruct E1 as [Hres ->].
    rewrite (resolveNode_none lib chain _ _ Hres).
    injection E as _ <-. rewrite app_nil_r. reflexivity.
Qed.

Lemma storageLoop_paths (s : Service) (headerID : string) (statePath : bytes)
      (positions : list (bytes * trie)) :
  forall (tx tx' : Tx) (w w' : wstate PS),
    storageLoop lib chain s headerID statePath tx positions w = (Ok tx', w') ->
    storagePaths (published w') =
    storagePaths (published w)
    ++ flat_map (fun pos => nodePaths (fst pos) (snd pos)) positions.
Proof.
  induction positions as [|[path it] rest IH]; intros tx tx' w w' E; simpl in *.
  - injection E as _ <-. rewrite app_nil_r. reflexivity.
  - apply bind_ok in E. destruct E as (tx1 & w1 & E1 & E).
    rewrite (IH _ _ _ _ E), (storageStep_paths _ _ _ _ _ _ _ _ _ E1), app_assoc.
    reflexivity.
Qed.

(** X13. The storage walk has no filter and is complete.  For the root of
    the empty storage trie nothing happens and the transaction is handed
    back; for any other root whose trie opens, a walk that succeeds
    publishes a storage record at exactly the paths of the nodes of that
    trie that can be resolved, the root included, in the order of the
    iteration. *)
Theorem storage_walk_is_complete (s : Service) (sr : bytes) (headerID : string)
        (statePath : bytes) (tx tx' : Tx) (w w' : wstate PS) :
  storageSnapshot lib chain s sr headerID statePath tx w = (Ok tx', w') ->
  (sr = emptyContractRoot lib -> w' = w /\ tx' = tx) /\
  (forall t,
     sr <> emptyContractRoot lib ->
     OpenStorageTrie chain sr = Ok (Some t) ->
     exists emitted,
       storagePaths (published w') = storagePaths (published w) ++ emitted /\
       emitted = flat_map (fun pos => nodePaths (fst pos) (snd pos)) (preorder [] t) /\
       forall P, In P emitted <-> storageNodeAt t P).
Proof.
  unfold storageSnapshot. intros E. split.
  - intros ->. rewrite bytes_eqb_refl in E. injection E as <- <-. auto.
  - intros t Hne Hopen. apply bytes_eqb_neq in Hne. rewrite Hne in E.
    apply bind_ok in E. destruct E as (st & w1 & E1 & E).
    apply lift_ok in E1. destruct E1 as [Ho ->].
    rewrite Hopen in Ho. injection Ho as <-.
    eexists. split; [exact (storageLoop_paths _ _ _ _ _ _ _ _ E)|].
    split; [reflexivity|].
    intros P. rewrite in_flat_map. unfold storageNodeAt. split.
    + intros ([P' n] & Hin & HP). simpl in HP.
      apply In_nodePaths in HP. destruct HP as [-> Hr].
      apply In_preorder in Hin. exists n. split; [|exact Hr].
      destruct Hin as [[-> ->] | Hu]; auto.
    + intros (n & Hpos & Hr). exists (P, n). split.
      * apply In_preorder. destruct Hpos as [[-> ->] | Hu]; auto.
      * simpl. apply In_nodePaths. auto.
Qed.

End StorageComplete.

Lemma storage_walk_is_complete_witness :
  let w' := snd (storageSnapshot Fixture.lib Fixture.chain (Fixture.service false)
                   (Fixture.h 9) "hid" [3] 0%nat Fixture.w0) in
  exists emitted,
    storagePaths (published w') = storagePaths (published Fixture.w0) ++ emitted /\
    emitted = flat_map (fun pos => nodePaths (fst pos) (snd pos))
                       (preorder [] Fixture.storageTrie) /\
    forall P, In P emitted <-> storageNodeAt Fixture.storageTrie P.
Proof.
  refine (proj2 (storage_walk_is_complete Fixture.lib Fixture.chain
                   (Fixture.service false) (Fixture.h 9) "hid" [3] 0%nat 0%nat
                   Fixture.w0
                   (snd (storageSnapshot Fixture.lib Fixture.chain
                           (Fixture.service false) (Fixture.h 9) "hid" [3] 0%nat
                           Fixture.w0)) _)
                Fixture.storageTrie _ _).
  - vm_compute. reflexivity.
  - vm_compute. discriminate.
  - reflexivity.
Defined.

(** ** Positions the walker passes over, and what the filter prunes *)

Section Skips.
Context {PS : Type} `{Publisher PS}.
Variable lib : EthLib.
Variable chain : Chain.

(** X14. A value node and a position at the zero hash are passed over without
    any call of the publisher, not even the batch rotation:
    [createNodeSnapshot] returns nil and leaves the publisher and the
    records as they were; and at the zero hash [createSubTrieSnapshot]
    visits nothing, so nothing below such a position is published. *)
Theorem skipped_positions (s : Service) (tx : Tx) (path : bytes) (it : trie)
        (headerID : string) (seekingPaths : list bytes) (w : wstate PS) :
  (tleaf it = true \/ IsNullHash (thash it) = true ->
   createNodeSnapshot lib chain s tx path it headerID seekingPaths w = (Ok tt, w)) /\
  (IsNullHash (thash it) = true ->
   createSubTrieSnapshot lib chain s tx path it headerID seekingPaths w = (Ok tt, w)).
Proof.
  split.
  - intros Hskip. unfold createNodeSnapshot, bind, lift, resolveNode.
    destruct (tleaf it); [reflexivity|].
    destruct Hskip as [E | ->]; [discriminate | reflexivity].
  - intros Hz. rewrite createSubTrieSnapshot_eq, Hz. reflexivity.
Qed.

End Skips.

Lemma skipped_positions_witness :
  createNodeSnapshot Fixture.lib Fixture.chain (Fixture.service false) 0%nat
                     [1; 2; 16] Fixture.valueNode "hid" [] Fixture.w0
  = (Ok tt, Fixture.w0) /\
  createSubTrieSnapshot Fixture.lib Fixture.chain (Fixture.service false) 0%nat
                        [1; 2; 16] Fixture.valueNode "hid" [] Fixture.w0
  = (Ok tt, Fixture.w0).
Proof.
  split.
  - apply (proj1 (skipped_positions Fixture.lib Fixture.chain (Fixture.service false)
                    0%nat [1; 2; 16] Fixture.valueNode "hid" [] Fixture.w0)).
    left. reflexivity.
  - apply (proj2 (skipped_positions Fixture.lib Fixture.chain (Fixture.service false)
                    0%nat [1; 2; 16] Fixture.valueNode "hid" [] Fixture.w0)).
    reflexivity.
Defined.

(** X15. The filter prunes soundly and monotonically: when a path is ignored,
    every path that extends it is ignored as well, so a pruned sub-trie holds
    no node the filter would accept; and watching more paths never makes an
    accepted path ignored. *)
Theorem pruning_is_sound (s : Service) (p q : bytes) (seekingPaths more : list bytes) :
  (isPrefixOf p q -> ignored s p seekingPaths = true ->
   ignored s q seekingPaths = true) /\
  (validPath p seekingPaths = true -> validPath p (seekingPaths ++ more) = true).
Proof.
  split.
  - intros Hpq Hp. destruct (ignored s q seekingPaths) eqn:Hq; [reflexivity|].
    rewrite (ignored_prefix s p q seekingPaths Hpq Hq) in Hp. discriminate.
  - intros Hv. apply validPath_exists in Hv. destruct Hv as (wp & Hin & Hp).
    apply validPath_exists. exists wp. split; [|exact Hp].
    apply in_or_app. left. exact Hin.
Qed.

Lemma pruning_is_sound_witness :
  ignored (mkService true 100) [3; 4] [[1; 2; 16]] = true /\
  validPath [1] ([[1; 2; 16]] ++ [[5; 16]]) = true.
Proof.
  split.
  - apply (proj1 (pruning_is_sound (mkService true 100) [3] [3; 4] [[1; 2; 16]] [])).
    + exists [4]. reflexivity.
    + reflexivity.
  - apply (proj2 (pruning_is_sound (mkService true 100) [1] [] [[1; 2; 16]] [[5; 16]])).
    reflexivity.
Defined.

(** ** The handle the walker asks the rotation with *)

Section FirstHandle.
Context {PS : Type} `{Publisher PS}.
Variable lib : EthLib.
Variable chain : Chain.
Variable s : Service.
Variable headerID : string.
Variable seekingPaths : list bytes.
Variable tx0 : Tx.

Lemma adds_bind_call {A B} (Q : record -> Prop) (f : PS -> outcome A * PS)
      (k : A -> M PS B) :
  (forall a p p', f p = (Ok a, p') -> adds Q (k a)) -> adds Q (bind (call f) k).
Proof.
  intros Hk w. unfold bind, call.
  destruct (f (pubst w)) as [[a|e|e] p'] eqn:Ef;
    try (exists []; rewrite app_nil_r; split; [reflexivity | constructor]).
  exact (Hk a (pubst w) p' Ef (mkW p' (published w))).
Qed.

Lemma node_rotatedFrom (path : bytes) (it : trie) :
  adds (rotatedFrom s tx0)
       (createNodeSnapshot lib chain s tx0 path it headerID seekingPaths).
Proof.
  unfold createNodeSnapshot.
  apply adds_bind; [apply adds_lift|]. intros [res|]; [|apply adds_ret].
  apply adds_bind_call. intros tx' p p' Hprep.
  assert (rotatedFrom s tx0 (StateRecord (setKey (node res) (BytesToHash lib []))
                                         headerID tx')) as Hst
      by (exists p, p'; exact Hprep).
  destruct (NodeType (node res)); try apply adds_fail;
    try (apply adds_publish; exact Hst).
  apply adds_bind; [apply adds_lift|]. intros e1.
  apply adds_bind; [apply adds_wrapErr, adds_lift|]. intros account.
  apply adds_bind; [apply adds_lift|]. intros key.
  apply adds_bind; [apply adds_publish; exists p, p'; exact Hprep|].
  intros _. apply adds_bind.
  { unfold codeSnapshot.
    destruct (negb (bytes_eqb (CodeHash account) (emptyCodeHash lib)));
      [|apply adds_ret].
    destruct (Z.of_nat (List.length _) =? 0); [apply adds_fail|].
    apply adds_publish. exists p, p'. exact Hprep. }
  intros _. apply adds_bind; [|intros; apply adds_ret].
  apply adds_wrapErr.
  intros w. destruct (storageSnapshot_adds lib chain s (Root account) headerID
                        (Path (setKey (node res) key)) tx' w) as (new & E & Hnew).
  exists new. split; [exact E|].
  apply Forall_impl with (P := isStorageRecord); [|exact Hnew].
  intros [n0 h0 t0|n0 h0 s0 t0|ch cb t0]; simpl; try contradiction. auto.
Qed.

Lemma levels_rotatedFrom (root : trie) :
  forall prefixPath,
    adds (rotatedFrom s tx0)
         (createSubTrieSnapshot lib chain s tx0 prefixPath root headerID seekingPaths).
Proof.
  induction root as [hash leaf kids IH] using trie_induction.
  intros prefixPath. rewrite createSubTrieSnapshot_eq. simpl.
  destruct (IsNullHash hash); [apply adds_ret|].
  induction kids as [|[frag k] rest IHrest]; simpl; [apply adds_ret|].
  inversion IH as [|? ? Hk Hrest]; subst.
  destruct (ignored s (prefixPath ++ frag) seekingPaths); [apply IHrest, Hrest|].
  apply adds_bind; [apply node_rotatedFrom|]. intros _.
  apply adds_bind; [apply Hk|]. intros _. apply IHrest, Hrest.
Qed.

Lemma levelLoop_rotatedFrom (prefixPath : bytes) (kids : list (bytes * trie)) :
  adds (rotatedFrom s tx0)
       (levelLoop lib chain s tx0 prefixPath kids headerID seekingPaths).
Proof.
  induction kids as [|[frag k] rest IH]; simpl; [apply adds_ret|].
  destruct (ignored s (prefixPath ++ frag) seekingPaths); [apply IH|].
  apply adds_bind; [apply node_rotatedFrom|]. intros _.
  apply adds_bind; [apply levels_rotatedFrom|]. intros _. apply IH.
Qed.

(** X16. The walker never hands a rotated transaction back to its loops:
    [createNodeSnapshot] takes the handle by value, so for every state node
    (and code blob) of a walk the batch rotation is asked with the handle
    [BeginTx] returned at the start, whatever earlier rotations returned; the
    record is then written with the handle that rotation gives back. *)
Theorem rotation_always_from_first_handle (root : trie) (w : wstate PS) (p0 : PS) :
  BeginTx (pubst w) = (Ok tx0, p0) ->
  exists new,
    published (snd (createSnapshot lib chain s root headerID seekingPaths w))
    = published w ++ new /\
    Forall (rotatedFrom s tx0) new.
Proof.
  intros Hb. unfold createSnapshot. unfold bind at 1. unfold call. rewrite Hb.
  assert (adds (rotatedFrom s tx0)
            (defer (bind (createNodeSnapshot lib chain s tx0 [] root headerID
                                             seekingPaths)
                         (fun _ => levelLoop lib chain s tx0 [] (tkids root)
                                             headerID seekingPaths))
                   (fun p => snd (CommitOrRollback tx0 None p)))) as Ha.
  { intros w1. unfold defer.
    destruct (adds_bind (rotatedFrom s tx0) _ _
                (node_rotatedFrom [] root)
                (fun _ => levelLoop_rotatedFrom [] (tkids root)) w1)
      as (new & E & Hnew).
    exists new. destruct (bind _ _ w1) as [r w2]. split; assumption. }
  exact (Ha (mkW p0 (published w))).
Qed.

End FirstHandle.

(** * The hex-prefix encoding of go-ethereum, as the service uses it *)

Lemma In_nibbleRange (a : Z) : isNibble a -> In a nibbleRange.
Proof.
  intros [H0 H16]. unfold nibbleRange.
  replace a with (Z.of_nat (Z.to_nat a)) by lia.
  apply in_map, in_seq. lia.
Qed.

Lemma lor_nibbles (a b : Z) :
  isNibble a -> isNibble b -> Z.lor (Z.shiftl a 4 mod 256) b = 16 * a + b.
Proof.
  intros Ha Hb.
  assert (forallb (fun a => forallb (fun b =>
            Z.lor (Z.shiftl a 4 mod 256) b =? 16 * a + b) nibbleRange)
            nibbleRange = true) as Hall by (vm_compute; reflexivity).
  rewrite forallb_forall in Hall.
  specialize (Hall a (In_nibbleRange a Ha)). rewrite forallb_forall in Hall.
  apply Z.eqb_eq. exact (Hall b (In_nibbleRange b Hb)).
Qed.

Lemma lor_flag (term : bool) (a : Z) :
  isNibble a ->
  Z.lor (Z.lor (Z.shiftl (if term then 1 else 0) 5 mod 256) (Z.shiftl 1 4)) a
  = (if term then 48 else 16) + a.
Proof.
  intros Ha.
  assert (forallb (fun a =>
            (Z.lor (Z.lor (Z.shiftl 1 5 mod 256) (Z.shiftl 1 4)) a =? 48 + a) &&
            (Z.lor (Z.lor (Z.shiftl 0 5 mod 256) (Z.shiftl 1 4)) a =? 16 + a))
            nibbleRange = true) as Hall by (vm_compute; reflexivity).
  rewrite forallb_forall in Hall. specialize (Hall a (In_nibbleRange a Ha)).
  apply andb_true_iff in Hall. destruct Hall as [H1 H0].
  destruct term; apply Z.eqb_eq; assumption.
Qed.

Lemma pairs_induction (P : list Z -> Prop) :
  P [] -> (forall a b l, P l -> P (a :: b :: l)) ->
  forall l, Nat.even (List.length l) = true -> P l.
Proof.
  intros Hnil Hstep.
  assert (forall l,
            (Nat.even (List.length l) = true -> P l) /\
            (forall a, Nat.even (List.length (a :: l)) = true -> P (a :: l)))
    as Hboth.
  { induction l as [|x l [IH1 IH2]]; split.
    - intros _. exact Hnil.
    - intros a E. discriminate.
    - apply IH2.
    - intros a E. apply Hstep, IH1. exact E. }
  intros l. apply Hboth.
Qed.

Lemma nibblesOf_decodeNibbles (l : bytes) :
  Nat.even (List.length l) = true -> Forall isNibble l ->
  Geth.nibblesOf (Geth.decodeNibbles l) = l.
Proof.
  intros He. pattern l. apply pairs_induction; [reflexivity | | exact He].
  clear l He. intros a b l IH Hall. inversion Hall as [|? ? Ha Hall']; subst.
  inversion Hall' as [|? ? Hb Hl]; subst.
  cbn [Geth.nibblesOf Geth.decodeNibbles].
  rewrite (lor_nibbles a b Ha Hb), (IH Hl).
  unfold isNibble in *. f_equal; [|f_equal];
    Z.div_mod_to_equations; lia.
Qed.

Lemma nibblesOf_nibbles (k : bytes) :
  Forall isByte k ->
  Forall isNibble (Geth.nibblesOf k) /\
  Nat.even (List.length (Geth.nibblesOf k)) = true.
Proof.
  induction 1 as [|b k Hb _ [IH1 IH2]]; simpl; [split; [constructor | reflexivity]|].
  split; [|exact IH2].
  unfold isByte, isNibble in *.
  constructor; [Z.div_mod_to_equations; lia|].
  constructor; [Z.div_mod_to_equations; lia | exact IH1].
Qed.

Lemma decodeNibbles_nibblesOf (k : bytes) :
  Forall isByte k -> Geth.decodeNibbles (Geth.nibblesOf k) = k.
Proof.
  induction 1 as [|b k Hb _ IH]; [reflexivity|].
  cbn [Geth.nibblesOf Geth.decodeNibbles]. unfold isByte in Hb.
  rewrite lor_nibbles, IH by (unfold isNibble; Z.div_mod_to_equations; lia).
  f_equal. Z.div_mod_to_equations; lia.
Qed.

Lemma hasTerm_terminated (nibs : bytes) : Geth.hasTerm (nibs ++ [16]) = true.
Proof. unfold Geth.hasTerm. rewrite rev_app_distr. reflexivity. Qed.

Lemma hasTerm_nibbles (nibs : bytes) : Forall isNibble nibs -> Geth.hasTerm nibs = false.
Proof.
  intros Hall. unfold Geth.hasTerm.
  destruct (rev nibs) as [|x r] eqn:Er; [reflexivity|].
  assert (In x nibs) as Hin by (apply in_rev; rewrite Er; left; reflexivity).
  rewrite Forall_forall in Hall. specialize (Hall x Hin). unfold isNibble in Hall.
  apply Z.eqb_neq. lia.
Qed.

(** [hexToCompact] on a nibble sequence with or without the terminator. *)
Lemma hexToCompact_nibbles (nibs : bytes) (term : bool) :
  Forall isNibble nibs ->
  Geth.hexToCompact (nibs ++ (if term then [16] else [])) =
  if Nat.odd (List.length nibs)
  then ((if term then 48 else 16) + hd 0 nibs) :: Geth.decodeNibbles (tl nibs)
  else (if term then 32 else 0) :: Geth.decodeNibbles nibs.
Proof.
  intros Hall. unfold Geth.hexToCompact.
  assert (Geth.hasTerm (nibs ++ (if term then [16] else [])) = term) as ->.
  { destruct term; [apply hasTerm_terminated|].
    rewrite app_nil_r. apply hasTerm_nibbles, Hall. }
  assert ((if term then removelast (nibs ++ (if term then [16] else []))
           else nibs ++ (if term then [16] else [])) = nibs) as ->.
  { destruct term; [apply removelast_last | apply app_nil_r]. }
  destruct (Nat.odd (List.length nibs)) eqn:Eodd.
  - destruct nibs as [|a rest]; [discriminate|].
    inversion Hall as [|? ? Ha _]; subst. simpl hd. simpl tl.
    rewrite (lor_flag term a Ha). reflexivity.
  - destruct term; reflexivity.
Qed.

Lemma compactToHex_cons (b0 : Z) (bs : bytes) :
  Geth.compactToHex (b0 :: bs) =
  let base := (b0 / 16 :: b0 mod 16 :: Geth.nibblesOf bs) ++ [16] in
  let base := if b0 / 16 <? 2 then removelast base else base in
  skipn (Z.to_nat (2 - Z.land (hd 0 base) 1)) base.
Proof. reflexivity. Qed.

Lemma compact_round_trip_aux (nibs : bytes) (term : bool) :
  Forall isNibble nibs ->
  Geth.compactToHex (Geth.hexToCompact (nibs ++ (if term then [16] else [])))
  = nibs ++ (if term then [16] else []).
Proof.
  intros Hall. rewrite (hexToCompact_nibbles nibs term Hall).
  destruct (Nat.odd (List.length nibs)) eqn:Eodd.
  - destruct nibs as [|a rest]; [discriminate|].
    inversion Hall as [|? ? Ha Hrest]; subst.
    simpl List.length in Eodd. rewrite Nat.odd_succ in Eodd.
    simpl hd. simpl tl. rewrite compactToHex_cons.
    rewrite (nibblesOf_decodeNibbles rest Eodd Hrest).
    unfold isNibble in Ha.
    destruct term.
    + replace ((48 + a) / 16) with 3 by (Z.div_mod_to_equations; lia).
      replace ((48 + a) mod 16) with a by (Z.div_mod_to_equations; lia).
      reflexivity.
    + replace ((16 + a) / 16) with 1 by (Z.div_mod_to_equations; lia).
      replace ((16 + a) mod 16) with a by (Z.div_mod_to_equations; lia).
      cbv zeta. change (1 <? 2) with true. cbv iota.
      rewrite removelast_last, app_nil_r. reflexivity.
  - assert (Nat.even (List.length nibs) = true) as Heven.
    { rewrite <- Nat.negb_odd, Eodd. reflexivity. }
    rewrite compactToHex_cons.
    rewrite (nibblesOf_decodeNibbles nibs Heven Hall).
    destruct term.
    + reflexivity.
    + cbv zeta. change (0 / 16) with 0. change (0 <? 2) with true. cbv iota.
      rewrite removelast_last, app_nil_r. reflexivity.
Qed.

(** X17. The hex-prefix encoding round trip ([trie.HexToCompact] followed by
    [trie.CompactToHex], as go-ethereum defines them): a sequence of nibbles,
    with or without the terminator, comes back unchanged. *)
Theorem compact_round_trip (nibs : bytes) (term : bool) :
  Forall isNibble nibs ->
  Geth.compactToHex (Geth.hexToCompact (nibs ++ (if term then [16] else [])))
  = nibs ++ (if term then [16] else []).
Proof. exact (compact_round_trip_aux nibs term). Qed.

Lemma compact_round_trip_witness :
  Geth.compactToHex (Geth.hexToCompact ([1; 2; 3] ++ [16])) = [1; 2; 3] ++ [16].
Proof.
  apply (compact_round_trip [1; 2; 3] true).
  repeat constructor; unfold isNibble; lia.
Defined.

(** X18. What the key of a leaf is.  When the nibbles of a 32-byte trie key
    are the path of a leaf followed by the partial path the leaf stores,
    the key computed for the leaf ([BytesToHash] of [HexToCompact (path ++
    CompactToHex partial)] without its first byte, with these functions as
    go-ethereum defines them) is that trie key: for an account leaf, the
    hash of the address. *)
Theorem leaf_key_is_the_trie_key (lib : EthLib) (k path partialNibbles : bytes) :
  CompactToHex lib = Geth.compactToHex ->
  HexToCompact lib = Geth.hexToCompact ->
  BytesToHash lib = Geth.BytesToHash ->
  Forall isByte k -> List.length k = 32%nat ->
  Geth.nibblesOf k = path ++ partialNibbles ->
  leaf_key lib path (Geth.hexToCompact (partialNibbles ++ [16])) = k.
Proof.
  intros Hc Hh Hb Hk Hlen Hsplit. unfold leaf_key. rewrite Hc, Hh, Hb.
  destruct (nibblesOf_nibbles k Hk) as [Hnib Heven].
  assert (Forall isNibble partialNibbles) as Hpart.
  { rewrite Hsplit in Hnib. apply Forall_app in Hnib. tauto. }
  rewrite (compact_round_trip_aux partialNibbles true Hpart).
  rewrite app_assoc, <- Hsplit.
  rewrite (hexToCompact_nibbles (Geth.nibblesOf k) true Hnib).
  rewrite <- Nat.negb_even, Heven. simpl negb. cbv iota.
  simpl tl. rewrite (decodeNibbles_nibblesOf k Hk).
  unfold Geth.BytesToHash. rewrite Hlen, Nat.sub_diag. cbn [skipn].
  rewrite Hlen, Nat.sub_diag. reflexivity.
Qed.

Lemma leaf_key_is_the_trie_key_witness :
  leaf_key Fixture.lib [1; 2] (Geth.hexToCompact ([0; 3] ++ repeat 0 60 ++ [16]))
  = [18; 3] ++ repeat 0 30.
Proof.
  apply (leaf_key_is_the_trie_key Fixture.lib ([18; 3] ++ repeat 0 30) [1; 2]
           ([0; 3] ++ repeat 0 60)); try reflexivity.
  apply Forall_forall. intros x Hx. unfold isByte.
  simpl in Hx. repeat (destruct Hx as [<- | Hx]; [lia|]). destruct Hx.
Defined.

Lemma walk_publishes_sound_records_witness :
  exists new,
    published (snd (createSnapshot Fixture.lib Fixture.chainNoCode
                      (Fixture.service false) Fixture.stateTrie "hid" []
                      Fixture.w0))
    = published Fixture.w0 ++ new /\
    Forall (recordSound Fixture.lib Fixture.chainNoCode "hid") new.
Proof.
  exact (walk_publishes_sound_records Fixture.lib Fixture.chainNoCode
           (Fixture.service false) Fixture.stateTrie "hid" [] Fixture.w0).
Defined.

Lemma walk_links_storage_to_leaf_witness :
  exists new,
    published (snd (createSnapshot Fixture.lib Fixture.chain
                      (Fixture.service false) Fixture.stateTrie "hid" []
                      Fixture.w0))
    = published Fixture.w0 ++ new /\
    forall pre r post, new = pre ++ r :: post -> mayFollow pre r.
Proof.
  exact (walk_links_storage_to_leaf Fixture.lib Fixture.chain
           (Fixture.service false) Fixture.stateTrie "hid" [] Fixture.w0).
Defined.

Lemma rotation_always_from_first_handle_witness :
  exists new,
    published (snd (createSnapshot Fixture.lib Fixture.chain
                      (Fixture.service false) Fixture.stateTrie "hid" []
                      Fixture.w0))
    = published Fixture.w0 ++ new /\
    Forall (rotatedFrom (Fixture.service false) 0%nat) new.
Proof.
  apply (rotation_always_from_first_handle Fixture.lib Fixture.chain
           (Fixture.service false) "hid" [] 0%nat Fixture.stateTrie Fixture.w0
           (Pub.mkPublisher (Pub.mkMemdb 1 [0%nat] []) 0 0 0 0)).
  reflexivity.
Defined.

(** * The nodes a successful walk publishes *)

Section EmitsBy.
Context {PS : Type} `{Publisher PS}.
Variable proj : list record -> list Node.
Hypothesis proj_app : forall a b, proj (a ++ b) = proj a ++ proj b.

Lemma emitsBy_ret {A} (a : A) : emitsBy (PS := PS) proj [] (ret a).
Proof.
  intros w a' w' E. injection E as _ <-. rewrite app_nil_r. reflexivity.
Qed.

Lemma emitsBy_fail {A} (ns : list Node) (msg : string) :
  emitsBy (PS := PS) (A := A) proj ns (fail msg).
Proof. intros w a w' E. discriminate. Qed.

Lemma emitsBy_call {A} (f : PS -> outcome A * PS) : emitsBy proj [] (call f).
Proof.
  intros w a w' E. pose proof (call_published f w) as Hc. rewrite E in Hc.
  simpl in Hc. rewrite Hc, app_nil_r. reflexivity.
Qed.

Lemma emitsBy_bind {A B} (n1 n2 : list Node) (m : M PS A) (k : A -> M PS B) :
  emitsBy proj n1 m -> (forall a, emitsBy proj n2 (k a)) ->
  emitsBy proj (n1 ++ n2) (bind m k).
Proof.
  intros Hm Hk w b w' E. apply bind_ok in E. destruct E as (a & w1 & E1 & E2).
  rewrite (Hk a w1 b w' E2), (Hm w a w1 E1), app_assoc. reflexivity.
Qed.

Lemma emitsBy_bind_lift {A B} (ns : list Node) (o : outcome A) (k : A -> M PS B) :
  (forall a, o = Ok a -> emitsBy proj ns (k a)) -> emitsBy proj ns (bind (lift o) k).
Proof.
  intros Hk w b w' E. apply bind_ok in E. destruct E as (a & w1 & E1 & E2).
  apply lift_ok in E1. destruct E1 as [-> ->]. exact (Hk a eq_refl w b w' E2).
Qed.

Lemma emitsBy_wrapErr {A} (ns : list Node) (msg : string) (m : M PS A) :
  emitsBy proj ns m -> emitsBy proj ns (wrapErr msg m).
Proof.
  intros Hm w a w' E. unfold wrapErr in E.
  destruct (m w) as [[a1|e|e] w1] eqn:Em; try discriminate.
  injection E as <- <-. exact (Hm w a1 w1 Em).
Qed.

Lemma emitsBy_defer {A} (ns : list Node) (m : M PS A) (d : PS -> PS) :
  emitsBy proj ns m -> emitsBy proj ns (defer m d).
Proof.
  intros Hm w a w' E. unfold defer in E.
  destruct (m w) as [r w1] eqn:Em. injection E as -> <-. exact (Hm w a w1 Em).
Qed.

Lemma emitsBy_publish (f : PS -> option string * PS) (r : record) (ns : list Node) :
  proj [r] = ns -> emitsBy proj ns (publish f r).
Proof.
  intros <- w a w' E. apply publish_ok in E. rewrite E, proj_app. reflexivity.
Qed.

Lemma emitsBy_adds {A} (Q : record -> Prop) (m : M PS A) :
  (forall new, Forall Q new -> proj new = []) -> adds Q m -> emitsBy proj [] m.
Proof.
  intros HQ Hm w a w' E. destruct (Hm w) as (new & En & Hnew). rewrite E in En.
  simpl in En. rewrite En, proj_app, (HQ new Hnew). reflexivity.
Qed.

End EmitsBy.

Lemma stateNodesOf_app (a b : list record) :
  stateNodesOf (a ++ b) = stateNodesOf a ++ stateNodesOf b.
Proof.
  induction a as [|[n hid tx|n hid sp tx|ch cb tx] a IH]; simpl;
    rewrite ?IH; reflexivity.
Qed.

Lemma storageNodesOf_app (a b : list record) :
  storageNodesOf (a ++ b) = storageNodesOf a ++ storageNodesOf b.
Proof.
  induction a as [|[n hid tx|n hid sp tx|ch cb tx] a IH]; simpl;
    rewrite ?IH; reflexivity.
Qed.

Lemma stateNodesOf_storage (new : list record) :
  Forall isStorageRecord new -> stateNodesOf new = [].
Proof.
  induction 1 as [|[n hid tx|n hid sp tx|ch cb tx] new Hr _ IH]; simpl;
    try contradiction; auto.
Qed.

Section NodesOfWalk.
Context {PS : Type} `{Publisher PS}.
Variable lib : EthLib.
Variable chain : Chain.

(** A leaf of the data model is what [resolveNode] classifies as [Leaf]. *)
Lemma leafAt_resolveNode (P : bytes) (it : trie) (partial value : bytes) :
  leafAt lib chain it partial value ->
  exists second,
    resolveNode lib chain P it =
    Ok (Some (mkNodeResult (mkNode Leaf P nullHash value) [IBytes partial; second])).
Proof.
  intros (Hr & Hn & b0 & second & Hd & Hb & Hnib). exists second.
  unfold resolvable in Hr. apply andb_true_iff in Hr. destruct Hr as [Hl Hz].
  apply negb_true_iff in Hl, Hz.
  unfold resolveNode. rewrite Hl, Hz, Hn, Hd.
  rewrite (CheckKeyType_two [IBytes partial; second] b0 eq_refl Hb).
  destruct Hnib as [-> | ->]; reflexivity.
Qed.

Lemma resolveNode_leafAt (P : bytes) (it : trie) (res : nodeResult) :
  resolveNode lib chain P it = Ok (Some res) -> NodeType (node res) = Leaf ->
  exists partial rest,
    elements res = IBytes partial :: rest /\
    leafAt lib chain it partial (Value (node res)) /\ Path (node res) = P.
Proof.
  intros Hres Hty. apply resolveNode_some in Hres.
  destruct Hres as [Hr (n & ty & Hn & Hd & Hk & Hnode)].
  rewrite Hnode in *. cbn [NodeType Value Path] in *. subst ty.
  unfold CheckKeyType in Hk.
  destruct (2 <? Z.of_nat (List.length (elements res))) eqn:E2; [discriminate|].
  destruct (Z.of_nat (List.length (elements res)) <? 2) eqn:E1; [discriminate|].
  apply Z.ltb_ge in E2, E1.
  destruct (elements res) as [|[[|b0 r]|l] [|second [|third tl]]] eqn:Ee;
    simpl in E1, E2; try lia; try discriminate.
  exists (b0 :: r), [second]. split; [reflexivity|]. split; [|reflexivity].
  split; [exact Hr|]. split; [exact Hn|].
  exists b0, second. split; [exact Hd|]. split; [reflexivity|].
  rewrite <- div16_high_nibble.
  destruct (div16 b0) as [|p|p]; try discriminate.
  destruct p as [[|[]|]|[|[]|]|]; try discriminate; auto.
Qed.

Lemma emitsBy_createNodeSnapshot (s : Service) (tx : Tx) (path : bytes) (it : trie)
      (headerID : string) (seekingPaths : list bytes) :
  emitsBy stateNodesOf (nodeFor lib chain path it)
          (createNodeSnapshot lib chain s tx path it headerID seekingPaths).
Proof.
  unfold createNodeSnapshot, nodeFor.
  apply emitsBy_bind_lift. intros [res|] Hres; rewrite Hres; [|apply emitsBy_ret].
  apply resolveNode_some in Hres.
  destruct Hres as [_ (n & ty & Hn & Hd & Hk & Hnode)].
  destruct res as [nd els]. cbn [node elements] in *. subst nd.
  cbn [NodeType Value].
  apply (emitsBy_bind _ [] _); [apply emitsBy_call|]. intros tx'.
  destruct ty.
  - apply emitsBy_publish; [apply stateNodesOf_app | reflexivity].
  - apply emitsBy_publish; [apply stateNodesOf_app | reflexivity].
  - apply emitsBy_bind_lift. intros e1 _.
    apply (emitsBy_bind _ [] _).
    { apply emitsBy_wrapErr. intros w a w' E. apply lift_ok in E.
      destruct E as [_ ->]. rewrite app_nil_r. reflexivity. }
    intros account. apply emitsBy_bind_lift. intros key Hkey.
    apply leafKeyOf_ok in Hkey. destruct Hkey as (partial & rest & He & ->).
    cbn [node elements Path] in *. subst els.
    rewrite <- (app_nil_r [mkNode Leaf path _ n]).
    apply emitsBy_bind.
    { apply emitsBy_publish; [apply stateNodesOf_app | reflexivity]. }
    intros _. apply (emitsBy_bind _ [] []).
    { unfold codeSnapshot.
      destruct (negb (bytes_eqb (CodeHash account) (emptyCodeHash lib)));
        [|apply emitsBy_ret].
      destruct (Z.of_nat (List.length _) =? 0); [apply emitsBy_fail|].
      apply emitsBy_publish; [apply stateNodesOf_app | reflexivity]. }
    intros _. apply (emitsBy_bind _ [] []); [|intros; apply emitsBy_ret].
    apply emitsBy_wrapErr.
    apply (emitsBy_adds _ stateNodesOf_app isStorageRecord);
      [apply stateNodesOf_storage | apply storageSnapshot_adds].
  - destruct els as [|[?|?] ?]; apply emitsBy_fail.
  - destruct els as [|[?|?] ?]; apply emitsBy_fail.
Qed.

Lemma subNodes_eq (s : Service) (seekingPaths : list bytes) (prefixPath : bytes)
      (root : trie) :
  subNodes lib chain s seekingPaths prefixPath root =
  if IsNullHash (thash root) then []
  else levelNodes lib chain s seekingPaths prefixPath (tkids root).
Proof.
  destruct root as [hash leaf kids]. simpl.
  destruct (IsNullHash hash); [reflexivity|].
  induction kids as [|[frag k] rest IH]; [reflexivity|].
  simpl. rewrite IH. reflexivity.
Qed.

Lemma emitsBy_levels (s : Service) (tx : Tx) (headerID : string)
      (seekingPaths : list bytes) (root : trie) :
  forall prefixPath,
    emitsBy stateNodesOf (subNodes lib chain s seekingPaths prefixPath root)
            (createSubTrieSnapshot lib chain s tx prefixPath root headerID seekingPaths).
Proof.
  induction root as [hash leaf kids IH] using trie_induction.
  intros prefixPath. rewrite createSubTrieSnapshot_eq, subNodes_eq. simpl.
  destruct (IsNullHash hash); [apply emitsBy_ret|].
  induction kids as [|[frag k] rest IHrest]; simpl; [apply emitsBy_ret|].
  inversion IH as [|? ? Hk Hrest]; subst.
  destruct (ignored s (prefixPath ++ frag) seekingPaths); [apply IHrest, Hrest|].
  apply emitsBy_bind; [apply emitsBy_createNodeSnapshot|]. intros _.
  apply emitsBy_bind; [apply Hk|]. intros _. apply IHrest, Hrest.
Qed.

Lemma emitsBy_levelLoop (s : Service) (tx : Tx) (headerID : string)
      (seekingPaths : list bytes) (prefixPath : bytes) (kids : list (bytes * trie)) :
  emitsBy stateNodesOf (levelNodes lib chain s seekingPaths prefixPath kids)
          (levelLoop lib chain s tx prefixPath kids headerID seekingPaths).
Proof.
  induction kids as [|[frag k] rest IH]; simpl; [apply emitsBy_ret|].
  destruct (ignored s (prefixPath ++ frag) seekingPaths); [apply IH|].
  apply emitsBy_bind; [apply emitsBy_createNodeSnapshot|]. intros _.
  apply emitsBy_bind; [apply emitsBy_levels|]. intros _. apply IH.
Qed.

Lemma emitsBy_createSnapshot (s : Service) (root : trie) (headerID : string)
      (seekingPaths : list bytes) :
  emitsBy stateNodesOf
          (nodeFor lib chain [] root
           ++ levelNodes lib chain s seekingPaths [] (tkids root))
          (createSnapshot lib chain s root headerID seekingPaths).
Proof.
  unfold createSnapshot.
  apply (emitsBy_bind _ [] _); [apply emitsBy_call|]. intros tx.
  apply emitsBy_defer, emitsBy_bind; [apply emitsBy_createNodeSnapshot|].
  intros _. apply emitsBy_levelLoop.
Qed.

Lemma In_levelNodes (s : Service) (seekingPaths : list bytes) (prefixPath : bytes)
      (kids : list (bytes * trie)) (n : Node) :
  In n (levelNodes lib chain s seekingPaths prefixPath kids) <->
  exists frag k,
    In (frag, k) kids /\
    ignored s (prefixPath ++ frag) seekingPaths = false /\
    (In n (nodeFor lib chain (prefixPath ++ frag) k) \/
     In n (subNodes lib chain s seekingPaths (prefixPath ++ frag) k)).
Proof.
  induction kids as [|[frag k] rest IH]; simpl.
  - split; [intros [] | intros (frag & k & [] & _)].
  - destruct (ignored s (prefixPath ++ frag) seekingPaths) eqn:Eig.
    + rewrite IH. split.
      * intros (f & k' & Hin & Hrest). exists f, k'. auto.
      * intros (f & k' & [E | Hin] & Hig & Hrest).
        -- injection E as <- <-. congruence.
        -- exists f, k'. auto.
    + rewrite !in_app_iff, IH. split.
      * intros [Hn | [Hs | (f & k' & Hin & Hrest)]].
        -- exists frag, k. auto.
        -- exists frag, k. auto.
        -- exists f, k'. auto.
      * intros (f & k' & [E | Hin] & Hig & Hrest).
        -- injection E as <- <-. destruct Hrest; auto.
        -- right. right. exists f, k'. auto.
Qed.

Lemma below_In_levelNodes (s : Service) (seekingPaths : list bytes)
      (prefixPath : bytes) (t : trie) (P : bytes) (it : trie) (n : Node) :
  below prefixPath t P it -> ignored s P seekingPaths = false ->
  In n (nodeFor lib chain P it) ->
  In n (levelNodes lib chain s seekingPaths prefixPath (tkids t)).
Proof.
  induction 1 as [prefix t frag k Hk | prefix t frag k P it Hk Hnz Hb IH];
    intros Hig Hn; apply In_levelNodes; exists frag, k.
  - split; [exact Hk|]. split; [exact Hig|]. left. exact Hn.
  - split; [exact Hk|]. split.
    + exact (ignored_prefix s _ _ _ (below_prefix _ _ _ _ Hb) Hig).
    + right. rewrite subNodes_eq, Hnz. exact (IH Hig Hn).
Qed.

(** The loop below a position publishes exactly the nodes of the positions
    below it that are not ignored. *)
Lemma In_levelNodes_below (s : Service) (seekingPaths : list bytes) (t : trie) :
  forall prefixPath n,
    In n (levelNodes lib chain s seekingPaths prefixPath (tkids t)) <->
    exists P it, below prefixPath t P it /\ ignored s P seekingPaths = false /\
                 In n (nodeFor lib chain P it).
Proof.
  induction t as [hash leaf kids IH] using trie_induction.
  intros prefixPath n. split.
  - simpl tkids. intros Hin. apply In_levelNodes in Hin.
    destruct Hin as (frag & k & Hk & Hig & [Hn | Hs]).
    + exists (prefixPath ++ frag), k.
      split; [apply below_kid; exact Hk | auto].
    + rewrite subNodes_eq in Hs.
      destruct (IsNullHash (thash k)) eqn:Enull; [destruct Hs|].
      rewrite Forall_forall in IH. apply (IH (frag, k) Hk) in Hs.
      destruct Hs as (P & it & Hb & Hign & Hn).
      exists P, it. split; [|auto].
      exact (below_deeper prefixPath (TrieNode hash leaf kids) frag k P it
                          Hk Enull Hb).
  - intros (P & it & Hb & Hig & Hn).
    exact (below_In_levelNodes s _ _ _ _ _ _ Hb Hig Hn).
Qed.

(** The nodes of a successful walk are those of the positions it goes
    through. *)
Lemma In_walk_nodes (s : Service) (seekingPaths : list bytes) (root : trie)
      (n : Node) :
  In n (nodeFor lib chain [] root
        ++ levelNodes lib chain s seekingPaths [] (tkids root)) <->
  exists P it, walked s seekingPaths root P it /\ In n (nodeFor lib chain P it).
Proof.
  rewrite in_app_iff, In_levelNodes_below. unfold walked. split.
  - intros [Hn | (P & it & Hb & Hig & Hn)].
    + exists [], root. auto.
    + exists P, it. auto.
  - intros (P & it & [[-> ->] | [Hb Hig]] & Hn).
    + left. exact Hn.
    + right. exists P, it. auto.
Qed.

(** The node of a leaf of the data model, and the positions whose node is a
    leaf. *)
Lemma nodeFor_leafAt (P : bytes) (it : trie) (partial value : bytes) :
  leafAt lib chain it partial value ->
  nodeFor lib chain P it = [leafNodeOf lib P partial value].
Proof.
  intros Hl. destruct (leafAt_resolveNode P it partial value Hl) as (second & Hres).
  unfold nodeFor. rewrite Hres. reflexivity.
Qed.

Lemma nodeFor_leaf (P : bytes) (it : trie) (n : Node) :
  In n (nodeFor lib chain P it) -> NodeType n = Leaf ->
  exists partial value,
    leafAt lib chain it partial value /\ n = leafNodeOf lib P partial value.
Proof.
  unfold nodeFor.
  destruct (resolveNode lib chain P it) as [[res|]|e|e] eqn:Hres;
    try (intros []).
  intros Hin Hty.
  destruct (NodeType (node res)) eqn:Ety.
  - destruct Hin as [<- | []]. discriminate.
  - destruct Hin as [<- | []]. discriminate.
  - destruct (resolveNode_leafAt P it res Hres Ety)
      as (partial & rest & He & Hl & Hp).
    rewrite He in Hin. destruct Hin as [<- | []].
    exists partial, (Value (node res)). split; [exact Hl | reflexivity].
  - destruct (elements res) as [|[?|?] ?]; destruct Hin.
  - destruct (elements res) as [|[?|?] ?]; destruct Hin.
Qed.

(** One turn of the storage loop publishes the node of its position. *)
Lemma emitsBy_storageStep (s : Service) (headerID : string) (statePath : bytes)
      (tx : Tx) (path : bytes) (it : trie) :
  emitsBy storageNodesOf (nodeFor lib chain path it)
          (storageStep lib chain s headerID statePath tx (path, it)).
Proof.
  unfold storageStep, nodeFor.
  apply emitsBy_bind_lift. intros [res|] Hres; rewrite Hres; [|apply emitsBy_ret].
  apply resolveNode_some in Hres.
  destruct Hres as [_ (n & ty & Hn & Hd & Hk & Hnode)].
  destruct res as [nd els]. cbn [node elements] in *. subst nd.
  cbn [NodeType Value].
  apply (emitsBy_bind _ [] _); [apply emitsBy_call|]. intros tx'.
  apply emitsBy_bind_lift. intros nodeData Hnd.
  assert (nodeData = n) as -> by congruence.
  cbn [setValue NodeType Path Key Value].
  destruct ty.
  - rewrite <- (app_nil_r [mkNode Branch path _ n]).
    apply emitsBy_bind; [|intros; apply emitsBy_ret].
    apply emitsBy_publish; [apply storageNodesOf_app | reflexivity].
  - rewrite <- (app_nil_r [mkNode Extension path _ n]).
    apply emitsBy_bind; [|intros; apply emitsBy_ret].
    apply emitsBy_publish; [apply storageNodesOf_app | reflexivity].
  - apply emitsBy_bind_lift. intros key Hkey.
    apply leafKeyOf_ok in Hkey. destruct Hkey as (partial & rest & He & ->).
    cbn [node elements Path] in *. subst els.
    rewrite <- (app_nil_r [mkNode Leaf path _ n]).
    apply emitsBy_bind; [|intros; apply emitsBy_ret].
    apply emitsBy_publish; [apply storageNodesOf_app | reflexivity].
  - destruct els as [|[?|?] ?]; apply emitsBy_fail.
  - destruct els as [|[?|?] ?]; apply emitsBy_fail.
Qed.

Lemma emitsBy_storageLoop (s : Service) (headerID : string) (statePath : bytes)
      (positions : list (bytes * trie)) (tx : Tx) :
  emitsBy storageNodesOf
          (flat_map (fun pos => nodeFor lib chain (fst pos) (snd pos)) positions)
          (storageLoop lib chain s headerID statePath tx positions).
Proof.
  revert tx. induction positions as [|[path it] rest IH]; intros tx; simpl.
  - apply emitsBy_ret.
  - apply emitsBy_bind; [apply emitsBy_storageStep | intros tx'; apply IH].
Qed.

Lemma emitsBy_storageSnapshot (s : Service) (sr : bytes) (headerID : string)
      (statePath : bytes) (tx : Tx) (t : trie) :
  sr <> emptyContractRoot lib -> OpenStorageTrie chain sr = Ok (Some t) ->
  emitsBy storageNodesOf
          (flat_map (fun pos => nodeFor lib chain (fst pos) (snd pos))
                    (preorder [] t))
          (storageSnapshot lib chain s sr headerID statePath tx).
Proof.
  intros Hsr Ht. unfold storageSnapshot.
  apply bytes_eqb_neq in Hsr. rewrite Hsr, Ht.
  apply emitsBy_bind_lift. intros sTrie E. injection E as <-.
  apply emitsBy_storageLoop.
Qed.

End NodesOfWalk.

(** C4. Every leaf node, in the state trie or in a storage trie, is published
    with the leaf key of the data model.  A walk of the state trie that
    succeeds publishes, for every position it goes through that is a leaf
    (two elements, high nibble of the first byte 2 or 3), the state node of
    type [Leaf] at its path whose key is [BytesToHash (compact[1:])], where
    [compact] is [HexToCompact (path ++ CompactToHex partial)] and [partial]
    is the first element; and every state node of type [Leaf] it publishes
    is the node of such a position.  The same holds for the storage nodes of
    a storage walk over the positions of the storage trie.  Whether or not
    the walk succeeds, a published node of type [Leaf] has this key.  With
    [common.BytesToHash] the key has 32 bytes. *)
Theorem C4_leaf_key {PS : Type} `{Publisher PS} (lib : EthLib) (chain : Chain)
        (s : Service) (headerID : string) :
  (forall (root : trie) (seekingPaths : list bytes) (w w' : wstate PS),
     createSnapshot lib chain s root headerID seekingPaths w = (Ok tt, w') ->
     exists emitted,
       stateNodesOf (published w') = stateNodesOf (published w) ++ emitted /\
       (forall P it partial value,
          walked s seekingPaths root P it -> leafAt lib chain it partial value ->
          In (leafNodeOf lib P partial value) emitted) /\
       (forall n, In n emitted -> NodeType n = Leaf ->
          exists P it partial value,
            walked s seekingPaths root P it /\ leafAt lib chain it partial value /\
            n = leafNodeOf lib P partial value)) /\
  (forall (sr statePath : bytes) (tx tx' : Tx) (t : trie) (w w' : wstate PS),
     sr <> emptyContractRoot lib -> OpenStorageTrie chain sr = Ok (Some t) ->
     storageSnapshot lib chain s sr headerID statePath tx w = (Ok tx', w') ->
     exists emitted,
       storageNodesOf (published w') = storageNodesOf (published w) ++ emitted /\
       (forall P it partial value,
          In (P, it) (preorder [] t) -> leafAt lib chain it partial value ->
          In (leafNodeOf lib P partial value) emitted) /\
       (forall n, In n emitted -> NodeType n = Leaf ->
          exists P it partial value,
            In (P, it) (preorder [] t) /\ leafAt lib chain it partial value /\
            n = leafNodeOf lib P partial value)) /\
  (forall (root : trie) (seekingPaths : list bytes) (w : wstate PS),
     Forall (recordKeyed lib) (published w) ->
     Forall (recordKeyed lib)
            (published (snd (createSnapshot lib chain s root headerID
                                            seekingPaths w)))) /\
  (forall (sr statePath : bytes) (tx : Tx) (w : wstate PS),
     Forall (recordKeyed lib) (published w) ->
     Forall (recordKeyed lib)
            (published (snd (storageSnapshot lib chain s sr headerID statePath
                                             tx w)))) /\
  (BytesToHash lib = Geth.BytesToHash ->
   forall P partial value,
     List.length (Key (leafNodeOf lib P partial value)) = 32%nat).
Proof.
  split; [|split; [|split; [|split]]].
  - intros root seekingPaths w w' Hrun.
    exists (nodeFor lib chain [] root
            ++ levelNodes lib chain s seekingPaths [] (tkids root)).
    split; [exact (emitsBy_createSnapshot lib chain s root headerID seekingPaths
                                          w tt w' Hrun)|].
    split.
    + intros P it partial value Hw Hl. apply In_walk_nodes. exists P, it.
      split; [exact Hw|]. rewrite (nodeFor_leafAt lib chain P it partial value Hl).
      left. reflexivity.
    + intros n Hin Hty. apply In_walk_nodes in Hin.
      destruct Hin as (P & it & Hw & Hn).
      destruct (nodeFor_leaf lib chain P it n Hn Hty) as (partial & value & Hl & ->).
      exists P, it, partial, value. auto.
  - intros sr statePath tx tx' t w w' Hsr Ht Hrun.
    exists (flat_map (fun pos => nodeFor lib chain (fst pos) (snd pos))
                     (preorder [] t)).
    split; [exact (emitsBy_storageSnapshot lib chain s sr headerID statePath tx t
                                           Hsr Ht w tx' w' Hrun)|].
    split.
    + intros P it partial value Hpos Hl. apply in_flat_map. exists (P, it).
      split; [exact Hpos|]. cbn [fst snd].
      rewrite (nodeFor_leafAt lib chain P it partial value Hl). left. reflexivity.
    + intros n Hin Hty. apply in_flat_map in Hin.
      destruct Hin as ([P it] & Hpos & Hn). cbn [fst snd] in Hn.
      destruct (nodeFor_leaf lib chain P it n Hn Hty) as (partial & value & Hl & ->).
      exists P, it, partial, value. auto.
  - intros root seekingPaths w. apply keyed_createSnapshot.
  - intros sr statePath tx w. apply keyed_storageSnapshot.
  - intros Hb P partial value. unfold leafNodeOf, leaf_key. cbn [Key].
    rewrite Hb. apply BytesToHash_length.
Qed.

(** In the small world the account at [3], whose first element is [52], is
    published as the leaf with the key [0x34]; the slot at the root of its
    storage trie, whose first element [53] holds the single nibble 5, as the
    leaf whose [compact[1:]] is empty. *)
Lemma C4_leaf_key_witness :
  (exists emitted,
     stateNodesOf
       (published (snd (createSnapshot Fixture.lib Fixture.chain
                          (Fixture.service false) Fixture.stateTrie "hid" []
                          Fixture.w0)))
     = stateNodesOf (published Fixture.w0) ++ emitted /\
     In (mkNode Leaf [3] (Geth.BytesToHash [52]) [2; 1; 52; 7; 9]) emitted) /\
  (exists emitted,
     storageNodesOf
       (published (snd (storageSnapshot Fixture.lib Fixture.chain
                          (Fixture.service false) (Fixture.h 9) "hid" [1; 3] 0%nat
                          Fixture.w0)))
     = storageNodesOf (published Fixture.w0) ++ emitted /\
     In (mkNode Leaf [] (Geth.BytesToHash []) [2; 1; 53; 1]) emitted).
Proof.
  destruct (C4_leaf_key Fixture.lib Fixture.chain (Fixture.service false) "hid")
    as (Hstate & Hstorage & _).
  split.
  - assert (createSnapshot Fixture.lib Fixture.chain (Fixture.service false)
                           Fixture.stateTrie "hid" [] Fixture.w0
            = (Ok tt, snd (createSnapshot Fixture.lib Fixture.chain
                             (Fixture.service false) Fixture.stateTrie "hid" []
                             Fixture.w0))) as Hrun
      by (vm_compute; reflexivity).
    destruct (Hstate _ _ _ _ Hrun) as (emitted & He & Hfw & _).
    exists emitted. split; [exact He|].
    apply (Hfw [3] Fixture.leafB [52] [2; 1; 52; 7; 9]).
    + right. split; [|reflexivity].
      apply (below_kid [] Fixture.stateTrie [3] Fixture.leafB).
      right. left. reflexivity.
    + split; [reflexivity|]. split; [reflexivity|].
      exists 52, (IBytes [7; 9]). split; [reflexivity|]. split; [reflexivity|].
      right. reflexivity.
  - assert (storageSnapshot Fixture.lib Fixture.chain (Fixture.service false)
                            (Fixture.h 9) "hid" [1; 3] 0%nat Fixture.w0
            = (Ok 0%nat, snd (storageSnapshot Fixture.lib Fixture.chain
                                (Fixture.service false) (Fixture.h 9) "hid" [1; 3]
                                0%nat Fixture.w0))) as Hrun
      by (vm_compute; reflexivity).
    destruct (Hstorage (Fixture.h 9) [1; 3] 0%nat 0%nat Fixture.storageTrie _ _
                ltac:(vm_compute; discriminate) eq_refl Hrun)
      as (emitted & He & Hfw & _).
    exists emitted. split; [exact He|].
    apply (Hfw [] Fixture.storageTrie [53] [2; 1; 53; 1]).
    + left. reflexivity.
    + split; [reflexivity|]. split; [reflexivity|].
      exists 53, (IBytes [1]). split; [reflexivity|]. split; [reflexivity|].
      right. reflexivity.
Defined.

(** * What a walk publishes when it fails *)

Section Within.
Context {PS : Type} `{Publisher PS}.
Variable proj : list record -> list Node.
Hypothesis proj_app : forall a b, proj (a ++ b) = proj a ++ proj b.

Lemma within_nothing {A} (ns : list Node) (m : M PS A) :
  (forall w, published (snd (m w)) = published w) -> emitsWithin proj ns m.
Proof.
  intros Hm w. exists [], ns. rewrite Hm, app_nil_r. split; reflexivity.
Qed.

Lemma within_ret {A} (ns : list Node) (a : A) : emitsWithin (PS := PS) proj ns (ret a).
Proof. apply within_nothing. reflexivity. Qed.

Lemma within_fail {A} (ns : list Node) (msg : string) :
  emitsWithin (PS := PS) (A := A) proj ns (fail msg).
Proof. apply within_nothing. reflexivity. Qed.

Lemma within_lift {A} (ns : list Node) (o : outcome A) :
  emitsWithin (PS := PS) proj ns (lift o).
Proof. apply within_nothing. reflexivity. Qed.

Lemma within_call {A} (ns : list Node) (f : PS -> outcome A * PS) :
  emitsWithin proj ns (call f).
Proof. apply within_nothing. apply call_published. Qed.

Lemma within_bind {A B} (n1 n2 : list Node) (m : M PS A) (k : A -> M PS B) :
  emitsBy proj n1 m -> emitsWithin proj n1 m ->
  (forall a, emitsWithin proj n2 (k a)) ->
  emitsWithin proj (n1 ++ n2) (bind m k).
Proof.
  intros Hby Hm Hk w. unfold bind.
  destruct (m w) as [[a|e|e] w1] eqn:Em.
  - destruct (Hk a w1) as (done & rest & Hd & Hn).
    exists (n1 ++ done), rest.
    rewrite Hd, (Hby w a w1 Em), Hn, !app_assoc. split; reflexivity.
  - destruct (Hm w) as (done & rest & Hd & Hn). rewrite Em in Hd.
    exists done, (rest ++ n2). simpl in *. rewrite Hd, Hn, app_assoc.
    split; reflexivity.
  - destruct (Hm w) as (done & rest & Hd & Hn). rewrite Em in Hd.
    exists done, (rest ++ n2). simpl in *. rewrite Hd, Hn, app_assoc.
    split; reflexivity.
Qed.

Lemma within_bind_lift {A B} (ns : list Node) (o : outcome A) (k : A -> M PS B) :
  (forall a, o = Ok a -> emitsWithin proj ns (k a)) ->
  emitsWithin proj ns (bind (lift o) k).
Proof.
  intros Hk w. unfold bind, lift. destruct o as [a|e|e].
  - exact (Hk a eq_refl w).
  - exists [], ns. simpl. rewrite app_nil_r. split; reflexivity.
  - exists [], ns. simpl. rewrite app_nil_r. split; reflexivity.
Qed.

Lemma within_wrapErr {A} (ns : list Node) (msg : string) (m : M PS A) :
  emitsWithin proj ns m -> emitsWithin proj ns (wrapErr msg m).
Proof.
  intros Hm w. destruct (Hm w) as (done & rest & Hd & Hn).
  exists done, rest. split; [|exact Hn]. unfold wrapErr.
  destruct (m w) as [[a|e|e] w1]; exact Hd.
Qed.

Lemma within_defer {A} (ns : list Node) (m : M PS A) (d : PS -> PS) :
  emitsWithin proj ns m -> emitsWithin proj ns (defer m d).
Proof.
  intros Hm w. destruct (Hm w) as (done & rest & Hd & Hn).
  exists done, rest. split; [|exact Hn]. unfold defer.
  destruct (m w) as [r w1]. exact Hd.
Qed.

Lemma within_publish (f : PS -> option string * PS) (r : record) (ns : list Node) :
  proj [r] = ns -> emitsWithin proj ns (publish f r).
Proof.
  intros <- w. unfold publish. destruct (f (pubst w)) as [[e|] p]; simpl.
  - exists [], (proj [r]). rewrite app_nil_r. split; reflexivity.
  - exists (proj [r]), []. rewrite proj_app, app_nil_r. split; reflexivity.
Qed.

Lemma within_adds {A} (Q : record -> Prop) (ns : list Node) (m : M PS A) :
  (forall new, Forall Q new -> proj new = []) -> adds Q m -> emitsWithin proj ns m.
Proof.
  intros HQ Hm w. destruct (Hm w) as (new & En & Hnew).
  exists [], ns. rewrite En, proj_app, (HQ new Hnew). split; reflexivity.
Qed.

End Within.

Section WithinWalk.
Context {PS : Type} `{Publisher PS}.
Variable lib : EthLib.
Variable chain : Chain.

Lemma emitsBy_codeSnapshot (account : StateAccount) (tx : Tx) :
  emitsBy stateNodesOf [] (codeSnapshot lib chain account tx).
Proof.
  unfold codeSnapshot.
  destruct (negb (bytes_eqb (CodeHash account) (emptyCodeHash lib)));
    [|apply emitsBy_ret].
  destruct (Z.of_nat (List.length _) =? 0); [apply emitsBy_fail|].
  apply emitsBy_publish; [apply stateNodesOf_app | reflexivity].
Qed.

Lemma within_codeSnapshot (account : StateAccount) (tx : Tx) :
  emitsWithin stateNodesOf [] (codeSnapshot lib chain account tx).
Proof.
  unfold codeSnapshot.
  destruct (negb (bytes_eqb (CodeHash account) (emptyCodeHash lib)));
    [|apply within_ret].
  destruct (Z.of_nat (List.length _) =? 0); [apply within_fail|].
  apply within_publish; [apply stateNodesOf_app | reflexivity].
Qed.

Lemma within_createNodeSnapshot (s : Service) (tx : Tx) (path : bytes) (it : trie)
      (headerID : string) (seekingPaths : list bytes) :
  emitsWithin stateNodesOf (nodeFor lib chain path it)
              (createNodeSnapshot lib chain s tx path it headerID seekingPaths).
Proof.
  unfold createNodeSnapshot, nodeFor.
  apply within_bind_lift. intros [res|] Hres; rewrite Hres; [|apply within_ret].
  apply resolveNode_some in Hres.
  destruct Hres as [_ (n & ty & Hn & Hd & Hk & Hnode)].
  destruct res as [nd els]. cbn [node elements] in *. subst nd.
  cbn [NodeType Value].
  apply (within_bind _ [] _); [apply emitsBy_call | apply within_call |].
  intros tx'.
  destruct ty.
  - apply within_publish; [apply stateNodesOf_app | reflexivity].
  - apply within_publish; [apply stateNodesOf_app | reflexivity].
  - apply within_bind_lift. intros e1 _.
    apply (within_bind _ [] _).
    { apply emitsBy_wrapErr. intros w a w' E. apply lift_ok in E.
      destruct E as [_ ->]. rewrite app_nil_r. reflexivity. }
    { apply within_wrapErr, within_lift. }
    intros account. apply within_bind_lift. intros key Hkey.
    apply leafKeyOf_ok in Hkey. destruct Hkey as (partial & rest & He & ->).
    cbn [node elements Path] in *. subst els.
    rewrite <- (app_nil_r [mkNode Leaf path _ n]).
    apply within_bind.
    { apply emitsBy_publish; [apply stateNodesOf_app | reflexivity]. }
    { apply within_publish; [apply stateNodesOf_app | reflexivity]. }
    intros _. apply (within_bind _ [] []);
      [apply emitsBy_codeSnapshot | apply within_codeSnapshot |].
    intros _. apply (within_bind _ [] []); [| |intros; apply within_ret].
    + apply emitsBy_wrapErr.
      apply (emitsBy_adds _ stateNodesOf_app isStorageRecord);
        [apply stateNodesOf_storage | apply storageSnapshot_adds].
    + apply within_wrapErr.
      apply (within_adds _ stateNodesOf_app isStorageRecord);
        [apply stateNodesOf_storage | apply storageSnapshot_adds].
  - destruct els as [|[?|?] ?]; apply within_fail.
  - destruct els as [|[?|?] ?]; apply within_fail.
Qed.

Lemma within_levels (s : Service) (tx : Tx) (headerID : string)
      (seekingPaths : list bytes) (root : trie) :
  forall prefixPath,
    emitsWithin stateNodesOf (subNodes lib chain s seekingPaths prefixPath root)
                (createSubTrieSnapshot lib chain s tx prefixPath root headerID
                                       seekingPaths).
Proof.
  induction root as [hash leaf kids IH] using trie_induction.
  intros prefixPath. rewrite createSubTrieSnapshot_eq, subNodes_eq. simpl.
  destruct (IsNullHash hash); [apply within_ret|].
  induction kids as [|[frag k] rest IHrest]; simpl; [apply within_ret|].
  inversion IH as [|? ? Hk Hrest]; subst.
  destruct (ignored s (prefixPath ++ frag) seekingPaths); [apply IHrest, Hrest|].
  apply within_bind;
    [apply emitsBy_createNodeSnapshot | apply within_createNodeSnapshot |].
  intros _. apply within_bind; [apply emitsBy_levels | apply Hk |].
  intros _. apply IHrest, Hrest.
Qed.

Lemma within_levelLoop (s : Service) (tx : Tx) (headerID : string)
      (seekingPaths : list bytes) (prefixPath : bytes) (kids : list (bytes * trie)) :
  emitsWithin stateNodesOf (levelNodes lib chain s seekingPaths prefixPath kids)
              (levelLoop lib chain s tx prefixPath kids headerID seekingPaths).
Proof.
  induction kids as [|[frag k] rest IH]; simpl; [apply within_ret|].
  destruct (ignored s (prefixPath ++ frag) seekingPaths); [apply IH|].
  apply within_bind;
    [apply emitsBy_createNodeSnapshot | apply within_createNodeSnapshot |].
  intros _. apply within_bind; [apply emitsBy_levels | apply within_levels |].
  intros _. apply IH.
Qed.

Lemma within_createSnapshot (s : Service) (root : trie) (headerID : string)
      (seekingPaths : list bytes) :
  emitsWithin stateNodesOf
              (nodeFor lib chain [] root
               ++ levelNodes lib chain s seekingPaths [] (tkids root))
              (createSnapshot lib chain s root headerID seekingPaths).
Proof.
  unfold createSnapshot.
  apply (within_bind _ [] _); [apply emitsBy_call | apply within_call |].
  intros tx. apply within_defer.
  apply within_bind;
    [apply emitsBy_createNodeSnapshot | apply within_createNodeSnapshot |].
  intros _. apply within_levelLoop.
Qed.

(** The node published for a position has its path, and the position can be
    resolved. *)
Lemma nodeFor_path (P : bytes) (it : trie) (n : Node) :
  In n (nodeFor lib chain P it) -> Path n = P /\ resolvable it = true.
Proof.
  unfold nodeFor.
  destruct (resolveNode lib chain P it) as [[res|]|e|e] eqn:Hres;
    try (intros []).
  apply resolveNode_some in Hres. destruct Hres as [Hr _].
  destruct (NodeType (node res)); destruct (elements res) as [|[?|?] ?];
    simpl; intros Hin; try destruct Hin as [<- | []]; try contradiction; auto.
Qed.

End WithinWalk.

Lemma statePaths_nodes (rs : list record) :
  statePaths rs = map Path (stateNodesOf rs).
Proof.
  induction rs as [|[n hid tx|n hid sp tx|ch cb tx] rs IH]; simpl;
    rewrite ?IH; reflexivity.
Qed.

(** ** Paths of nibbles and watched paths with the terminator *)

Lemma isNibbleb_spec (x : Z) : isNibbleb x = true <-> isNibble x.
Proof. unfold isNibbleb, isNibble. lia. Qed.

Lemma below_has_kids (prefix : bytes) (t : trie) (P : bytes) (n : trie) :
  below prefix t P n -> tkids t <> [].
Proof.
  induction 1 as [prefix t frag k Hin | prefix t frag k P n Hin Hnz Hb IH];
    intros E; rewrite E in Hin; destruct Hin.
Qed.

Lemma nibbleTrie_kid (t : trie) (frag : bytes) (k : trie) :
  nibbleTrie t = true -> In (frag, k) (tkids t) ->
  (tleaf k = true /\ tkids k = []) \/
  (Forall isNibble frag /\ nibbleTrie k = true).
Proof.
  destruct t as [hash leaf kids]. simpl.
  induction kids as [|[frag' k'] rest IH]; [intros _ []|].
  intros Hn [E | Hin].
  - injection E as -> ->. apply andb_true_iff in Hn. destruct Hn as [Hn _].
    apply orb_true_iff in Hn. destruct Hn as [Hn | Hn].
    + apply andb_true_iff in Hn. destruct Hn as [Hl Hk]. left.
      split; [exact Hl|]. destruct (tkids k); [reflexivity | discriminate].
    + apply andb_true_iff in Hn. destruct Hn as [Hf Hk]. right.
      split; [|exact Hk]. apply Forall_forall. intros x Hx.
      apply isNibbleb_spec. rewrite forallb_forall in Hf. exact (Hf x Hx).
  - apply andb_true_iff in Hn. destruct Hn as [_ Hn]. exact (IH Hn Hin).
Qed.

Lemma nibbleTrie_below (prefix : bytes) (t : trie) (P : bytes) (n : trie) :
  below prefix t P n -> nibbleTrie t = true -> Forall isNibble prefix ->
  resolvable n = true -> Forall isNibble P.
Proof.
  induction 1 as [prefix t frag k Hin | prefix t frag k P n Hin Hnz Hb IH];
    intros Ht Hp Hr.
  - destruct (nibbleTrie_kid t frag k Ht Hin) as [[Hl _] | [Hf _]].
    + unfold resolvable in Hr. rewrite Hl in Hr. discriminate.
    + apply Forall_app. split; assumption.
  - destruct (nibbleTrie_kid t frag k Ht Hin) as [[_ Hk] | [Hf Hk]].
    + elim (below_has_kids _ _ _ _ Hb Hk).
    + apply IH; [exact Hk | apply Forall_app; split; assumption | exact Hr].
Qed.

(** A trie that passes the test has paths of nibbles. *)
Lemma nibbleTrie_nibblePaths (root : trie) :
  nibbleTrie root = true -> nibblePaths root.
Proof.
  intros Ht P (n & [[-> ->] | Hb] & Hr); [constructor|].
  exact (nibbleTrie_below [] root P n Hb Ht (Forall_nil _) Hr).
Qed.

(** The paths [keybytesToHex] makes carry the terminator. *)
Lemma keybytesToHex_terminated (keys : list bytes) :
  terminated (map Geth.keybytesToHex keys).
Proof.
  intros wp Hin. apply in_map_iff in Hin. destruct Hin as (key & <- & _).
  unfold Geth.keybytesToHex. apply in_or_app. right. left. reflexivity.
Qed.

(** No path of nibbles extends a path with the terminator. *)
Lemma nibbles_below_no_terminator (seekingPaths : list bytes) (P wp : bytes) :
  terminated seekingPaths -> Forall isNibble P -> In wp seekingPaths ->
  ~ isPrefixOf wp P.
Proof.
  intros Hterm HP Hin [rest ->]. rewrite Forall_forall in HP.
  assert (isNibble 16) as Hbad
    by (apply HP, in_or_app; left; exact (Hterm wp Hin)).
  unfold isNibble in Hbad. lia.
Qed.

Section WatchedRestriction.
Context {PS : Type} `{Publisher PS}.
Variable lib : EthLib.
Variable chain : Chain.

(** C1. Let the watched paths carry the terminator, as the paths
    [CreateSnapshot] computes do, and let the paths of the state nodes be
    made of nibbles.  Whether the walk succeeds or not, every state node it
    publishes is at the path [P] of a state node that can be reached and
    resolved, and, with a non-empty watched set, some watched path has [P]
    as a prefix.  When the walk succeeds, with a non-empty watched set a
    state node at [P] is published if and only if some watched path has [P]
    as a prefix or [P] has some watched path as a prefix; and with an empty
    watched set every state node is published. *)
Theorem C1_watched_restriction (s : Service) (root : trie) (headerID : string)
        (seekingPaths : list bytes) (w : wstate PS) :
  watchingAddresses s = (0 <? Z.of_nat (List.length seekingPaths)) ->
  terminated seekingPaths ->
  nibblePaths root ->
  let out := createSnapshot lib chain s root headerID seekingPaths w in
  exists emitted,
    statePaths (published (snd out)) = statePaths (published w) ++ emitted /\
    (forall P, In P emitted ->
       stateNodeAt root P /\
       (seekingPaths = [] \/ exists wp, In wp seekingPaths /\ isPrefixOf P wp)) /\
    (fst out = Ok tt ->
       (seekingPaths <> [] ->
        forall P, stateNodeAt root P ->
          (In P emitted <->
           (exists wp, In wp seekingPaths /\ isPrefixOf P wp) \/
           (exists wp, In wp seekingPaths /\ isPrefixOf wp P))) /\
       (seekingPaths = [] -> forall P, stateNodeAt root P -> In P emitted)).
Proof.
  intros Hw Hterm Hnib out.
  destruct (within_createSnapshot lib chain s root headerID seekingPaths w)
    as (done & rest & Hd & Hn).
  fold out in Hd. exists (map Path done). split; [|split].
  - rewrite !statePaths_nodes, Hd, map_app. reflexivity.
  - intros P Hin. apply in_map_iff in Hin. destruct Hin as (n & <- & Hin).
    assert (In n (nodeFor lib chain [] root
                  ++ levelNodes lib chain s seekingPaths [] (tkids root))) as Hex
      by (rewrite Hn; apply in_or_app; left; exact Hin).
    apply In_walk_nodes in Hex. destruct Hex as (P & it & Hwalk & Hnode).
    apply nodeFor_path in Hnode. destruct Hnode as [-> Hr].
    destruct Hwalk as [[-> ->] | [Hb Hig]].
    + split; [exists root; split; [left; auto | exact Hr]|].
      destruct seekingPaths as [|w0 tl]; [left; reflexivity|].
      right. exists w0. split; [left; reflexivity | exists w0; reflexivity].
    + split; [exists it; split; [right; exact Hb | exact Hr]|].
      apply (ignored_false_iff s seekingPaths P Hw), Hig.
  - intros Hok.
    assert (createSnapshot lib chain s root headerID seekingPaths w
            = (Ok tt, snd out)) as Hrun
      by (unfold out in *; destruct (createSnapshot _ _ _ _ _ _ _) as [r w1];
          simpl in *; subst r; reflexivity).
    pose proof (emits_createSnapshot lib chain s root headerID seekingPaths
                  w tt (snd out) Hrun) as Hem.
    rewrite !statePaths_nodes, Hd, map_app in Hem.
    apply app_inv_head in Hem.
    split.
    + intros Hne P HP. rewrite Hem, (In_walk_paths s root seekingPaths P Hw).
      split.
      * intros [_ [E | Hex]]; [contradiction | left; exact Hex].
      * intros [Hex | (wp & Hin & Hp)].
        -- split; [exact HP | right; exact Hex].
        -- elim (nibbles_below_no_terminator seekingPaths P wp Hterm
                   (Hnib P HP) Hin Hp).
    + intros -> P HP. rewrite Hem. apply (In_walk_paths s root [] P Hw).
      split; [exact HP | left; reflexivity].
Qed.

End WatchedRestriction.

(** On the deeper trie of the small world, watching the key [0x12 0x20] and
    with a batch of four rows, so that the walk rotates the transaction
    once: it succeeds and publishes the state nodes at [], [1] and [1; 2],
    the prefixes of the watched path.  With nothing watched and the code of
    the second account lost, the walk fails at [1; 7]: what it published
    before are state nodes of the trie. *)
Lemma C1_watched_restriction_witness :
  let W := map Geth.keybytesToHex [[18; 32]] in
  let out := createSnapshot Fixture.lib Fixture.chain (mkService true 4)
               Fixture.deepTrie "hid" W Fixture.w0 in
  let failed := createSnapshot Fixture.lib Fixture.chainNoCode
                  (Fixture.service false) Fixture.deepTrie "hid" [] Fixture.w0 in
  (fst out = Ok tt /\
   statePaths (published (snd out)) = [[]; [1]; [1; 2]] /\
   exists emitted,
     statePaths (published (snd out))
     = statePaths (published Fixture.w0) ++ emitted /\
     (forall P, In P emitted ->
        stateNodeAt Fixture.deepTrie P /\
        (W = [] \/ exists wp, In wp W /\ isPrefixOf P wp)) /\
     (forall P, stateNodeAt Fixture.deepTrie P ->
        (In P emitted <->
         (exists wp, In wp W /\ isPrefixOf P wp) \/
         (exists wp, In wp W /\ isPrefixOf wp P)))) /\
  (fst failed = Err "missing code" /\
   statePaths (published (snd failed)) = [[]; [1]; [1; 2]; [1; 7]] /\
   exists emitted,
     statePaths (published (snd failed))
     = statePaths (published Fixture.w0) ++ emitted /\
     forall P, In P emitted -> stateNodeAt Fixture.deepTrie P).
Proof.
  intros W out failed. split.
  - split; [vm_compute; reflexivity|]. split; [vm_compute; reflexivity|].
    destruct (C1_watched_restriction Fixture.lib Fixture.chain (mkService true 4)
                Fixture.deepTrie "hid" W Fixture.w0 eq_refl
                (keybytesToHex_terminated [[18; 32]])
                (nibbleTrie_nibblePaths Fixture.deepTrie eq_refl))
      as (emitted & He & Hsound & Hok).
    exists emitted. split; [exact He|]. split; [exact Hsound|].
    apply (proj1 (Hok ltac:(vm_compute; reflexivity))). discriminate.
  - split; [vm_compute; reflexivity|]. split; [vm_compute; reflexivity|].
    destruct (C1_watched_restriction Fixture.lib Fixture.chainNoCode
                (Fixture.service false) Fixture.deepTrie "hid" [] Fixture.w0
                eq_refl (keybytesToHex_terminated [])
                (nibbleTrie_nibblePaths Fixture.deepTrie eq_refl))
      as (emitted & He & Hsound & _).
    exists emitted. split; [exact He|].
    intros P Hin. exact (proj1 (Hsound P Hin)).
Defined.
